(** * drip: frame codec, batching writer, tunnel registry, response handler

    A shallow embedding of the transport core of the drip reverse tunnel
    (Go) and the properties its specification states about it.

    - [Pool]      internal/shared/pool/buffer_pool.go
    - [Protocol]  internal/shared/protocol (frame.go)
    - [Utils]     internal/shared/utils (id.go, subdomain.go)
    - [Tunnel]    internal/server/tunnel (connection.go, manager.go, errors.go)
    - [Proxy]     internal/server/proxy (response handler)
    - [BatchWriter], [DirectWriter]  internal/shared/protocol (the two frame writers)
    - [Workers]   internal/shared/pool (worker pool)

    Go values are modelled as follows.  An [int], a [uint32] and a
    [time.Duration] are integers of [Z], conversions and saturation written
    out.  A [[]byte] is a [list byte]; the nil slice is the empty list.  A Go
    [string] is a [string].  A Go map is a [gmap].  A pointer to a shared
    object is a key into a store of such objects. *)

From Stdlib Require Import ZArith NArith Lia List Bool.
From Stdlib Require Import Strings.Byte Strings.Ascii Strings.String.
From stdpp Require Import base option list gmap strings.

Local Open Scope Z_scope.

#[local] Set Warnings "-clear-no-such-hyp".

(** ** Bytes and big-endian words *)

Module Bytes.

Definition byte_to_Z (b : byte) : Z := Z.of_N (Byte.to_N b).

(** The conversion [byte(v)] of an integer: its low eight bits. *)
Definition byte_of_Z (z : Z) : byte :=
  default x00 (Byte.of_N (Z.to_N (z mod 256))).

(** The conversion [uint32(n)] of an [int]. *)
Definition uint32 (n : Z) : Z := n mod 2 ^ 32.

(** [binary.BigEndian.PutUint32]. *)
Definition PutUint32 (v : Z) : list byte :=
  [ byte_of_Z (Z.shiftr v 24); byte_of_Z (Z.shiftr v 16);
    byte_of_Z (Z.shiftr v 8); byte_of_Z v ].

(** [binary.BigEndian.Uint32] on the four bytes [b0 b1 b2 b3]. *)
Definition Uint32 (b0 b1 b2 b3 : byte) : Z :=
  Z.lor (Z.lor (Z.lor (byte_to_Z b3) (Z.shiftl (byte_to_Z b2) 8))
               (Z.shiftl (byte_to_Z b1) 16))
        (Z.shiftl (byte_to_Z b0) 24).

End Bytes.

(** ** internal/shared/pool: the size-classed buffer pool *)

Module Pool.

Definition SizeSmall : Z := 4 * 1024.
Definition SizeMedium : Z := 32 * 1024.
Definition SizeLarge : Z := 256 * 1024.

(** A pooled [*[]byte]: the identity of the backing array and its capacity.
    A buffer sits in a pool with its length reset to its capacity, so the
    length is not recorded. *)
Record buffer := Buffer { buf_id : nat; buf_cap : Z }.

(** The three [sync.Pool]s, each as the list of the buffers put back and not
    yet handed out again, and the number of buffers [New] has made. *)
Record BufferPool := mkBufferPool {
  small : list buffer;
  medium : list buffer;
  large : list buffer;
  fresh : nat
}.

Definition NewBufferPool : BufferPool :=
  {| small := []; medium := []; large := []; fresh := 0 |}.

(** [sync.Pool.Get]: a buffer that was put back if there is one, else the
    result of [New], a buffer of the class's size.  A [sync.Pool] may besides
    drop a buffer that was put back, at any time, which this list does not
    do: how many buffers wait in a pool is a fact of this list only. *)
Definition pool_Get (free : list buffer) (size : Z) (next : nat)
  : buffer * list buffer * nat :=
  match free with
  | b :: rest => (b, rest, next)
  | [] => (Buffer next size, [], S next)
  end.

Definition Get (p : BufferPool) (size : Z) : buffer * BufferPool :=
  if size <=? SizeSmall then
    let '(b, rest, n) := pool_Get (small p) SizeSmall (fresh p) in
    (b, {| small := rest; medium := medium p; large := large p; fresh := n |})
  else if size <=? SizeMedium then
    let '(b, rest, n) := pool_Get (medium p) SizeMedium (fresh p) in
    (b, {| small := small p; medium := rest; large := large p; fresh := n |})
  else
    let '(b, rest, n) := pool_Get (large p) SizeLarge (fresh p) in
    (b, {| small := small p; medium := medium p; large := rest; fresh := n |}).

(** [Put] takes a pointer that may be nil; a buffer whose capacity is none
    of the three sizes is dropped. *)
Definition Put (p : BufferPool) (buf : option buffer) : BufferPool :=
  match buf with
  | None => p
  | Some b =>
      let size := buf_cap b in
      if size =? SizeSmall then
        {| small := b :: small p; medium := medium p; large := large p;
           fresh := fresh p |}
      else if size =? SizeMedium then
        {| small := small p; medium := b :: medium p; large := large p;
           fresh := fresh p |}
      else if size =? SizeLarge then
        {| small := small p; medium := medium p; large := b :: large p;
           fresh := fresh p |}
      else p
  end.

(** [GetBuffer] and [PutBuffer] act on the package's one global pool, which
    the model passes explicitly. *)
Definition GetBuffer (globalBufferPool : BufferPool) (size : Z) :=
  Get globalBufferPool size.

Definition PutBuffer (globalBufferPool : BufferPool) (buf : option buffer) :=
  Put globalBufferPool buf.

(** How many times a buffer occurs in the pool's free lists. *)
Definition occurrences (b : buffer) (p : BufferPool) : nat :=
  let same x := bool_decide (buf_id x = buf_id b) in
  length (filter (fun x => same x = true) (small p ++ medium p ++ large p)).

End Pool.

(** ** internal/shared/protocol: frames and their codec *)

Module Protocol.
Import Bytes Pool.

Definition FrameHeaderSize : Z := 5.
Definition MaxFrameSize : Z := 10 * 1024 * 1024.

Definition FrameType := byte.

Definition FrameTypeRegister : FrameType := x01.
Definition FrameTypeRegisterAck : FrameType := x02.
Definition FrameTypeHeartbeat : FrameType := x03.
Definition FrameTypeHeartbeatAck : FrameType := x04.
Definition FrameTypeData : FrameType := x05.
Definition FrameTypeClose : FrameType := x06.
Definition FrameTypeError : FrameType := x07.

(** The field [Type] is [Type_] here. *)
Record Frame := mkFrame {
  Type_ : FrameType;
  Payload : list byte;
  poolBuffer : option buffer
}.

Definition NewFrame (frameType : FrameType) (payload : list byte) : Frame :=
  {| Type_ := frameType; Payload := payload; poolBuffer := None |}.

(** The errors of a transport. *)
Inductive io_error :=
  | EOF
  | ErrUnexpectedEOF
  | ErrIO (msg : string).

(** The errors the package makes, one constructor for each message. *)
Inductive error :=
  | ErrPayloadTooLarge (payloadLen : Z)
  | ErrWriteLength (e : io_error)
  | ErrWriteType (e : io_error)
  | ErrWritePayload (e : io_error)
  | ErrReadHeader (e : io_error)
  | ErrReadPayload (e : io_error)
  | ErrWriterClosed.

(** An [io.Writer]: [Write] takes the bytes and returns the sink after the
    call and the error, if any. *)
Class Writer (W : Type) := Write : W -> list byte -> W * option io_error.

(** A sink that keeps what is written to it and never fails (a
    [bytes.Buffer]). *)
#[export] Instance buffer_Writer : Writer (list byte) :=
  fun w p => (w ++ p, None).

(** A sink that also records every call of [Write]. *)
#[export] Instance logging_Writer {W} `{Writer W} : Writer (W * list (list byte)) :=
  fun w p => let '(w', e) := Write (fst w) p in ((w', snd w ++ [p]), e).

(** A sink that also records the errors its calls of [Write] return. *)
#[export] Instance recording_Writer {W} `{Writer W} : Writer (W * list io_error) :=
  fun w p =>
    let '(w', e) := Write (fst w) p in
    ((w', snd w ++ match e with Some err => [err] | None => [] end), e).

Definition WriteFrame {W} `{Writer W} (w : W) (frame : Frame) : W * option error :=
  let payloadLen := Z.of_nat (length (Payload frame)) in
  if MaxFrameSize <? payloadLen then (w, Some (ErrPayloadTooLarge payloadLen))
  else
    let lengthBuf := PutUint32 (uint32 payloadLen) in
    match Write w lengthBuf with
    | (w1, Some err) => (w1, Some (ErrWriteLength err))
    | (w1, None) =>
        match Write w1 [Type_ frame] with
        | (w2, Some err) => (w2, Some (ErrWriteType err))
        | (w2, None) =>
            if 0 <? payloadLen then
              match Write w2 (Payload frame) with
              | (w3, Some err) => (w3, Some (ErrWritePayload err))
              | (w3, None) => (w3, None)
              end
            else (w2, None)
        end
    end.

(** An [io.Reader]: the bytes it still delivers, and the error it returns
    once they are used up. *)
Record Reader := mkReader { rd_data : list byte; rd_end : io_error }.

(** [io.ReadFull r buf] with [len(buf) = n]: exactly [n] bytes, or what was
    left and an error ([io.EOF] when nothing was read, else
    [io.ErrUnexpectedEOF] at the end of the stream, or the reader's own
    error). *)
Definition ReadFull (r : Reader) (n : Z) : (io_error + list byte) * Reader :=
  if n <=? Z.of_nat (length (rd_data r)) then
    (inr (take (Z.to_nat n) (rd_data r)),
     {| rd_data := drop (Z.to_nat n) (rd_data r); rd_end := rd_end r |})
  else
    (inl (match rd_data r, rd_end r with
          | _ :: _, EOF => ErrUnexpectedEOF
          | _, e => e
          end),
     {| rd_data := []; rd_end := rd_end r |}).

(** The memory [ReadFrame] acts on: the global buffer pool, and the sizes of
    the slices made with [make], the latest first. *)
Record Mem := mkMem { pool : BufferPool; made : list Z }.

Definition make (n : Z) (m : Mem) : Mem :=
  {| pool := pool m; made := n :: made m |}.

Definition ReadFrame (r : Reader) (m : Mem) : (error + Frame) * Reader * Mem :=
  let m := make FrameHeaderSize m in
  match ReadFull r FrameHeaderSize with
  | (inl err, r) => (inl (ErrReadHeader err), r, m)
  | (inr header, r) =>
      let payloadLen := Uint32 (nth 0 header x00) (nth 1 header x00)
                               (nth 2 header x00) (nth 3 header x00) in
      if MaxFrameSize <? payloadLen then
        (inl (ErrPayloadTooLarge payloadLen), r, m)
      else
        let frameType := nth 4 header x00 in
        if 0 <? payloadLen then
          if SizeLarge <? payloadLen then
            let m := make payloadLen m in
            match ReadFull r payloadLen with
            | (inl err, r) => (inl (ErrReadPayload err), r, m)
            | (inr payload, r) =>
                (inr {| Type_ := frameType; Payload := payload;
                        poolBuffer := None |}, r, m)
            end
          else
            let '(poolBuf, p) := GetBuffer (pool m) payloadLen in
            match ReadFull r payloadLen with
            | (inl err, r) =>
                (inl (ErrReadPayload err), r,
                 {| pool := PutBuffer p (Some poolBuf); made := made m |})
            | (inr payload, r) =>
                (inr {| Type_ := frameType; Payload := payload;
                        poolBuffer := Some poolBuf |}, r,
                 {| pool := p; made := made m |})
            end
        else
          (inr {| Type_ := frameType; Payload := []; poolBuffer := None |},
           r, m)
  end.

(** [Release] on a frame and the global pool. *)
Definition Release (f : Frame) (p : BufferPool) : Frame * BufferPool :=
  match poolBuffer f with
  | Some b =>
      ({| Type_ := Type_ f; Payload := []; poolBuffer := None |},
       PutBuffer p (Some b))
  | None => (f, p)
  end.

(** [Release] called [n] times in a row. *)
Fixpoint Release_n (n : nat) (f : Frame) (p : BufferPool) : Frame * BufferPool :=
  match n with
  | O => (f, p)
  | S n => let '(f, p) := Release f p in Release_n n f p
  end.

(** The bytes of a frame on the wire. *)
Definition encode (t : FrameType) (p : list byte) : list byte :=
  PutUint32 (uint32 (Z.of_nat (length p))) ++ [t] ++ p.

End Protocol.

(** ** internal/shared/utils: identifiers and subdomains *)

Module Utils.
Import Bytes.

Local Open Scope string_scope.

(** *** encoding/hex *)

Definition hextable : string := "0123456789abcdef".

(** [s[i]] for an index within the string. *)
Definition char_at (s : string) (i : Z) : ascii :=
  default "000"%char (String.get (Z.to_nat i) s).

(** [hex.EncodeToString]: two characters for each byte, the high four bits
    first. *)
Fixpoint EncodeToString (src : list byte) : string :=
  match src with
  | [] => ""
  | v :: rest =>
      String (char_at hextable (Z.shiftr (byte_to_Z v) 4))
        (String (char_at hextable (Z.land (byte_to_Z v) 15))
           (EncodeToString rest))
  end.

(** *** id.go *)

(** The outcome of [crypto/rand.Read] on a slice: an error, or the slice
    filled with the bytes the source delivers. *)
Record CryptoRand := mkCryptoRand {
  rand_fails : bool;
  rand_bytes : nat -> byte
}.

Definition rand_Read (src : CryptoRand) (n : nat) : option (list byte) :=
  if rand_fails src then None else Some (map (rand_bytes src) (seq 0 n)).

(** [timeNowString] is the value of [time.Now().String()] at the call. *)
Definition generateFallbackID (timeNowString : string) : string :=
  EncodeToString (list_byte_of_string timeNowString).

Definition GenerateID (src : CryptoRand) (timeNowString : string) : string :=
  match rand_Read src 16 with
  | None => generateFallbackID timeNowString
  | Some b => EncodeToString b
  end.

Definition GenerateShortID (src : CryptoRand) (timeNowString : string) : string :=
  match rand_Read src 4 with
  | None => substring 0 8 (generateFallbackID timeNowString)
  | Some b => EncodeToString b
  end.

(** The format of a request ID: lower-case hexadecimal characters. *)
Definition isHexChar (c : ascii) : bool :=
  let n := nat_of_ascii c in
  ((48 <=? n)%nat && (n <=? 57)%nat) || ((97 <=? n)%nat && (n <=? 102)%nat).

Fixpoint all_chars (P : ascii -> bool) (s : string) : bool :=
  match s with
  | "" => true
  | String c rest => P c && all_chars P rest
  end.

(** *** subdomain.go *)

Definition SubdomainChars : string := "abcdefghijklmnopqrstuvwxyz0123456789".
Definition DefaultSubdomainLength : Z := 6.

(** The source of [rand.Int (rand.Reader, max)]: what each draw delivers (an
    error, or a number that is reduced below [max]), and the number of draws
    made so far. *)
Record RandReader := mkRandReader {
  outcomes : nat -> option Z;
  drawn : nat
}.

Definition rand_Int (rng : RandReader) (max : Z) : option Z * RandReader :=
  (option_map (fun v => v mod max) (outcomes rng (drawn rng)),
   {| outcomes := outcomes rng; drawn := S (drawn rng) |}).

(** The loop of [GenerateSubdomain] from index [i], [n] characters to go. *)
Fixpoint generate_from (i : nat) (n : nat) (rng : RandReader) : string * RandReader :=
  match n with
  | O => ("", rng)
  | S n' =>
      let charsLen := Z.of_nat (String.length SubdomainChars) in
      let '(num, rng) := rand_Int rng charsLen in
      let c := match num with
               | None => char_at SubdomainChars (Z.of_nat i mod charsLen)
               | Some v => char_at SubdomainChars v
               end in
      let '(rest, rng) := generate_from (S i) n' rng in
      (String c rest, rng)
  end.

Definition GenerateSubdomain (length : Z) (rng : RandReader) : string * RandReader :=
  let length := if (length <=? 0)%Z then DefaultSubdomainLength else length in
  generate_from 0 (Z.to_nat length) rng.

(** *** The regular expressions [ValidateSubdomain] needs

    A character class given by its ranges, concatenation, and bounded
    repetition [r{lo,hi}].  [matches r s] is whether the whole of [s] is in
    the language of [r], which is what [MatchString] decides for a pattern
    anchored with [^] and [$]. *)
Inductive regex :=
  | Class (ranges : list (ascii * ascii))
  | Concat (r1 r2 : regex)
  | Repeat (r : regex) (lo hi : nat).

Definition in_class (ranges : list (ascii * ascii)) (c : ascii) : bool :=
  existsb (fun '(a, b) =>
             (nat_of_ascii a <=? nat_of_ascii c)%nat &&
             (nat_of_ascii c <=? nat_of_ascii b)%nat) ranges.

Definition is_nil {A} (l : list A) : bool :=
  match l with [] => true | _ => false end.

(** Some way of cutting [s] in two, at [i] or one of the [n] places after
    it, satisfies [f]. *)
Fixpoint some_split_from {A} (f : list A -> list A -> bool) (s : list A)
    (i n : nat) : bool :=
  if f (take i s) (drop i s) then true
  else match n with
       | O => false
       | S n' => some_split_from f s (S i) n'
       end.

Definition some_split {A} (f : list A -> list A -> bool) (s : list A) : bool :=
  some_split_from f s 0 (length s).

Fixpoint repeat_matches (m : list ascii -> bool) (lo hi : nat) (s : list ascii) : bool :=
  match hi with
  | O => if (lo =? 0)%nat then is_nil s else false
  | S hi' =>
      if (if (lo =? 0)%nat then is_nil s else false) then true
      else some_split
             (fun front back =>
                if m front then repeat_matches m (pred lo) hi' back else false) s
  end.

Fixpoint matches (r : regex) (s : list ascii) : bool :=
  match r with
  | Class ranges => match s with [c] => in_class ranges c | _ => false end
  | Concat r1 r2 =>
      some_split
        (fun front back => if matches r1 front then matches r2 back else false) s
  | Repeat r lo hi => repeat_matches (matches r) lo hi s
  end.

(** [[a-z0-9]] and [[a-z0-9-]]. *)
Definition alnum : list (ascii * ascii) :=
  [("a"%char, "z"%char); ("0"%char, "9"%char)].
Definition alnum_dash : list (ascii * ascii) :=
  [("a"%char, "z"%char); ("0"%char, "9"%char); ("-"%char, "-"%char)].

(** [^[a-z0-9][a-z0-9-]{1,61}[a-z0-9]$] *)
Definition subdomainRegex : regex :=
  Concat (Class alnum) (Concat (Repeat (Class alnum_dash) 1 61) (Class alnum)).

Definition MatchString (r : regex) (s : string) : bool :=
  matches r (list_ascii_of_string s).

Definition ValidateSubdomain (subdomain : string) : bool :=
  if ((String.length subdomain <? 3)%nat || (63 <? String.length subdomain)%nat)%bool
  then false
  else MatchString subdomainRegex subdomain.

Definition reserved : gmap string bool :=
  list_to_map
    [ ("www", true); ("api", true); ("admin", true); ("app", true);
      ("mail", true); ("ftp", true); ("blog", true); ("shop", true);
      ("status", true); ("health", true); ("test", true); ("dev", true);
      ("staging", true) ].

(** A lookup in a [map[string]bool]: [false] for a key that is not there. *)
Definition map_bool (m : gmap string bool) (k : string) : bool :=
  default false (m !! k).

Definition IsReserved (subdomain : string) : bool := map_bool reserved subdomain.

End Utils.

(** ** Time

    A [time.Time] is a number of nanoseconds, a [time.Duration] a signed
    64-bit number of nanoseconds.  [t.Sub(u)] saturates at the largest and
    the smallest duration. *)

Module GoTime.

Definition maxDuration : Z := 2 ^ 63 - 1.
Definition minDuration : Z := - 2 ^ 63.
Definition Second : Z := 1000000000.

Definition Sub (t u : Z) : Z :=
  let d := t - u in
  if maxDuration <? d then maxDuration
  else if d <? minDuration then minDuration
  else d.

(** [time.Since(t)], the clock reading [now] at the call. *)
Definition Since (now t : Z) : Z := Sub now t.

End GoTime.

(** ** internal/server/tunnel: connections and the registry *)

Module Tunnel.
Import Utils GoTime.

Inductive error :=
  | ErrConnectionClosed
  | ErrSendTimeout
  | ErrTunnelNotFound
  | ErrSubdomainTaken
  | ErrInvalidSubdomain
  | ErrReservedSubdomain.

(** *** connection.go

    [Conn] is the WebSocket handle, nil for a TCP client.  The channels
    [SendCh] and [CloseCh] are closed exactly when [closed] is set. *)
Record Connection := mkConnection {
  Subdomain : string;
  Conn : option nat;
  LastActive : Z;
  closed : bool
}.

Definition NewConnection (subdomain : string) (conn : option nat) (now : Z)
  : Connection :=
  {| Subdomain := subdomain; Conn := conn; LastActive := now; closed := false |}.

Definition UpdateActivity (now : Z) (c : Connection) : Connection :=
  {| Subdomain := Subdomain c; Conn := Conn c; LastActive := now;
     closed := closed c |}.

Definition IsAlive (c : Connection) (now : Z) (timeout : Z) : bool :=
  Since now (LastActive c) <? timeout.

Definition Close (c : Connection) : Connection :=
  if closed c then c
  else {| Subdomain := Subdomain c; Conn := Conn c;
          LastActive := LastActive c; closed := true |}.

Definition IsClosed (c : Connection) : bool := closed c.

(** *** manager.go

    [tunnels] maps a subdomain to a pointer to its connection; [conns] is the
    store those pointers refer to, which outlives the bindings (a caller of
    [Get] keeps its pointer).  Log records are left out. *)
Record Manager := mkManager {
  conns : gmap nat Connection;
  tunnels : gmap string nat;
  used : gmap string bool
}.

Definition NewManager : Manager :=
  {| conns := ∅; tunnels := ∅; used := ∅ |}.

(** The ten attempts of [generateUniqueSubdomain] at a label of length 6. *)
Fixpoint generate_attempts (n : nat) (m : Manager) (rng : RandReader)
  : option string * RandReader :=
  match n with
  | O => (None, rng)
  | S n' =>
      let '(subdomain, rng) := GenerateSubdomain 6 rng in
      if negb (map_bool (used m) subdomain) && negb (IsReserved subdomain)
      then (Some subdomain, rng)
      else generate_attempts n' m rng
  end.

Definition maxAttempts : nat := 10.

Definition generateUniqueSubdomain (m : Manager) (rng : RandReader)
  : string * RandReader :=
  match generate_attempts maxAttempts m rng with
  | (Some subdomain, rng) => (subdomain, rng)
  | (None, rng) => GenerateSubdomain 8 rng
  end.

(** The tail of [Register]: the new connection, allocated in the store, and
    the two map entries. *)
Definition bind (m : Manager) (subdomain : string) (conn : option nat) (now : Z)
  : Manager :=
  let tc := fresh (dom (conns m)) in
  {| conns := <[tc := NewConnection subdomain conn now]> (conns m);
     tunnels := <[subdomain := tc]> (tunnels m);
     used := <[subdomain := true]> (used m) |}.

Definition Register (m : Manager) (conn : option nat) (customSubdomain : string)
    (rng : RandReader) (now : Z)
  : (error + string) * Manager * RandReader :=
  if negb (String.eqb customSubdomain "") then
    if negb (ValidateSubdomain customSubdomain) then
      (inl ErrInvalidSubdomain, m, rng)
    else if IsReserved customSubdomain then
      (inl ErrReservedSubdomain, m, rng)
    else if map_bool (used m) customSubdomain then
      (inl ErrSubdomainTaken, m, rng)
    else
      (inr customSubdomain, bind m customSubdomain conn now, rng)
  else
    let '(subdomain, rng) := generateUniqueSubdomain m rng in
    (inr subdomain, bind m subdomain conn now, rng).

(** What [Unregister] and [CleanupStale] do to one subdomain that is
    bound: close its connection and delete both entries. *)
Definition remove (m : Manager) (subdomain : string) : Manager :=
  match tunnels m !! subdomain with
  | Some tc =>
      {| conns := alter Close tc (conns m);
         tunnels := delete subdomain (tunnels m);
         used := delete subdomain (used m) |}
  | None => m
  end.

Definition Unregister (m : Manager) (subdomain : string) : Manager :=
  remove m subdomain.

Definition Get (m : Manager) (subdomain : string) : option nat :=
  tunnels m !! subdomain.

Definition List (m : Manager) : list nat :=
  snd <$> map_to_list (tunnels m).

Definition Count (m : Manager) : Z := Z.of_nat (size (tunnels m)).

(** Whether the first loop of [CleanupStale] collects a subdomain.  [clock]
    gives the reading of the clock when the connection of a subdomain is
    examined.  A pointer of [tunnels] always refers to a connection of the
    store. *)
Definition is_stale (m : Manager) (clock : string -> Z) (timeout : Z)
    (subdomain : string) (tc : nat) : bool :=
  match conns m !! tc with
  | Some c => negb (IsAlive c (clock subdomain) timeout)
  | None => false
  end.

Definition staleSubdomains (m : Manager) (clock : string -> Z) (timeout : Z)
  : list string :=
  fst <$> filter (fun kv => is_stale m clock timeout (fst kv) (snd kv) = true)
            (map_to_list (tunnels m)).

Definition CleanupStale (m : Manager) (clock : string -> Z) (timeout : Z)
  : Z * Manager :=
  let stale := staleSubdomains m clock timeout in
  (Z.of_nat (length stale), foldl remove m stale).

Definition Shutdown (m : Manager) : Manager :=
  {| conns := foldl (fun cs kv => alter Close (snd kv) cs) (conns m)
                (map_to_list (tunnels m));
     tunnels := ∅; used := ∅ |}.

End Tunnel.

(** ** internal/server/proxy: the response handler

    A channel of [*protocol.HTTPResponse] is shared by the handler and the
    waiting request, so the channels live in a store ([chans]) and an entry
    holds the key of its channel.  [None] as the result of an operation is a
    run-time panic (a send on a closed channel, closing a closed channel, a
    nil entry dereferenced). *)

Module Proxy.
Import GoTime.

Record HTTPResponse := mkHTTPResponse {
  StatusCode : Z;
  Status : string;
  Headers : list (string * list string);
  Body : list byte
}.

(** A buffered channel: what is in its buffer, its capacity, and whether it
    was closed. *)
Record channel := mkChannel {
  buf : list HTTPResponse;
  cap : nat;
  ch_closed : bool
}.

Record responseChanEntry := mkEntry {
  ch : nat;
  createdAt : Z
}.

Inductive log_record :=
  | WarnNotFound (requestID : string)
  | DebugSent (requestID : string)
  | WarnTimeout (requestID : string)
  | DebugCleaned (count remaining : Z).

(** The value of a map entry is a pointer, [None] when it is nil. *)
Record ResponseHandler := mkHandler {
  channels : gmap string (option responseChanEntry);
  chans : gmap nat channel;
  logger : list log_record;
  stopCh : bool
}.

Definition NewResponseHandler : ResponseHandler :=
  {| channels := ∅; chans := ∅; logger := []; stopCh := false |}.

Definition CreateResponseChan (h : ResponseHandler) (requestID : string) (now : Z)
  : nat * ResponseHandler :=
  let c := fresh (dom (chans h)) in
  (c, {| channels := <[requestID := Some {| ch := c; createdAt := now |}]> (channels h);
         chans := <[c := {| buf := []; cap := 1; ch_closed := false |}]> (chans h);
         logger := logger h; stopCh := stopCh h |}).

Definition GetResponseChan (h : ResponseHandler) (requestID : string) : option nat :=
  match channels h !! requestID with
  | Some (Some entry) => Some (ch entry)
  | _ => None
  end.

Definition add_log (h : ResponseHandler) (r : log_record) : ResponseHandler :=
  {| channels := channels h; chans := chans h; logger := logger h ++ [r];
     stopCh := stopCh h |}.

Definition set_chan (h : ResponseHandler) (c : nat) (v : channel) : ResponseHandler :=
  {| channels := channels h; chans := <[c := v]> (chans h); logger := logger h;
     stopCh := stopCh h |}.

(** [SendResponse].  [room_in_time] tells whether, the buffer being full, a
    receiver takes its first element within the 5 seconds of the timer. *)
Definition SendResponse (h : ResponseHandler) (requestID : string)
    (resp : HTTPResponse) (room_in_time : bool) : option ResponseHandler :=
  match channels h !! requestID with
  | None | Some None => Some (add_log h (WarnNotFound requestID))
  | Some (Some entry) =>
      match chans h !! ch entry with
      | None => None
      | Some c =>
          if ch_closed c then None
          else if (length (buf c) <? cap c)%nat then
            Some (add_log
                    (set_chan h (ch entry)
                       {| buf := buf c ++ [resp]; cap := cap c; ch_closed := false |})
                    (DebugSent requestID))
          else if room_in_time then
            Some (add_log
                    (set_chan h (ch entry)
                       {| buf := tail (buf c) ++ [resp]; cap := cap c;
                          ch_closed := false |})
                    (DebugSent requestID))
          else Some (add_log h (WarnTimeout requestID))
      end
  end.

(** [close(entry.ch)]. *)
Definition close_chan (cs : gmap nat channel) (c : nat) : option (gmap nat channel) :=
  match cs !! c with
  | Some v =>
      if ch_closed v then None
      else Some (<[c := {| buf := buf v; cap := cap v; ch_closed := true |}]> cs)
  | None => None
  end.

Definition CleanupResponseChan (h : ResponseHandler) (requestID : string)
  : option ResponseHandler :=
  match channels h !! requestID with
  | Some None => None
  | Some (Some entry) =>
      match close_chan (chans h) (ch entry) with
      | Some cs =>
          Some {| channels := delete requestID (channels h); chans := cs;
                  logger := logger h; stopCh := stopCh h |}
      | None => None
      end
  | None => Some h
  end.

Definition GetPendingCount (h : ResponseHandler) : Z :=
  Z.of_nat (size (channels h)).

Definition timeout : Z := 30 * Second.

(** The body of the loop of [cleanupExpiredChannels] for one entry of the
    map, on the handler and the count so far. *)
Definition expire_one (now : Z) (acc : option (ResponseHandler * Z))
    (kv : string * option responseChanEntry) : option (ResponseHandler * Z) :=
  match acc with
  | None => None
  | Some (h, expiredCount) =>
      match snd kv with
      | None => None
      | Some entry =>
          if timeout <? Sub now (createdAt entry) then
            match close_chan (chans h) (ch entry) with
            | Some cs =>
                Some ({| channels := delete (fst kv) (channels h); chans := cs;
                         logger := logger h; stopCh := stopCh h |},
                      expiredCount + 1)
            | None => None
            end
          else Some (h, expiredCount)
      end
  end.

Definition cleanupExpiredChannels (h : ResponseHandler) (now : Z)
  : option ResponseHandler :=
  match foldl (expire_one now) (Some (h, 0)) (map_to_list (channels h)) with
  | Some (h', expiredCount) =>
      if 0 <? expiredCount then
        Some (add_log h' (DebugCleaned expiredCount (Z.of_nat (size (channels h')))))
      else Some h'
  | None => None
  end.

End Proxy.

(** ** internal/shared/protocol: the batching frame writer

    The writer of the file that declares [heartbeatCallback], [writeErr] and
    [adaptiveFlush].  A method is one step on the writer's state; the steps
    of the goroutine of [writeLoop] are the cases of its [select].  The
    channel [queue] is its buffer, its capacity and whether it was closed;
    the channel [done] is whether it was closed.  The buffer is that of a
    channel made with a capacity above zero; with [queueSize] zero the
    channel of the code has no buffer and a send is a hand-over to a
    goroutine that waits to receive, which [queue] does not tell.  [spawned]
    records the calls [go w.onWriteError(err)], a handler being known by a
    number; [bufpool] is the global buffer pool [Release] puts buffers back
    into. *)

Module BatchWriter.
Import Bytes Pool Protocol.

Section writer.
Context {W : Type} `{Writer W}.

Record FrameWriter := mkFrameWriter {
  conn : W;
  queue : list Frame;
  queue_cap : nat;
  queue_closed : bool;
  batch : list Frame;
  done : bool;
  closed : bool;
  maxBatch : Z;
  maxBatchWait : Z;
  heartbeatInterval : Z;
  heartbeatCallback : option (option Frame);
  heartbeatEnabled : bool;
  heartbeatControl : bool;
  writeErr : option error;
  errOnce : bool;
  onWriteError : option nat;
  adaptiveFlush : bool;
  lowConcurrencyThreshold : Z;
  heartbeatTicker : bool;
  running : bool;
  spawned : list (nat * error);
  bufpool : BufferPool
}.

(** [heartbeatCallback] is nil ([None]) or a function, given by what its call
    returns: nil or a frame.  [heartbeatControl] tells whether its buffer of
    one signal is full.  [heartbeatTicker] and [running] belong to the
    goroutine of [writeLoop]: whether its heartbeat ticker is set, and
    whether it has not returned. *)

Definition NewFrameWriterWithConfig (c : W) (maxBatch_ maxBatchWait_ : Z)
    (queueSize : nat) (p : BufferPool) : FrameWriter :=
  {| conn := c; queue := []; queue_cap := queueSize; queue_closed := false;
     batch := []; done := false; closed := false;
     maxBatch := maxBatch_; maxBatchWait := maxBatchWait_;
     heartbeatInterval := 0; heartbeatCallback := None;
     heartbeatEnabled := false; heartbeatControl := false;
     writeErr := None; errOnce := false; onWriteError := None;
     adaptiveFlush := false; lowConcurrencyThreshold := 0;
     heartbeatTicker := false; running := true;
     spawned := []; bufpool := p |}.

Definition set_conn (w : FrameWriter) (c : W) : FrameWriter :=
  {| conn := c; queue := queue w; queue_cap := queue_cap w;
     queue_closed := queue_closed w; batch := batch w; done := done w;
     closed := closed w; maxBatch := maxBatch w; maxBatchWait := maxBatchWait w;
     heartbeatInterval := heartbeatInterval w;
     heartbeatCallback := heartbeatCallback w;
     heartbeatEnabled := heartbeatEnabled w;
     heartbeatControl := heartbeatControl w; writeErr := writeErr w;
     errOnce := errOnce w; onWriteError := onWriteError w;
     adaptiveFlush := adaptiveFlush w;
     lowConcurrencyThreshold := lowConcurrencyThreshold w;
     heartbeatTicker := heartbeatTicker w; running := running w;
     spawned := spawned w; bufpool := bufpool w |}.

Definition set_queue (w : FrameWriter) (q : list Frame) (qc : bool) : FrameWriter :=
  {| conn := conn w; queue := q; queue_cap := queue_cap w;
     queue_closed := qc; batch := batch w; done := done w;
     closed := closed w; maxBatch := maxBatch w; maxBatchWait := maxBatchWait w;
     heartbeatInterval := heartbeatInterval w;
     heartbeatCallback := heartbeatCallback w;
     heartbeatEnabled := heartbeatEnabled w;
     heartbeatControl := heartbeatControl w; writeErr := writeErr w;
     errOnce := errOnce w; onWriteError := onWriteError w;
     adaptiveFlush := adaptiveFlush w;
     lowConcurrencyThreshold := lowConcurrencyThreshold w;
     heartbeatTicker := heartbeatTicker w; running := running w;
     spawned := spawned w; bufpool := bufpool w |}.

Definition set_batch (w : FrameWriter) (b : list Frame) : FrameWriter :=
  {| conn := conn w; queue := queue w; queue_cap := queue_cap w;
     queue_closed := queue_closed w; batch := b; done := done w;
     closed := closed w; maxBatch := maxBatch w; maxBatchWait := maxBatchWait w;
     heartbeatInterval := heartbeatInterval w;
     heartbeatCallback := heartbeatCallback w;
     heartbeatEnabled := heartbeatEnabled w;
     heartbeatControl := heartbeatControl w; writeErr := writeErr w;
     errOnce := errOnce w; onWriteError := onWriteError w;
     adaptiveFlush := adaptiveFlush w;
     lowConcurrencyThreshold := lowConcurrencyThreshold w;
     heartbeatTicker := heartbeatTicker w; running := running w;
     spawned := spawned w; bufpool := bufpool w |}.

(** [closed] and the channel [done]. *)
Definition set_closed (w : FrameWriter) (c d : bool) : FrameWriter :=
  {| conn := conn w; queue := queue w; queue_cap := queue_cap w;
     queue_closed := queue_closed w; batch := batch w; done := d;
     closed := c; maxBatch := maxBatch w; maxBatchWait := maxBatchWait w;
     heartbeatInterval := heartbeatInterval w;
     heartbeatCallback := heartbeatCallback w;
     heartbeatEnabled := heartbeatEnabled w;
     heartbeatControl := heartbeatControl w; writeErr := writeErr w;
     errOnce := errOnce w; onWriteError := onWriteError w;
     adaptiveFlush := adaptiveFlush w;
     lowConcurrencyThreshold := lowConcurrencyThreshold w;
     heartbeatTicker := heartbeatTicker w; running := running w;
     spawned := spawned w; bufpool := bufpool w |}.

Definition set_heartbeat (w : FrameWriter) (interval : Z)
    (callback : option (option Frame)) (enabled control : bool) : FrameWriter :=
  {| conn := conn w; queue := queue w; queue_cap := queue_cap w;
     queue_closed := queue_closed w; batch := batch w; done := done w;
     closed := closed w; maxBatch := maxBatch w; maxBatchWait := maxBatchWait w;
     heartbeatInterval := interval;
     heartbeatCallback := callback;
     heartbeatEnabled := enabled;
     heartbeatControl := control; writeErr := writeErr w;
     errOnce := errOnce w; onWriteError := onWriteError w;
     adaptiveFlush := adaptiveFlush w;
     lowConcurrencyThreshold := lowConcurrencyThreshold w;
     heartbeatTicker := heartbeatTicker w; running := running w;
     spawned := spawned w; bufpool := bufpool w |}.

(** What the function passed to [errOnce.Do] assigns. *)
Definition set_error (w : FrameWriter) (e : option error) (c : bool)
    (calls : list (nat * error)) : FrameWriter :=
  {| conn := conn w; queue := queue w; queue_cap := queue_cap w;
     queue_closed := queue_closed w; batch := batch w; done := done w;
     closed := c; maxBatch := maxBatch w; maxBatchWait := maxBatchWait w;
     heartbeatInterval := heartbeatInterval w;
     heartbeatCallback := heartbeatCallback w;
     heartbeatEnabled := heartbeatEnabled w;
     heartbeatControl := heartbeatControl w; writeErr := e;
     errOnce := true; onWriteError := onWriteError w;
     adaptiveFlush := adaptiveFlush w;
     lowConcurrencyThreshold := lowConcurrencyThreshold w;
     heartbeatTicker := heartbeatTicker w; running := running w;
     spawned := calls; bufpool := bufpool w |}.

Definition set_onWriteError (w : FrameWriter) (handler : option nat) : FrameWriter :=
  {| conn := conn w; queue := queue w; queue_cap := queue_cap w;
     queue_closed := queue_closed w; batch := batch w; done := done w;
     closed := closed w; maxBatch := maxBatch w; maxBatchWait := maxBatchWait w;
     heartbeatInterval := heartbeatInterval w;
     heartbeatCallback := heartbeatCallback w;
     heartbeatEnabled := heartbeatEnabled w;
     heartbeatControl := heartbeatControl w; writeErr := writeErr w;
     errOnce := errOnce w; onWriteError := handler;
     adaptiveFlush := adaptiveFlush w;
     lowConcurrencyThreshold := lowConcurrencyThreshold w;
     heartbeatTicker := heartbeatTicker w; running := running w;
     spawned := spawned w; bufpool := bufpool w |}.

Definition set_adaptive (w : FrameWriter) (a : bool) (threshold : Z) : FrameWriter :=
  {| conn := conn w; queue := queue w; queue_cap := queue_cap w;
     queue_closed := queue_closed w; batch := batch w; done := done w;
     closed := closed w; maxBatch := maxBatch w; maxBatchWait := maxBatchWait w;
     heartbeatInterval := heartbeatInterval w;
     heartbeatCallback := heartbeatCallback w;
     heartbeatEnabled := heartbeatEnabled w;
     heartbeatControl := heartbeatControl w; writeErr := writeErr w;
     errOnce := errOnce w; onWriteError := onWriteError w;
     adaptiveFlush := a;
     lowConcurrencyThreshold := threshold;
     heartbeatTicker := heartbeatTicker w; running := running w;
     spawned := spawned w; bufpool := bufpool w |}.

Definition set_loop (w : FrameWriter) (ticker run : bool) : FrameWriter :=
  {| conn := conn w; queue := queue w; queue_cap := queue_cap w;
     queue_closed := queue_closed w; batch := batch w; done := done w;
     closed := closed w; maxBatch := maxBatch w; maxBatchWait := maxBatchWait w;
     heartbeatInterval := heartbeatInterval w;
     heartbeatCallback := heartbeatCallback w;
     heartbeatEnabled := heartbeatEnabled w;
     heartbeatControl := heartbeatControl w; writeErr := writeErr w;
     errOnce := errOnce w; onWriteError := onWriteError w;
     adaptiveFlush := adaptiveFlush w;
     lowConcurrencyThreshold := lowConcurrencyThreshold w;
     heartbeatTicker := ticker; running := run;
     spawned := spawned w; bufpool := bufpool w |}.

Definition set_bufpool (w : FrameWriter) (p : BufferPool) : FrameWriter :=
  {| conn := conn w; queue := queue w; queue_cap := queue_cap w;
     queue_closed := queue_closed w; batch := batch w; done := done w;
     closed := closed w; maxBatch := maxBatch w; maxBatchWait := maxBatchWait w;
     heartbeatInterval := heartbeatInterval w;
     heartbeatCallback := heartbeatCallback w;
     heartbeatEnabled := heartbeatEnabled w;
     heartbeatControl := heartbeatControl w; writeErr := writeErr w;
     errOnce := errOnce w; onWriteError := onWriteError w;
     adaptiveFlush := adaptiveFlush w;
     lowConcurrencyThreshold := lowConcurrencyThreshold w;
     heartbeatTicker := heartbeatTicker w; running := running w;
     spawned := spawned w; bufpool := p |}.

Definition EnableAdaptiveFlush (w : FrameWriter) (threshold : Z) : FrameWriter :=
  set_adaptive w true threshold.

Definition DisableAdaptiveFlush (w : FrameWriter) : FrameWriter :=
  set_adaptive w false (lowConcurrencyThreshold w).

Definition NewFrameWriter (c : W) (p : BufferPool) : FrameWriter :=
  EnableAdaptiveFlush (NewFrameWriterWithConfig c 256 2000000 4096 p) 16.

(** [w.errOnce.Do(func() { ... })] on the error [err]. *)
Definition errOnce_Do (w : FrameWriter) (err : error) : FrameWriter :=
  if errOnce w then w
  else
    set_error w (Some err) true
      (match onWriteError w with
       | Some handler => spawned w ++ [(handler, err)]
       | None => spawned w
       end).

(** The loop of [flushBatchLocked] over the frames of the batch. *)
Fixpoint flush_frames (w : FrameWriter) (frames : list Frame) : FrameWriter :=
  match frames with
  | [] => w
  | frame :: rest =>
      let '(c, err) := WriteFrame (conn w) frame in
      let w := set_conn w c in
      let w := match err with
               | Some err => errOnce_Do w err
               | None => w
               end in
      let w := set_bufpool w (snd (Release frame (bufpool w))) in
      flush_frames w rest
  end.

Definition flushBatchLocked (w : FrameWriter) : FrameWriter :=
  match batch w with
  | [] => w
  | _ => set_batch (flush_frames w (batch w)) []
  end.

(** What a call of the method [WriteFrame] comes to: it returns, it stays
    blocked in its [select] while no case can proceed, or it panics (a send
    on a closed channel). *)
Inductive submit_result :=
  | Returned (err : option error)
  | Blocked
  | Panicked.

Definition closed_error (w : FrameWriter) : error :=
  match writeErr w with
  | Some err => err
  | None => ErrWriterClosed
  end.

(** [pick_done] is the choice of the [select] when both cases can proceed. *)
Definition FrameWriter_WriteFrame (w : FrameWriter) (frame : Frame)
    (pick_done : bool) : submit_result * FrameWriter :=
  if closed w then (Returned (Some (closed_error w)), w)
  else
    let can_send := queue_closed w || (length (queue w) <? queue_cap w)%nat in
    if can_send && negb (done w && pick_done) then
      if queue_closed w then (Panicked, w)
      else (Returned None, set_queue w (queue w ++ [frame]) false)
    else if done w then (Returned (Some (closed_error w)), w)
    else (Blocked, w).

(** [Release] on every frame left in the queue. *)
Definition release_all (frames : list Frame) (p : BufferPool) : BufferPool :=
  foldl (fun p frame => snd (Release frame p)) p frames.

(** [Close]; [None] is the panic of closing a closed channel. *)
Definition Close (w : FrameWriter) : option FrameWriter :=
  if closed w then Some w
  else if queue_closed w || done w then None
  else
    let w := set_closed w true false in
    let w := set_bufpool (set_queue w [] true) (release_all (queue w) (bufpool w)) in
    Some (set_closed w true true).

(** [Flush]; [None] is the loop that does not end, on a closed queue. *)
Definition Flush (w : FrameWriter) : option FrameWriter :=
  if closed w then Some w
  else if queue_closed w then None
  else Some (flushBatchLocked (set_queue (set_batch w (batch w ++ queue w)) [] false)).

Definition EnableHeartbeat (w : FrameWriter) (interval : Z)
    (callback : option (option Frame)) : FrameWriter :=
  set_heartbeat w interval callback true true.

Definition DisableHeartbeat (w : FrameWriter) : FrameWriter :=
  set_heartbeat w (heartbeatInterval w) (heartbeatCallback w) false true.

Definition SetWriteErrorHandler (w : FrameWriter) (handler : option nat) : FrameWriter :=
  set_onWriteError w handler.

(** The cases of the [select] of [writeLoop]. *)
Inductive loop_case :=
  | RecvQueue
  | BatchTick
  | HeartbeatTick
  | HeartbeatControl
  | Done.

(** One turn of the loop of [writeLoop] through a case that can proceed; the
    state is left as it is when the case cannot proceed or the goroutine has
    returned. *)
Definition writeLoop_step (w : FrameWriter) (c : loop_case) : FrameWriter :=
  if negb (running w) then w
  else
    match c with
    | RecvQueue =>
        match queue w with
        | frame :: rest =>
            let w := set_queue w rest (queue_closed w) in
            let w := set_batch w (batch w ++ [frame]) in
            let shouldFlushNow :=
              (maxBatch w <=? Z.of_nat (length (batch w))) ||
              (adaptiveFlush w &&
               (Z.of_nat (length (queue w)) <=? lowConcurrencyThreshold w)) in
            if shouldFlushNow then flushBatchLocked w else w
        | [] =>
            if queue_closed w
            then set_loop (flushBatchLocked w) (heartbeatTicker w) false
            else w
        end
    | BatchTick =>
        if (0 <? length (batch w))%nat then flushBatchLocked w else w
    | HeartbeatTick =>
        if heartbeatTicker w then
          match heartbeatCallback w with
          | Some (Some frame) =>
              flushBatchLocked (set_batch w (batch w ++ [frame]))
          | _ => w
          end
        else w
    | HeartbeatControl =>
        if heartbeatControl w then
          let w := set_heartbeat w (heartbeatInterval w) (heartbeatCallback w)
                     (heartbeatEnabled w) false in
          set_loop w (heartbeatEnabled w && (0 <? heartbeatInterval w)) true
        else w
    | Done =>
        if done w
        then set_loop (flushBatchLocked w) (heartbeatTicker w) false
        else w
    end.

(** The operations on a writer, by whoever holds it and by its goroutine. *)
Inductive op :=
  | OpWriteFrame (frame : Frame) (pick_done : bool)
  | OpLoop (c : loop_case)
  | OpClose
  | OpFlush
  | OpSetWriteErrorHandler (handler : option nat)
  | OpEnableHeartbeat (interval : Z) (callback : option (option Frame))
  | OpDisableHeartbeat
  | OpEnableAdaptiveFlush (threshold : Z)
  | OpDisableAdaptiveFlush.

Definition step (w : FrameWriter) (o : op) : FrameWriter :=
  match o with
  | OpWriteFrame frame pick_done => snd (FrameWriter_WriteFrame w frame pick_done)
  | OpLoop c => writeLoop_step w c
  | OpClose => default w (Close w)
  | OpFlush => default w (Flush w)
  | OpSetWriteErrorHandler handler => SetWriteErrorHandler w handler
  | OpEnableHeartbeat interval callback => EnableHeartbeat w interval callback
  | OpDisableHeartbeat => DisableHeartbeat w
  | OpEnableAdaptiveFlush threshold => EnableAdaptiveFlush w threshold
  | OpDisableAdaptiveFlush => DisableAdaptiveFlush w
  end.

Definition run (w : FrameWriter) (ops : list op) : FrameWriter :=
  foldl step w ops.

(** [Close] on a writer that is not closed, up to and with
    [close(w.queue)]: [done] is closed after it, once the queue is drained. *)
Definition Close_queue (w : FrameWriter) : FrameWriter :=
  set_queue (set_closed w true (done w)) (queue w) true.


(** The first error [WriteFrame] returns when the frames are written in
    turn, every frame being written whether an earlier one failed or not. *)
Fixpoint first_write_error (c : W) (frames : list Frame) : option error :=
  match frames with
  | [] => None
  | frame :: rest =>
      match WriteFrame c frame with
      | (_, Some err) => Some err
      | (c', None) => first_write_error c' rest
      end
  end.

End writer.

Arguments FrameWriter W : clear implicits.

End BatchWriter.

(** ** internal/shared/protocol: the frame writer with the direct write

    The writer of the file whose [FrameWriter] has the fields [conn],
    [queue], [batch], [mu], [done], [closed], [maxBatch] and [maxBatchWait]
    only, and whose method [WriteFrame] has a [default] case.  As for the
    batching writer, [queue] is the buffer of a channel made with a capacity
    above zero. *)

Module DirectWriter.
Import Bytes Pool Protocol.

Section writer.
Context {W : Type} `{Writer W}.

Record FrameWriter := mkFrameWriter {
  conn : W;
  queue : list Frame;
  queue_cap : nat;
  queue_closed : bool;
  batch : list Frame;
  done : bool;
  closed : bool;
  maxBatch : Z;
  maxBatchWait : Z;
  running : bool
}.

Definition NewFrameWriterWithConfig (c : W) (maxBatch_ maxBatchWait_ : Z)
    (queueSize : nat) : FrameWriter :=
  {| conn := c; queue := []; queue_cap := queueSize; queue_closed := false;
     batch := []; done := false; closed := false;
     maxBatch := maxBatch_; maxBatchWait := maxBatchWait_; running := true |}.

Definition NewFrameWriter (c : W) : FrameWriter :=
  NewFrameWriterWithConfig c 128 2000000 1024.

Definition set_conn (w : FrameWriter) (c : W) : FrameWriter :=
  {| conn := c; queue := queue w; queue_cap := queue_cap w;
     queue_closed := queue_closed w; batch := batch w; done := done w;
     closed := closed w; maxBatch := maxBatch w;
     maxBatchWait := maxBatchWait w; running := running w |}.

Definition set_queue (w : FrameWriter) (q : list Frame) : FrameWriter :=
  {| conn := conn w; queue := q; queue_cap := queue_cap w;
     queue_closed := queue_closed w; batch := batch w; done := done w;
     closed := closed w; maxBatch := maxBatch w;
     maxBatchWait := maxBatchWait w; running := running w |}.

Definition set_batch (w : FrameWriter) (b : list Frame) : FrameWriter :=
  {| conn := conn w; queue := queue w; queue_cap := queue_cap w;
     queue_closed := queue_closed w; batch := b; done := done w;
     closed := closed w; maxBatch := maxBatch w;
     maxBatchWait := maxBatchWait w; running := running w |}.

Definition set_running (w : FrameWriter) (r : bool) : FrameWriter :=
  {| conn := conn w; queue := queue w; queue_cap := queue_cap w;
     queue_closed := queue_closed w; batch := batch w; done := done w;
     closed := closed w; maxBatch := maxBatch w;
     maxBatchWait := maxBatchWait w; running := r |}.

(** The loop of [flushBatchLocked]: the error of [WriteFrame] is dropped. *)
Fixpoint flush_frames (c : W) (frames : list Frame) : W :=
  match frames with
  | [] => c
  | frame :: rest => flush_frames (fst (WriteFrame c frame)) rest
  end.

Definition flushBatchLocked (w : FrameWriter) : FrameWriter :=
  match batch w with
  | [] => w
  | _ => set_batch (set_conn w (flush_frames (conn w) (batch w))) []
  end.

Inductive submit_result :=
  | Returned (err : option error)
  | Panicked.

(** The cases of the [select] that can proceed are the send (on a queue with
    room, or on a closed queue, where it panics) and the receive on a closed
    [done]; [pick_done] is the choice between the two; with none of them the
    [default] case writes the frame to the connection. *)
Definition FrameWriter_WriteFrame (w : FrameWriter) (frame : Frame)
    (pick_done : bool) : submit_result * FrameWriter :=
  if closed w then (Returned (Some ErrWriterClosed), w)
  else
    let can_send := queue_closed w || (length (queue w) <? queue_cap w)%nat in
    if can_send && negb (done w && pick_done) then
      if queue_closed w then (Panicked, w)
      else (Returned None, set_queue w (queue w ++ [frame]))
    else if done w then (Returned (Some ErrWriterClosed), w)
    else
      let '(c, err) := WriteFrame (conn w) frame in
      (Returned err, set_conn w c).

(** [Close]; [None] is the panic of closing a closed channel. *)
Definition Close (w : FrameWriter) : option FrameWriter :=
  if closed w then Some w
  else if queue_closed w || done w then None
  else
    Some {| conn := conn w; queue := queue w; queue_cap := queue_cap w;
            queue_closed := true; batch := batch w; done := true;
            closed := true; maxBatch := maxBatch w;
            maxBatchWait := maxBatchWait w; running := running w |}.

Definition Flush (w : FrameWriter) : FrameWriter := flushBatchLocked w.

Inductive loop_case :=
  | RecvQueue
  | Tick
  | Done.

Definition writeLoop_step (w : FrameWriter) (c : loop_case) : FrameWriter :=
  if negb (running w) then w
  else
    match c with
    | RecvQueue =>
        match queue w with
        | frame :: rest =>
            let w := set_batch (set_queue w rest) (batch w ++ [frame]) in
            if maxBatch w <=? Z.of_nat (length (batch w))
            then flushBatchLocked w else w
        | [] =>
            if queue_closed w then set_running (flushBatchLocked w) false else w
        end
    | Tick =>
        if (0 <? length (batch w))%nat then flushBatchLocked w else w
    | Done =>
        if done w then set_running (flushBatchLocked w) false else w
    end.

End writer.

Arguments FrameWriter W : clear implicits.

End DirectWriter.

(** ** internal/shared/pool: the worker pool

    A job is a function of the caller, known by a number; [Wrapped id] is
    the function [SubmitWait] makes around job [id], which runs the job and
    closes the channel [done] of that call.  [started] records the
    goroutines started with [go job()], and [executed] the jobs the workers
    took from the queue and ran.  [None] as a result is the panic of a send
    on a closed channel. *)

Module Workers.

Inductive job :=
  | Job (id : nat)
  | Wrapped (id : nat).

Record WorkerPool := mkWorkerPool {
  workers : Z;
  jobQueue : list job;
  jobQueue_cap : Z;
  jobQueue_closed : bool;
  once : bool;
  closed : bool;
  started : list job;
  executed : list job
}.

Definition NewWorkerPool (workers_ queueSize : Z) : WorkerPool :=
  let workers_ := if workers_ <=? 0 then 50 else workers_ in
  let queueSize := if queueSize <=? 0 then 1000 else queueSize in
  {| workers := workers_; jobQueue := []; jobQueue_cap := queueSize;
     jobQueue_closed := false; once := false; closed := false;
     started := []; executed := [] |}.

(** One turn of the loop of [worker]: the first job of the queue is run. *)
Definition worker_step (p : WorkerPool) : WorkerPool :=
  match jobQueue p with
  | j :: rest =>
      {| workers := workers p; jobQueue := rest; jobQueue_cap := jobQueue_cap p;
         jobQueue_closed := jobQueue_closed p; once := once p; closed := closed p;
         started := started p; executed := executed p ++ [j] |}
  | [] => p
  end.

(** [Submit]; the job may be nil. *)
Definition Submit (p : WorkerPool) (j : option job) : option bool * WorkerPool :=
  match j with
  | None => (Some false, p)
  | Some j =>
      if closed p then (Some false, p)
      else if jobQueue_closed p then (None, p)
      else if Z.of_nat (length (jobQueue p)) <? jobQueue_cap p then
        (Some true,
         {| workers := workers p; jobQueue := jobQueue p ++ [j];
            jobQueue_cap := jobQueue_cap p; jobQueue_closed := false;
            once := once p; closed := closed p;
            started := started p; executed := executed p |})
      else
        (Some false,
         {| workers := workers p; jobQueue := jobQueue p;
            jobQueue_cap := jobQueue_cap p; jobQueue_closed := false;
            once := once p; closed := closed p;
            started := started p ++ [j]; executed := executed p |})
  end.

(** What a call of [SubmitWait] has done when [Submit] has returned: the
    pool, the jobs the caller has run itself, and whether the caller now
    waits for [done] to be closed. *)
Record submitted := mkSubmitted {
  pool_after : WorkerPool;
  ran_inline : list nat;
  waits : bool
}.

Definition SubmitWait (p : WorkerPool) (j : option nat) : option submitted :=
  match j with
  | None => Some {| pool_after := p; ran_inline := []; waits := false |}
  | Some id =>
      match Submit p (Some (Wrapped id)) with
      | (Some true, p') =>
          Some {| pool_after := p'; ran_inline := []; waits := true |}
      | (Some false, p') =>
          Some {| pool_after := p'; ran_inline := [id]; waits := false |}
      | (None, _) => None
      end
  end.

(** [Close], up to its wait for the workers. *)
Definition Close (p : WorkerPool) : WorkerPool :=
  if once p then p
  else
    {| workers := workers p; jobQueue := jobQueue p; jobQueue_cap := jobQueue_cap p;
       jobQueue_closed := true; once := true; closed := true;
       started := started p; executed := executed p |}.

Definition IsClosed (p : WorkerPool) : bool := closed p.

End Workers.

(** * Properties *)

(** ** Bytes: conversions and the big-endian round trip *)

Module BytesFacts.
Import Bytes.

Lemma byte_to_Z_range b : 0 <= byte_to_Z b < 256.
Proof.
  unfold byte_to_Z. pose proof (Byte.to_N_bounded b). lia.
Qed.

Lemma byte_to_of_Z z : byte_to_Z (byte_of_Z z) = z mod 256.
Proof.
  unfold byte_of_Z, byte_to_Z.
  assert (Hr : 0 <= z mod 256 < 256) by (apply Z.mod_pos_bound; lia).
  destruct (Byte.of_N (Z.to_N (z mod 256))) as [b|] eqn:E.
  - apply Byte.to_of_N in E. simpl. rewrite E. lia.
  - apply Byte.of_N_None_iff in E. lia.
Qed.

Lemma byte_of_to_Z b : byte_of_Z (byte_to_Z b) = b.
Proof.
  unfold byte_of_Z. pose proof (byte_to_Z_range b) as Hr.
  rewrite Z.mod_small by lia. unfold byte_to_Z.
  rewrite N2Z.id, Byte.of_to_N. reflexivity.
Qed.

Lemma testbit_byte z n :
  0 <= n -> Z.testbit (byte_to_Z (byte_of_Z z)) n = (n <? 8) && Z.testbit z n.
Proof.
  intros Hn. rewrite byte_to_of_Z. change 256 with (2 ^ 8).
  destruct (Z.ltb_spec n 8).
  - rewrite Z.mod_pow2_bits_low by lia. reflexivity.
  - rewrite Z.mod_pow2_bits_high by lia. reflexivity.
Qed.

Lemma Uint32_PutUint32 v :
  0 <= v < 2 ^ 32 ->
  match PutUint32 v with
  | [b0; b1; b2; b3] => Uint32 b0 b1 b2 b3 = v
  | _ => False
  end.
Proof.
  intros Hv. unfold PutUint32, Uint32.
  apply Z.bits_inj'. intros n Hn.
  rewrite !Z.lor_spec, !Z.shiftl_spec by lia.
  rewrite testbit_byte by lia.
  destruct (Z.ltb_spec n 8) as [H8|H8].
  { rewrite (Z.testbit_neg_r _ (n - 8)), (Z.testbit_neg_r _ (n - 16)),
      (Z.testbit_neg_r _ (n - 24)) by lia.
    simpl. rewrite !orb_false_r. reflexivity. }
  rewrite testbit_byte by lia. rewrite Z.shiftr_spec by lia.
  replace (n - 8 + 8) with n by lia.
  destruct (Z.ltb_spec (n - 8) 8) as [H16|H16].
  { rewrite (Z.testbit_neg_r _ (n - 16)), (Z.testbit_neg_r _ (n - 24)) by lia.
    simpl. rewrite !orb_false_r. reflexivity. }
  rewrite testbit_byte by lia. rewrite Z.shiftr_spec by lia.
  replace (n - 16 + 16) with n by lia.
  destruct (Z.ltb_spec (n - 16) 8) as [H24|H24].
  { rewrite (Z.testbit_neg_r _ (n - 24)) by lia.
    simpl. rewrite !orb_false_r. reflexivity. }
  rewrite testbit_byte by lia. rewrite Z.shiftr_spec by lia.
  replace (n - 24 + 24) with n by lia.
  destruct (Z.ltb_spec (n - 24) 8) as [H32|H32].
  { simpl. reflexivity. }
  simpl. symmetry. destruct (Z.eq_dec v 0) as [->|Hz].
  { apply Z.bits_0. }
  apply Z.bits_above_log2; [lia|].
  apply Z.log2_lt_pow2; [lia|].
  apply Z.lt_le_trans with (2 ^ 32); [lia|].
  apply Z.pow_le_mono_r; lia.
Qed.

End BytesFacts.

(** ** Protocol: the frame codec *)

Module ProtocolFacts.
Import Bytes BytesFacts Pool Protocol.

Lemma MaxFrameSize_lt_2_32 : MaxFrameSize < 2 ^ 32.
Proof. reflexivity. Qed.

Lemma ReadFull_app (front rest : list byte) (e : io_error) (n : Z) :
  n = Z.of_nat (length front) ->
  ReadFull {| rd_data := front ++ rest; rd_end := e |} n
  = (inr front, {| rd_data := rest; rd_end := e |}).
Proof.
  intros ->. unfold ReadFull. cbn [rd_data rd_end].
  rewrite length_app, Nat2Z.id.
  destruct (Z.leb_spec (Z.of_nat (length front))
              (Z.of_nat (length front + length rest))) as [_|Hlt]; [|lia].
  rewrite take_app_length, drop_app_length. reflexivity.
Qed.

Lemma ReadFull_short (r : Reader) (n : Z) :
  Z.of_nat (length (rd_data r)) < n ->
  exists e, ReadFull r n = (inl e, {| rd_data := []; rd_end := rd_end r |}).
Proof.
  intros Hlt. unfold ReadFull.
  destruct (Z.leb_spec n (Z.of_nat (length (rd_data r)))); [lia|].
  eexists. reflexivity.
Qed.

Lemma ReadFull_enough (r : Reader) (n : Z) :
  0 <= n <= Z.of_nat (length (rd_data r)) ->
  exists front rest,
    rd_data r = front ++ rest /\ Z.of_nat (length front) = n /\
    ReadFull r n = (inr front, {| rd_data := rest; rd_end := rd_end r |}).
Proof.
  intros Hn. exists (take (Z.to_nat n) (rd_data r)), (drop (Z.to_nat n) (rd_data r)).
  split; [symmetry; apply take_drop|]. split.
  - rewrite length_take. lia.
  - unfold ReadFull.
    destruct (Z.leb_spec n (Z.of_nat (length (rd_data r)))); [reflexivity|lia].
Qed.

(** On a sink that never fails, [WriteFrame] appends the frame's encoding. *)
Lemma WriteFrame_buffer (sink : list byte) (frame : Frame) :
  Z.of_nat (length (Payload frame)) <= MaxFrameSize ->
  WriteFrame sink frame = (sink ++ encode (Type_ frame) (Payload frame), None).
Proof.
  intros Hle. unfold WriteFrame, encode.
  destruct (Z.ltb_spec MaxFrameSize (Z.of_nat (length (Payload frame)))); [lia|].
  unfold Write, buffer_Writer.
  destruct (Z.ltb_spec 0 (Z.of_nat (length (Payload frame)))) as [Hpos|Hz].
  - rewrite <- !app_assoc. reflexivity.
  - destruct (Payload frame) as [|b l]; [|simpl in Hz; lia].
    rewrite <- !app_assoc. reflexivity.
Qed.

(** A payload over the limit: no call of [Write], whatever the sink. *)
Lemma WriteFrame_too_large {W} `{Writer W} (w : W) (frame : Frame) :
  MaxFrameSize < Z.of_nat (length (Payload frame)) ->
  WriteFrame w frame
  = (w, Some (ErrPayloadTooLarge (Z.of_nat (length (Payload frame))))).
Proof.
  intros Hgt. unfold WriteFrame.
  destruct (Z.ltb_spec MaxFrameSize (Z.of_nat (length (Payload frame)))); [|lia].
  reflexivity.
Qed.

(** What [ReadFrame] leaves in memory after a frame with payload length [n]
    was read in full. *)
Definition mem_after_read (n : Z) (m : Mem) : Mem :=
  if 0 <? n then
    if SizeLarge <? n then make n (make FrameHeaderSize m)
    else {| pool := snd (GetBuffer (pool m) n); made := FrameHeaderSize :: made m |}
  else make FrameHeaderSize m.

Definition handle_after_read (n : Z) (m : Mem) : option buffer :=
  if 0 <? n then
    if SizeLarge <? n then None else Some (fst (GetBuffer (pool m) n))
  else None.

Lemma ReadFull_header (b0 b1 b2 b3 b4 : byte) (rest : list byte)
    (e : io_error) :
  ReadFull {| rd_data := b0 :: b1 :: b2 :: b3 :: b4 :: rest; rd_end := e |}
    FrameHeaderSize
  = (inr [b0; b1; b2; b3; b4], {| rd_data := rest; rd_end := e |}).
Proof.
  apply (ReadFull_app [b0; b1; b2; b3; b4] rest e). reflexivity.
Qed.

Lemma ReadFrame_encode (t : FrameType) (p rest : list byte) (e : io_error)
    (m : Mem) :
  Z.of_nat (length p) <= MaxFrameSize ->
  ReadFrame {| rd_data := encode t p ++ rest; rd_end := e |} m
  = (inr {| Type_ := t; Payload := p;
            poolBuffer := handle_after_read (Z.of_nat (length p)) m |},
     {| rd_data := rest; rd_end := e |},
     mem_after_read (Z.of_nat (length p)) m).
Proof.
  intros Hle. pose proof MaxFrameSize_lt_2_32 as Hmax.
  set (n := Z.of_nat (length p)) in *.
  assert (Hn : 0 <= n < 2 ^ 32) by lia.
  pose proof (Uint32_PutUint32 n Hn) as Hu.
  unfold encode. fold n. unfold uint32. rewrite Z.mod_small by lia.
  unfold PutUint32 in *. cbn [app].
  unfold ReadFrame. rewrite ReadFull_header. cbn [nth]. rewrite Hu.
  unfold mem_after_read, handle_after_read.
  destruct (Z.ltb_spec MaxFrameSize n); [lia|].
  destruct (Z.ltb_spec 0 n) as [Hpos|Hz].
  - destruct (Z.ltb_spec SizeLarge n).
    + rewrite (ReadFull_app p rest e n) by reflexivity. reflexivity.
    + cbn [pool make].
      destruct (GetBuffer (pool m) n) as [poolBuf q].
      rewrite (ReadFull_app p rest e n) by reflexivity. reflexivity.
  - assert (p = []) as -> by (destruct p; [reflexivity|simpl in n; lia]).
    reflexivity.
Qed.

(** C1.  Frame codec round trip.  For every frame type [t] and payload [p]
    of at most 10 MiB, [WriteFrame] on an empty sink succeeds, and
    [ReadFrame] on the bytes of that sink (whatever follows them in the
    stream) returns a frame with type [t] and payload [p], leaving what
    follows unread.  For every payload over 10 MiB, [WriteFrame] returns an
    error and leaves the sink as it was, for every kind of sink: no call of
    [Write] is made. *)
Theorem frame_round_trip (t : FrameType) (p : list byte) (h : option buffer) :
  (Z.of_nat (length p) <= MaxFrameSize ->
   exists sink : list byte,
     WriteFrame [] {| Type_ := t; Payload := p; poolBuffer := h |} = (sink, None) /\
     forall (rest : list byte) (e : io_error) (m : Mem),
     exists f m',
       ReadFrame {| rd_data := sink ++ rest; rd_end := e |} m
       = (inr f, {| rd_data := rest; rd_end := e |}, m') /\
       Type_ f = t /\ Payload f = p) /\
  (MaxFrameSize < Z.of_nat (length p) ->
   forall (W : Type) (HW : Writer W) (w : W),
   exists err,
     WriteFrame w {| Type_ := t; Payload := p; poolBuffer := h |} = (w, Some err) /\
     forall log : list (list byte),
       WriteFrame (w, log) {| Type_ := t; Payload := p; poolBuffer := h |}
       = ((w, log), Some err)).
Proof.
  split.
  - intros Hle. exists (encode t p). split.
    + apply (WriteFrame_buffer [] {| Type_ := t; Payload := p; poolBuffer := h |} Hle).
    + intros rest e m. eexists _, _. split; [apply ReadFrame_encode, Hle|].
      split; reflexivity.
  - intros Hgt W HW w. eexists. split.
    + apply (WriteFrame_too_large w {| Type_ := t; Payload := p; poolBuffer := h |} Hgt).
    + intros log.
      apply (WriteFrame_too_large (w, log)
               {| Type_ := t; Payload := p; poolBuffer := h |} Hgt).
Qed.

Lemma frame_round_trip_witness :
  (exists sink : list byte,
     WriteFrame [] {| Type_ := FrameTypeData; Payload := [x68; x69];
                      poolBuffer := None |} = (sink, None) /\
     exists f m',
       ReadFrame {| rd_data := sink ++ [x00; x00]; rd_end := EOF |}
         {| pool := NewBufferPool; made := [] |}
       = (inr f, {| rd_data := [x00; x00]; rd_end := EOF |}, m') /\
       Type_ f = FrameTypeData /\ Payload f = [x68; x69]) /\
  (exists err,
     WriteFrame [x01] {| Type_ := FrameTypeData;
                         Payload := repeat x00 (Z.to_nat 10485761);
                         poolBuffer := None |} = ([x01], Some err)).
Proof.
  split.
  - destruct (frame_round_trip FrameTypeData [x68; x69] None) as [Hsmall _].
    destruct Hsmall as (sink & Hw & Hr); [vm_compute; discriminate|].
    exists sink. split; [exact Hw|].
    exact (Hr [x00; x00] EOF {| pool := NewBufferPool; made := [] |}).
  - destruct (frame_round_trip FrameTypeData (repeat x00 (Z.to_nat 10485761)) None)
      as [_ Hbig].
    destruct (Hbig ltac:(rewrite repeat_length, Z2Nat.id by lia; reflexivity)
                (list byte) buffer_Writer [x01]) as (err & Hw & _).
    exists err. exact Hw.
Defined.

(** The length the first four bytes of a stream declare. *)
Definition declared_length (data : list byte) : Z :=
  Uint32 (nth 0 data x00) (nth 1 data x00) (nth 2 data x00) (nth 3 data x00).

Lemma Uint32_nonneg b0 b1 b2 b3 : 0 <= Uint32 b0 b1 b2 b3.
Proof.
  unfold Uint32.
  pose proof (byte_to_Z_range b0). pose proof (byte_to_Z_range b1).
  pose proof (byte_to_Z_range b2). pose proof (byte_to_Z_range b3).
  repeat (apply Z.lor_nonneg; split); try apply Z.shiftl_nonneg; lia.
Qed.

Lemma at_least_five (data : list byte) :
  5 <= Z.of_nat (length data) ->
  exists b0 b1 b2 b3 b4 rest, data = b0 :: b1 :: b2 :: b3 :: b4 :: rest.
Proof.
  intros H.
  destruct data as [|b0 [|b1 [|b2 [|b3 [|b4 rest]]]]]; simpl in H; try lia.
  eauto 7.
Qed.

(** C7.  Length-prefix discipline of the decoder.  On success [ReadFrame]
    has consumed the 5 header bytes and the payload, which has the declared
    length, and nothing more.  It fails on a stream of fewer than 5 bytes,
    and on a stream that holds fewer payload bytes than the header declares.
    When the header declares more than 10 MiB it fails having consumed the 5
    header bytes only, the pool untouched and no slice made but the header's. *)
Theorem ReadFrame_length_prefix (r : Reader) (m : Mem)
    (res : error + Frame) (r' : Reader) (m' : Mem) :
  ReadFrame r m = (res, r', m') ->
  let avail := Z.of_nat (length (rd_data r)) in
  let n := declared_length (rd_data r) in
  (forall f, res = inr f ->
     rd_data r = take 5 (rd_data r) ++ Payload f ++ rd_data r' /\
     Z.of_nat (length (Payload f)) = n /\
     avail - Z.of_nat (length (rd_data r')) = 5 + n) /\
  (avail < 5 -> exists e, res = inl (ErrReadHeader e)) /\
  (5 <= avail -> n <= MaxFrameSize -> avail - 5 < n ->
     exists e, res = inl (ErrReadPayload e)) /\
  (5 <= avail -> MaxFrameSize < n ->
     res = inl (ErrPayloadTooLarge n) /\
     rd_data r' = drop 5 (rd_data r) /\
     pool m' = pool m /\ made m' = FrameHeaderSize :: made m).
Proof.
  intros Hrun avail n.
  destruct (Z.lt_ge_cases avail 5) as [Hshort|Hfive].
  - (* no full header *)
    destruct (ReadFull_short r FrameHeaderSize Hshort) as [e He].
    unfold ReadFrame in Hrun. rewrite He in Hrun. inversion Hrun; subst.
    refine (conj _ (conj _ (conj _ _))).
    + intros f Hf. discriminate Hf.
    + intros _. eauto.
    + intros; lia.
    + intros; lia.
  - destruct (at_least_five _ Hfive) as (b0 & b1 & b2 & b3 & b4 & rest & Hdata).
    destruct r as [data e]. cbn [rd_data] in *. subst data.
    assert (Hav : avail = 5 + Z.of_nat (length rest))
      by (unfold avail; cbn [length]; lia).
    unfold declared_length in n. cbn [nth] in n.
    pose proof (Uint32_nonneg b0 b1 b2 b3) as Hnn. fold n in Hnn.
    unfold ReadFrame in Hrun. rewrite ReadFull_header in Hrun.
    cbn [nth] in Hrun. fold n in Hrun.
    destruct (Z.ltb_spec MaxFrameSize n) as [Hbig|Hok].
    { inversion Hrun; subst. cbn [rd_data pool made make].
      refine (conj _ (conj _ (conj _ _))).
      - intros f Hf. discriminate Hf.
      - intros; lia.
      - intros; lia.
      - intros _ _. repeat split. }
    destruct (Z.ltb_spec 0 n) as [Hpos|Hzero].
    + destruct (Z.le_gt_cases n (Z.of_nat (length rest))) as [Hen|Hfew].
      * (* the payload is there *)
        destruct (ReadFull_enough {| rd_data := rest; rd_end := e |} n)
          as (front & back & Hsplit & Hlen & Hread); [cbn [rd_data]; lia|].
        cbn [rd_data rd_end] in Hsplit, Hread.
        assert (Hgoal : forall f, res = inr f -> Payload f = front /\ rd_data r' = back).
        { destruct (Z.ltb_spec SizeLarge n).
          - rewrite Hread in Hrun. inversion Hrun; subst.
            intros f [= <-]. split; reflexivity.
          - destruct (GetBuffer (pool (make FrameHeaderSize m)) n) as [poolBuf q].
            rewrite Hread in Hrun. inversion Hrun; subst.
            intros f [= <-]. split; reflexivity. }
        refine (conj _ (conj _ (conj _ _))).
        -- intros f Hf. destruct (Hgoal f Hf) as [-> ->].
           split; [rewrite Hsplit; reflexivity|].
           split; [exact Hlen|].
           subst rest. rewrite Hav, length_app. lia.
        -- intros; lia.
        -- intros; lia.
        -- intros; lia.
      * (* the payload is cut short *)
        destruct (ReadFull_short {| rd_data := rest; rd_end := e |} n)
          as [e' He']; [cbn [rd_data]; lia|].
        assert (Hres : res = inl (ErrReadPayload e')).
        { destruct (Z.ltb_spec SizeLarge n).
          - rewrite He' in Hrun. inversion Hrun; subst. reflexivity.
          - destruct (GetBuffer (pool (make FrameHeaderSize m)) n) as [poolBuf q].
            rewrite He' in Hrun. inversion Hrun; subst. reflexivity. }
        subst res.
        refine (conj _ (conj _ (conj _ _))).
        -- intros f Hf. discriminate Hf.
        -- intros; lia.
        -- intros _ _ _. eauto.
        -- intros; lia.
    + (* an empty payload *)
      inversion Hrun; subst. cbn [rd_data].
      refine (conj _ (conj _ (conj _ _))).
      * intros f [= <-]. cbn [Payload length app].
        split; [reflexivity|]. split; lia.
      * intros; lia.
      * intros; lia.
      * intros; lia.
Qed.

Lemma ReadFrame_length_prefix_witness :
  (Z.of_nat (length [x00; x00; x00; x02; x05; x68; x69; x01])
   - Z.of_nat (length [x01])
   = 5 + declared_length [x00; x00; x00; x02; x05; x68; x69; x01]) /\
  (fst (fst (ReadFrame {| rd_data := [x00; xc0; x00; x00; x05; x68];
                          rd_end := EOF |}
                       {| pool := NewBufferPool; made := [] |}))
   = inl (ErrPayloadTooLarge (declared_length [x00; xc0; x00; x00; x05; x68]))).
Proof.
  split.
  - pose proof (ReadFrame_length_prefix
                  {| rd_data := [x00; x00; x00; x02; x05; x68; x69; x01];
                     rd_end := EOF |}
                  {| pool := NewBufferPool; made := [] |}
                  _ _ _ eq_refl) as (Hok & _).
    exact (proj2 (proj2 (Hok _ eq_refl))).
  - pose proof (ReadFrame_length_prefix
                  {| rd_data := [x00; xc0; x00; x00; x05; x68];
                     rd_end := EOF |}
                  {| pool := NewBufferPool; made := [] |}
                  _ _ _ eq_refl) as (_ & _ & _ & Hbig).
    refine (proj1 (Hbig _ _)); vm_compute; congruence.
Defined.

(** [Put] adds a buffer to at most one free list. *)
Lemma occurrences_Put (b : buffer) (p : BufferPool) :
  (occurrences b (Put p (Some b)) <= S (occurrences b p))%nat.
Proof.
  unfold Put, occurrences.
  destruct (buf_cap b =? SizeSmall); [|destruct (buf_cap b =? SizeMedium);
    [|destruct (buf_cap b =? SizeLarge)]];
    cbn [small medium large]; rewrite ?filter_app, ?length_app, ?filter_cons;
    repeat case_decide; cbn [length]; rewrite ?filter_app, ?length_app; lia.
Qed.

Lemma Release_n_released (n : nat) (f : Frame) (p : BufferPool) :
  poolBuffer f = None -> Release_n n f p = (f, p).
Proof.
  intros Hnil. induction n as [|n IH]; [reflexivity|].
  cbn [Release_n]. unfold Release at 1. rewrite Hnil. exact IH.
Qed.

(** C10, as amended.  [Release] is idempotent: called once or more, it
    leaves the frame and the pool as one call does; the pool is the one
    [PutBuffer] gives on the frame's handle, so the buffer enters the pool
    at most once; after it the frame's pool handle is nil.  The payload
    is nil afterwards when the frame held a pool handle; a frame without
    one is left as it was, payload included. *)
Theorem Release_at_most_once (f : Frame) (p : BufferPool) (n : nat) :
  (1 <= n)%nat ->
  Release_n n f p = Release f p /\
  snd (Release f p) = PutBuffer p (poolBuffer f) /\
  (forall b, poolBuffer f = Some b ->
     (occurrences b (snd (Release_n n f p)) <= S (occurrences b p))%nat) /\
  poolBuffer (fst (Release f p)) = None /\
  (poolBuffer f <> None -> Payload (fst (Release f p)) = []) /\
  (poolBuffer f = None -> Release f p = (f, p)).
Proof.
  intros Hn. destruct n as [|n]; [lia|].
  assert (Hsame : Release_n (S n) f p = Release f p).
  { cbn [Release_n]. destruct (Release f p) as [f1 p1] eqn:Hrel.
    apply Release_n_released. unfold Release in Hrel.
    destruct (poolBuffer f) eqn:Hh; inversion Hrel; subst; [reflexivity|exact Hh]. }
  split; [exact Hsame|]. rewrite Hsame. unfold Release.
  destruct (poolBuffer f) as [b|] eqn:Hh; cbn [fst snd poolBuffer Payload].
  - repeat split; try congruence.
    intros b' [= <-]. apply occurrences_Put.
  - repeat split; congruence.
Qed.

Lemma Release_at_most_once_witness :
  Release_n 2 {| Type_ := FrameTypeData; Payload := [x68; x69];
                 poolBuffer := Some (Buffer 0 SizeSmall) |} NewBufferPool
  = Release {| Type_ := FrameTypeData; Payload := [x68; x69];
               poolBuffer := Some (Buffer 0 SizeSmall) |} NewBufferPool.
Proof.
  refine (proj1 (Release_at_most_once _ _ 2 _)). lia.
Defined.

Lemma ReadFrame_encode_all (t : FrameType) (p : list byte) (e : io_error)
    (m : Mem) :
  Z.of_nat (length p) <= MaxFrameSize ->
  ReadFrame {| rd_data := encode t p; rd_end := e |} m
  = (inr {| Type_ := t; Payload := p;
            poolBuffer := handle_after_read (Z.of_nat (length p)) m |},
     {| rd_data := []; rd_end := e |},
     mem_after_read (Z.of_nat (length p)) m).
Proof.
  intros Hle. rewrite <- (app_nil_r (encode t p)). apply ReadFrame_encode, Hle.
Qed.

Lemma large_frame_unpooled (n : Z) (m : Mem) :
  SizeLarge < n -> handle_after_read n m = None.
Proof.
  intros Hn. unfold handle_after_read.
  destruct (Z.ltb_spec 0 n); [|reflexivity].
  destruct (Z.ltb_spec SizeLarge n); [reflexivity|lia].
Qed.

(** C10 as stated fails on a decoded frame of more than 256 KiB: it has no
    pool handle, and [Release] leaves its payload in place. *)
Lemma Release_keeps_large_payload :
  exists f r' m',
    ReadFrame {| rd_data := encode FrameTypeData (repeat x00 (Z.to_nat 262145));
                 rd_end := EOF |}
              {| pool := NewBufferPool; made := [] |}
    = (inr f, r', m') /\
    Payload (fst (Release f (pool m'))) <> [].
Proof.
  assert (Hlen : Z.of_nat (length (repeat x00 (Z.to_nat 262145))) = 262145).
  { rewrite repeat_length. rewrite Z2Nat.id by lia. reflexivity. }
  pose proof (ReadFrame_encode_all FrameTypeData (repeat x00 (Z.to_nat 262145)) EOF
                {| pool := NewBufferPool; made := [] |}) as Hread.
  rewrite Hlen in Hread.
  rewrite large_frame_unpooled in Hread by reflexivity.
  eexists _, _, _. split.
  - apply Hread. discriminate.
  - unfold Release. cbn [poolBuffer fst Payload].
    intros Hnil. apply (f_equal (fun l => Z.of_nat (length l))) in Hnil.
    rewrite Hlen in Hnil. discriminate Hnil.
Qed.

End ProtocolFacts.

(** ** Utils: identifiers and subdomains *)

Module UtilsFacts.
Import Bytes BytesFacts Utils.

Local Open Scope string_scope.

Lemma hextable_isHexChar (i : Z) :
  0 <= i < 16 -> isHexChar (char_at hextable i) = true.
Proof.
  intros Hi.
  assert (Hcases : i = 0 \/ i = 1 \/ i = 2 \/ i = 3 \/ i = 4 \/ i = 5 \/ i = 6 \/
                   i = 7 \/ i = 8 \/ i = 9 \/ i = 10 \/ i = 11 \/ i = 12 \/
                   i = 13 \/ i = 14 \/ i = 15) by lia.
  repeat (destruct Hcases as [-> | Hcases]; [reflexivity|]).
  subst i. reflexivity.
Qed.

Lemma high_nibble_range (v : byte) : 0 <= Z.shiftr (byte_to_Z v) 4 < 16.
Proof.
  pose proof (byte_to_Z_range v) as Hv.
  rewrite Z.shiftr_div_pow2 by lia. change (2 ^ 4) with 16.
  split; [apply Z.div_pos; lia | apply Z.div_lt_upper_bound; lia].
Qed.

Lemma low_nibble_range (v : byte) : 0 <= Z.land (byte_to_Z v) 15 < 16.
Proof.
  change 15 with (Z.ones 4). rewrite Z.land_ones by lia.
  apply Z.mod_pos_bound. reflexivity.
Qed.

Lemma EncodeToString_length (src : list byte) :
  String.length (EncodeToString src) = (2 * length src)%nat.
Proof.
  induction src as [|v rest IH]; [reflexivity|].
  cbn [EncodeToString String.length length]. rewrite IH. lia.
Qed.

Lemma EncodeToString_hex (src : list byte) :
  all_chars isHexChar (EncodeToString src) = true.
Proof.
  induction src as [|v rest IH]; [reflexivity|].
  cbn [EncodeToString all_chars].
  rewrite (hextable_isHexChar _ (high_nibble_range v)).
  rewrite (hextable_isHexChar _ (low_nibble_range v)).
  exact IH.
Qed.

Lemma list_byte_of_string_length (s : string) :
  length (list_byte_of_string s) = String.length s.
Proof.
  unfold list_byte_of_string. rewrite length_map.
  induction s as [|c s IH]; [reflexivity|].
  cbn [list_ascii_of_string String.length length]. rewrite IH. reflexivity.
Qed.

(** When the random source fails, the ID is the hexadecimal form of the
    time string, twice as long as that string. *)
Lemma GenerateID_fallback_length (src : CryptoRand) (timeNowString : string) :
  rand_fails src = true ->
  String.length (GenerateID src timeNowString)
  = (2 * String.length timeNowString)%nat.
Proof.
  intros Hfail. unfold GenerateID, rand_Read. rewrite Hfail.
  unfold generateFallbackID.
  rewrite EncodeToString_length, list_byte_of_string_length. reflexivity.
Qed.

(** C8 as stated fails: with the random source failing and the time string
    of a Go clock, [GenerateID] returns 88 hexadecimal characters, not 32. *)
Lemma GenerateID_fallback_not_32 :
  String.length
    (GenerateID {| rand_fails := true; rand_bytes := fun _ => x00 |}
       "2009-11-10 23:00:00 +0000 UTC m=+0.000000001") = 88%nat /\
  GenerateID {| rand_fails := true; rand_bytes := fun _ => x00 |}
    "2009-11-10 23:00:00 +0000 UTC m=+0.000000001"
  = "323030392d31312d31302032333a30303a3030202b3030303020555443206d3d2b302e303030303030303031".
Proof. split; vm_compute; reflexivity. Qed.

(** C8, as amended.  [GenerateID] returns lower-case hexadecimal characters
    only, on both paths.  When the random source delivers, the ID is the
    encoding of the 16 bytes read, 32 characters.  When it fails, the ID is
    the encoding of the time string, two characters for each of its bytes:
    32 characters for a time string of 16 bytes and for no other. *)
Theorem GenerateID_format (src : CryptoRand) (timeNowString : string) :
  all_chars isHexChar (GenerateID src timeNowString) = true /\
  (rand_fails src = false ->
   GenerateID src timeNowString
   = EncodeToString (map (rand_bytes src) (seq 0 16)) /\
   String.length (GenerateID src timeNowString) = 32%nat) /\
  (rand_fails src = true ->
   GenerateID src timeNowString
   = EncodeToString (list_byte_of_string timeNowString) /\
   String.length (GenerateID src timeNowString)
   = (2 * String.length timeNowString)%nat /\
   (String.length (GenerateID src timeNowString) = 32%nat <->
    String.length timeNowString = 16%nat)).
Proof.
  split; [|split].
  - unfold GenerateID, rand_Read, generateFallbackID.
    destruct (rand_fails src); apply EncodeToString_hex.
  - intros Hok. unfold GenerateID, rand_Read. rewrite Hok.
    split; [reflexivity|].
    rewrite EncodeToString_length, length_map, length_seq. reflexivity.
  - intros Hfail.
    pose proof (GenerateID_fallback_length src timeNowString Hfail) as Hlen.
    split; [|split; [exact Hlen|rewrite Hlen; lia]].
    unfold GenerateID, rand_Read. rewrite Hfail. reflexivity.
Qed.

End UtilsFacts.

(** ** Utils: what the regular expression of a subdomain accepts *)

Module RegexFacts.
Import Utils UtilsFacts.

Lemma some_split_from_spec {A} (f : list A -> list A -> bool) (s : list A)
    (n i : nat) :
  some_split_from f s i n = true <->
  exists j, (i <= j <= i + n)%nat /\ f (take j s) (drop j s) = true.
Proof.
  revert i. induction n as [|n IH]; intros i; cbn [some_split_from].
  - destruct (f (take i s) (drop i s)) eqn:E.
    + split; [intros _; exists i; split; [lia|exact E] | reflexivity].
    + split; [discriminate|]. intros (j & Hj & Hf).
      assert (j = i) as -> by lia. congruence.
  - destruct (f (take i s) (drop i s)) eqn:E.
    + split; [intros _; exists i; split; [lia|exact E] | reflexivity].
    + rewrite IH. split.
      * intros (j & Hj & Hf). exists j. split; [lia|exact Hf].
      * intros (j & Hj & Hf). exists j. split; [|exact Hf].
        destruct (decide (j = i)) as [->|]; [congruence|lia].
Qed.

Lemma some_split_spec {A} (f : list A -> list A -> bool) (s : list A) :
  some_split f s = true <->
  exists front back, s = front ++ back /\ f front back = true.
Proof.
  unfold some_split. rewrite some_split_from_spec. split.
  - intros (j & _ & Hf). exists (take j s), (drop j s).
    split; [symmetry; apply take_drop|exact Hf].
  - intros (front & back & -> & Hf). exists (length front).
    rewrite take_app_length, drop_app_length, length_app.
    split; [lia|exact Hf].
Qed.

Lemma matches_Class (ranges : list (ascii * ascii)) (s : list ascii) :
  matches (Class ranges) s = true <->
  exists c, s = [c] /\ in_class ranges c = true.
Proof.
  cbn [matches]. destruct s as [|c [|d s]].
  - split; [discriminate|]. intros (c & Hs & _). discriminate.
  - split; [intros Hc; exists c; auto|]. intros (c' & [= <-] & Hc). exact Hc.
  - split; [discriminate|]. intros (c' & Hs & _). discriminate.
Qed.

(** A bounded repetition of a character class: between [lo] and [hi]
    characters, all of the class. *)
Lemma repeat_matches_Class (ranges : list (ascii * ascii)) (hi lo : nat)
    (s : list ascii) :
  repeat_matches (matches (Class ranges)) lo hi s = true <->
  (lo <= length s <= hi)%nat /\ forallb (in_class ranges) s = true.
Proof.
  revert lo s. induction hi as [|hi IH]; intros lo s; cbn [repeat_matches].
  - destruct (Nat.eqb_spec lo 0) as [->|Hlo].
    + destruct s as [|c s]; cbn [is_nil length forallb].
      * split; [intros _; split; [lia|reflexivity] | reflexivity].
      * split; [discriminate|]. intros [Hl _]. lia.
    + split; [discriminate|]. intros [Hl _]. lia.
  - assert (Hsplit :
      some_split
        (fun front back =>
           if matches (Class ranges) front
           then repeat_matches (matches (Class ranges)) (pred lo) hi back
           else false) s = true <->
      exists c back, s = c :: back /\ in_class ranges c = true /\
        (pred lo <= length back <= hi)%nat /\
        forallb (in_class ranges) back = true).
    { rewrite some_split_spec. split.
      - intros (front & back & -> & Hf).
        destruct (matches (Class ranges) front) eqn:Hm; [|discriminate].
        apply (proj1 (matches_Class ranges front)) in Hm as (c & -> & Hc).
        apply IH in Hf.
        exists c, back. split; [reflexivity|]. split; [exact Hc|exact Hf].
      - intros (c & back & -> & Hc & Hb). exists [c], back.
        split; [reflexivity|].
        rewrite (proj2 (matches_Class ranges [c])) by eauto.
        apply IH. exact Hb. }
    destruct (if (lo =? 0)%nat then is_nil s else false) eqn:Hfirst.
    + split; [|reflexivity]. intros _.
      destruct (Nat.eqb_spec lo 0) as [->|]; [|discriminate].
      destruct s; [|discriminate]. cbn. split; [lia|reflexivity].
    + rewrite Hsplit. split.
      * intros (c & back & -> & Hc & Hl & Hall). cbn [length forallb].
        rewrite Hc, Hall. split; [lia|reflexivity].
      * intros [Hl Hall]. destruct s as [|c back].
        -- destruct (Nat.eqb_spec lo 0); [discriminate|]. cbn in Hl. lia.
        -- cbn [forallb length] in *. apply andb_true_iff in Hall as [Hc Hall].
           exists c, back. repeat split; try assumption; lia.
Qed.

(** The characters of a label: a lower-case letter or a digit, and inside
    the label also a hyphen. *)
Definition is_alnum (c : ascii) : bool :=
  let n := nat_of_ascii c in
  ((97 <=? n)%nat && (n <=? 122)%nat) || ((48 <=? n)%nat && (n <=? 57)%nat).

Definition is_alnum_dash (c : ascii) : bool :=
  is_alnum c || (nat_of_ascii c =? 45)%nat.

Lemma in_class_alnum (c : ascii) : in_class alnum c = is_alnum c.
Proof.
  unfold in_class, alnum, is_alnum. cbn [existsb]. rewrite orb_false_r.
  reflexivity.
Qed.

Lemma in_class_alnum_dash (c : ascii) : in_class alnum_dash c = is_alnum_dash c.
Proof.
  unfold in_class, alnum_dash, is_alnum_dash, is_alnum. cbn [existsb].
  rewrite orb_false_r, <- orb_assoc. f_equal. f_equal.
  change (nat_of_ascii "-") with 45%nat.
  destruct (Nat.eqb_spec (nat_of_ascii c) 45) as [->|Hne]; [reflexivity|].
  destruct (Nat.leb_spec 45 (nat_of_ascii c));
    destruct (Nat.leb_spec (nat_of_ascii c) 45); try reflexivity; lia.
Qed.

Lemma forallb_ext_eq {A} (f g : A -> bool) (l : list A) :
  (forall x, f x = g x) -> forallb f l = forallb g l.
Proof.
  intros Hfg. induction l as [|x l IH]; [reflexivity|].
  cbn [forallb]. rewrite Hfg, IH. reflexivity.
Qed.

Lemma list_ascii_of_string_length (s : string) :
  length (list_ascii_of_string s) = String.length s.
Proof.
  induction s as [|c s IH]; [reflexivity|].
  cbn [list_ascii_of_string String.length length]. rewrite IH. reflexivity.
Qed.

Lemma matches_Concat (r1 r2 : regex) (s : list ascii) :
  matches (Concat r1 r2) s
  = some_split (fun front back =>
                  if matches r1 front then matches r2 back else false) s.
Proof. reflexivity. Qed.

Lemma matches_Repeat (r : regex) (lo hi : nat) (s : list ascii) :
  matches (Repeat r lo hi) s = repeat_matches (matches r) lo hi s.
Proof. reflexivity. Qed.

Lemma MatchString_subdomainRegex (s : string) :
  MatchString subdomainRegex s = true <->
  exists a mid b,
    list_ascii_of_string s = a :: mid ++ [b] /\
    is_alnum a = true /\ is_alnum b = true /\
    forallb is_alnum_dash mid = true /\ (1 <= length mid <= 61)%nat.
Proof.
  unfold MatchString, subdomainRegex. rewrite matches_Concat.
  rewrite some_split_spec. split.
  - intros (front & back & Hs & Hf).
    destruct (matches (Class alnum) front) eqn:Hm; [|discriminate].
    apply (proj1 (matches_Class alnum front)) in Hm as (a & -> & Ha).
    rewrite matches_Concat in Hf.
    apply (proj1 (some_split_spec _ back)) in Hf as (mid & last & -> & Hf).
    rewrite matches_Repeat in Hf.
    destruct (repeat_matches (matches (Class alnum_dash)) 1 61 mid) eqn:Hr;
      [|discriminate].
    apply (proj1 (repeat_matches_Class alnum_dash 61 1 mid)) in Hr as [Hl Hall].
    apply (proj1 (matches_Class alnum last)) in Hf as (b & -> & Hb).
    exists a, mid, b. rewrite in_class_alnum in Ha, Hb.
    rewrite (forallb_ext_eq _ _ _ in_class_alnum_dash) in Hall.
    repeat split; try assumption; lia.
  - intros (a & mid & b & Hs & Ha & Hb & Hall & Hl).
    exists [a], (mid ++ [b]). split; [exact Hs|].
    rewrite (proj2 (matches_Class alnum [a]))
      by (exists a; rewrite in_class_alnum; auto).
    rewrite matches_Concat. apply some_split_spec.
    exists mid, [b]. split; [reflexivity|]. rewrite matches_Repeat.
    rewrite (proj2 (repeat_matches_Class alnum_dash 61 1 mid))
      by (rewrite (forallb_ext_eq _ _ _ in_class_alnum_dash); auto).
    apply (matches_Class alnum). exists b. rewrite in_class_alnum. auto.
Qed.

(** What [ValidateSubdomain] accepts: the strings of 3 to 63 characters that
    begin and end with a lower-case letter or a digit and have only such
    characters and hyphens in between. *)
Theorem ValidateSubdomain_spec (s : string) :
  ValidateSubdomain s = true <->
  exists a mid b,
    list_ascii_of_string s = a :: mid ++ [b] /\
    is_alnum a = true /\ is_alnum b = true /\
    forallb is_alnum_dash mid = true /\
    (3 <= String.length s <= 63)%nat.
Proof.
  unfold ValidateSubdomain.
  destruct ((String.length s <? 3)%nat || (63 <? String.length s)%nat)%bool eqn:Hlen.
  - split; [discriminate|]. intros (a & mid & b & _ & _ & _ & _ & Hl).
    apply orb_true_iff in Hlen as [Hlt|Hgt];
      [apply Nat.ltb_lt in Hlt | apply Nat.ltb_lt in Hgt]; lia.
  - apply orb_false_iff in Hlen as [Hlt Hgt].
    apply Nat.ltb_ge in Hlt, Hgt.
    rewrite MatchString_subdomainRegex. split.
    + intros (a & mid & b & Hs & Ha & Hb & Hall & Hl).
      exists a, mid, b. repeat split; try assumption.
    + intros (a & mid & b & Hs & Ha & Hb & Hall & Hl).
      exists a, mid, b. repeat split; try assumption;
        pose proof (list_ascii_of_string_length s) as Hls;
        rewrite Hs in Hls; cbn [length] in Hls; rewrite length_app in Hls;
        cbn [length] in Hls; lia.
Qed.

End RegexFacts.

(** ** Tunnel: the registry *)

Module TunnelFacts.
Import Utils UtilsFacts GoTime Tunnel.

Local Open Scope string_scope.

(** The pointers of the registry refer to connections of the store, each
    made for the subdomain it is bound to. *)
Definition wf (m : Manager) : Prop :=
  forall s tc, tunnels m !! s = Some tc ->
    exists c, conns m !! tc = Some c /\ Subdomain c = s.

Lemma IsReserved_elem (s : string) :
  IsReserved s = true ->
  s ∈ ["www"; "api"; "admin"; "app"; "mail"; "ftp"; "blog"; "shop"; "status";
       "health"; "test"; "dev"; "staging"].
Proof.
  unfold IsReserved, map_bool. destruct (reserved !! s) as [b|] eqn:E; [|discriminate].
  simpl. intros ->. unfold reserved in E.
  apply elem_of_list_to_map_2 in E.
  repeat (apply elem_of_cons in E as [[= ->]|E]; [set_solver|]).
  apply elem_of_nil in E. contradiction.
Qed.

(** Every reserved label passes the syntax check. *)
Lemma reserved_valid (s : string) :
  IsReserved s = true -> ValidateSubdomain s = true.
Proof.
  intros Hr. apply IsReserved_elem in Hr.
  repeat (apply elem_of_cons in Hr as [->|Hr]; [vm_compute; reflexivity|]).
  apply elem_of_nil in Hr. contradiction.
Qed.

(** C5.  [Register] with a requested subdomain [s].  It returns
    [ErrInvalidSubdomain] when [s] fails the syntax check,
    [ErrReservedSubdomain] when [s] is reserved, [ErrSubdomainTaken] when
    [s] passes both and is in use, the registry (store, bindings and
    used-set) and the random source being in each case what they were; and
    otherwise it returns [s], which is then bound to a new connection and
    marked used. *)
Theorem Register_custom (m : Manager) (conn : option nat) (s : string)
    (rng : RandReader) (now : Z) :
  s <> "" ->
  (ValidateSubdomain s = false ->
     Register m conn s rng now = (inl ErrInvalidSubdomain, m, rng)) /\
  (IsReserved s = true ->
     Register m conn s rng now = (inl ErrReservedSubdomain, m, rng)) /\
  (ValidateSubdomain s = true -> IsReserved s = false ->
   map_bool (used m) s = true ->
     Register m conn s rng now = (inl ErrSubdomainTaken, m, rng)) /\
  (ValidateSubdomain s = true -> IsReserved s = false ->
   map_bool (used m) s = false ->
     exists m',
       Register m conn s rng now = (inr s, m', rng) /\
       map_bool (used m') s = true /\
       exists tc,
         Get m' s = Some tc /\ conns m !! tc = None /\
         conns m' !! tc = Some (NewConnection s conn now)).
Proof.
  intros Hne. apply String.eqb_neq in Hne.
  unfold Register. rewrite Hne. cbn [negb].
  refine (conj _ (conj _ (conj _ _))).
  - intros ->. reflexivity.
  - intros Hres. rewrite (reserved_valid s Hres), Hres. reflexivity.
  - intros -> -> ->. reflexivity.
  - intros -> -> ->. cbn [negb]. eexists. split; [reflexivity|].
    unfold bind, Get, map_bool. cbn [used tunnels conns].
    rewrite lookup_insert_eq. split; [reflexivity|].
    exists (fresh (dom (conns m))). rewrite !lookup_insert_eq.
    split; [reflexivity|]. split; [|reflexivity].
    apply not_elem_of_dom. apply is_fresh.
Qed.

Lemma Register_custom_witness :
  Register NewManager None "api" {| outcomes := fun _ => Some 0; drawn := 0 |} 0
  = (inl ErrReservedSubdomain, NewManager,
     {| outcomes := fun _ => Some 0; drawn := 0 |}).
Proof.
  refine (proj1 (proj2 (Register_custom NewManager None "api" _ 0 _)) _).
  - discriminate.
  - vm_compute. reflexivity.
Defined.

(** *** [remove], the step of [Unregister] and of [CleanupStale] *)

Local Ltac split_decide :=
  repeat match goal with
         | |- context [decide ?P] => destruct (decide P)
         end.

Local Ltac absurd_Some :=
  repeat match goal with
         | H : is_Some None |- _ => destruct (is_Some_None H)
         | H : _ /\ _ |- _ => destruct H
         end.

Lemma Close_closed (c : Connection) : closed (Close c) = true.
Proof. unfold Close. destruct (closed c) eqn:E; [exact E|reflexivity]. Qed.

Lemma Close_idempotent (c : Connection) : Close (Close c) = Close c.
Proof. unfold Close at 1. rewrite Close_closed. reflexivity. Qed.

Lemma remove_tunnels (m : Manager) (s s' : string) :
  tunnels (remove m s) !! s' = if decide (s = s') then None else tunnels m !! s'.
Proof.
  unfold remove. destruct (tunnels m !! s) as [tc|] eqn:E; cbn [tunnels].
  - rewrite lookup_delete. reflexivity.
  - split_decide; [subst; exact E|reflexivity].
Qed.

Lemma remove_used (m : Manager) (s s' : string) :
  used (remove m s) !! s' =
  if decide (s = s' /\ is_Some (tunnels m !! s)) then None else used m !! s'.
Proof.
  unfold remove. destruct (tunnels m !! s) as [tc|] eqn:E; cbn [used].
  - rewrite lookup_delete. split_decide; try reflexivity; exfalso; naive_solver.
  - split_decide; [|reflexivity]. absurd_Some.
Qed.

Lemma remove_conns (m : Manager) (s : string) (l : nat) :
  conns (remove m s) !! l =
  if decide (tunnels m !! s = Some l) then Close <$> conns m !! l
  else conns m !! l.
Proof.
  unfold remove. destruct (tunnels m !! s) as [tc|] eqn:E; cbn [conns].
  - rewrite lookup_alter. split_decide; try reflexivity; congruence.
  - split_decide; [discriminate|reflexivity].
Qed.

Lemma foldl_remove_tunnels (L : list string) (m : Manager) (s : string) :
  tunnels (foldl remove m L) !! s = if decide (s ∈ L) then None else tunnels m !! s.
Proof.
  revert m. induction L as [|x L IH]; intros m; cbn [foldl].
  - split_decide; [set_solver|reflexivity].
  - rewrite IH, remove_tunnels.
    split_decide; try reflexivity; exfalso; set_solver.
Qed.

Lemma foldl_remove_used (L : list string) (m : Manager) (s : string) :
  used (foldl remove m L) !! s =
  if decide (s ∈ L /\ is_Some (tunnels m !! s)) then None else used m !! s.
Proof.
  revert m. induction L as [|x L IH]; intros m; cbn [foldl].
  - split_decide; [set_solver|reflexivity].
  - rewrite IH, remove_used, remove_tunnels.
    destruct (decide (x = s)) as [->|Hxs].
    + destruct (tunnels m !! s) as [tc|] eqn:E;
        split_decide; try reflexivity; exfalso; absurd_Some;
        try congruence; set_solver.
    + split_decide; try reflexivity; exfalso; set_solver.
Qed.

Lemma foldl_remove_conns (L : list string) (m : Manager) (l : nat) :
  conns (foldl remove m L) !! l =
  if decide (Exists (fun s => tunnels m !! s = Some l) L)
  then Close <$> conns m !! l else conns m !! l.
Proof.
  revert m. induction L as [|x L IH]; intros m; cbn [foldl].
  - split_decide; [|reflexivity].
    match goal with H : Exists _ [] |- _ => apply Exists_nil in H; contradiction end.
  - rewrite IH, remove_conns.
    assert (Hrest : Exists (fun s => tunnels (remove m x) !! s = Some l) L <->
                    Exists (fun s => s <> x /\ tunnels m !! s = Some l) L).
    { apply Exists_proper; [|reflexivity]. intros s. rewrite remove_tunnels.
      destruct (decide (x = s)); naive_solver. }
    assert (Hcc : Close <$> (Close <$> conns m !! l) = Close <$> conns m !! l).
    { destruct (conns m !! l); cbn; [rewrite Close_idempotent|]; reflexivity. }
    destruct (decide (tunnels m !! x = Some l)) as [Hx|Hx].
    + rewrite (decide_True (P := Exists _ (x :: L))) by (apply Exists_cons; auto).
      destruct (decide (Exists _ L)); [exact Hcc|reflexivity].
    + destruct (decide (Exists _ L)) as [H1|H1];
        destruct (decide (Exists _ (x :: L))) as [H2|H2];
        try reflexivity; exfalso.
      * apply H2, Exists_cons. right. apply Hrest in H1.
        eapply Exists_impl; [exact H1|]. naive_solver.
      * apply H1, Hrest. apply Exists_cons in H2 as [H2|H2]; [contradiction|].
        apply Exists_exists in H2 as (s & Hs & Hl). apply Exists_exists.
        exists s. split; [exact Hs|]. split; [|exact Hl]. intros ->. contradiction.
Qed.

Lemma foldl_remove_size (L : list string) (m : Manager) :
  NoDup L -> (forall s, s ∈ L -> is_Some (tunnels m !! s)) ->
  (size (tunnels (foldl remove m L)) + length L = size (tunnels m))%nat.
Proof.
  revert m. induction L as [|x L IH]; intros m Hnd Hin; cbn [foldl length].
  - lia.
  - apply NoDup_cons in Hnd as [Hx Hnd].
    destruct (Hin x) as [tc Htc]; [set_solver|].
    assert (Hrest : forall s, s ∈ L -> is_Some (tunnels (remove m x) !! s)).
    { intros s Hs. rewrite remove_tunnels.
      destruct (decide (x = s)); [subst; contradiction|]. apply Hin. set_solver. }
    pose proof (IH (remove m x) Hnd Hrest) as Hr.
    assert (Hdel : size (tunnels (remove m x)) = pred (size (tunnels m))).
    { unfold remove. rewrite Htc. cbn [tunnels].
      apply map_size_delete_Some. eauto. }
    assert (size (tunnels m) <> 0%nat)
      by (apply map_size_ne_0_lookup_2 with x; eauto).
    lia.
Qed.

(** *** [CleanupStale] *)

Lemma elem_of_staleSubdomains (m : Manager) (clock : string -> Z) (timeout : Z)
    (s : string) :
  s ∈ staleSubdomains m clock timeout <->
  exists tc, tunnels m !! s = Some tc /\ is_stale m clock timeout s tc = true.
Proof.
  unfold staleSubdomains. rewrite list_elem_of_fmap. split.
  - intros ([s' tc] & -> & Hin). apply list_elem_of_filter in Hin as [Hst Hin].
    apply elem_of_map_to_list in Hin. exists tc. split; assumption.
  - intros (tc & Hb & Hst). exists (s, tc). split; [reflexivity|].
    apply list_elem_of_filter. split; [exact Hst|].
    apply elem_of_map_to_list. exact Hb.
Qed.

Lemma NoDup_staleSubdomains (m : Manager) (clock : string -> Z) (timeout : Z) :
  NoDup (staleSubdomains m clock timeout).
Proof.
  unfold staleSubdomains.
  eapply sublist_NoDup; [apply (NoDup_fst_map_to_list (tunnels m))|].
  apply fmap_sublist, sublist_filter.
Qed.

Lemma is_stale_spec (m : Manager) (clock : string -> Z) (timeout : Z)
    (s : string) (tc : nat) (c : Connection) :
  conns m !! tc = Some c ->
  is_stale m clock timeout s tc = true <->
  timeout <= Since (clock s) (LastActive c).
Proof.
  intros Hc. unfold is_stale, IsAlive. rewrite Hc.
  destruct (Z.ltb_spec (Since (clock s) (LastActive c)) timeout); cbn [negb];
    split; intros; try lia; try discriminate; reflexivity.
Qed.

(** C6.  Idle eviction.  In a registry whose pointers refer to the
    connections made for their subdomains, [CleanupStale] removes exactly the
    connections whose time since [LastActive], as [time.Since] measures it
    when the connection is examined, is at least the timeout: such a
    connection is closed, its binding and its used-entry are gone and [Get]
    finds nothing; every other connection stays bound, its used-entry and
    the connection itself as they were; and the number returned is the
    number of bindings removed. *)
Theorem CleanupStale_evicts (m : Manager) (clock : string -> Z) (timeout : Z)
    (n : Z) (m' : Manager) :
  wf m ->
  CleanupStale m clock timeout = (n, m') ->
  (forall s tc c, tunnels m !! s = Some tc -> conns m !! tc = Some c ->
     (timeout <= Since (clock s) (LastActive c) ->
        Get m' s = None /\ used m' !! s = None /\
        conns m' !! tc = Some (Close c) /\ IsClosed (Close c) = true) /\
     (Since (clock s) (LastActive c) < timeout ->
        Get m' s = Some tc /\ used m' !! s = used m !! s /\
        conns m' !! tc = Some c)) /\
  (forall s, tunnels m !! s = None ->
     Get m' s = None /\ used m' !! s = used m !! s) /\
  n = Count m - Count m' /\ 0 <= n.
Proof.
  intros Hwf Hrun. unfold CleanupStale in Hrun. inversion Hrun as [[Hn Hm']].
  clear Hrun. set (L := staleSubdomains m clock timeout) in *.
  assert (Halias : forall s tc,
             tunnels m !! s = Some tc ->
             Exists (fun s' => tunnels m !! s' = Some tc) L <-> s ∈ L).
  { intros s tc Hb. rewrite Exists_exists. split.
    - intros (s' & Hin & Hb').
      destruct (Hwf s tc Hb) as (c & Hc & Hs).
      destruct (Hwf s' tc Hb') as (c' & Hc' & Hs').
      assert (s' = s) as -> by congruence. exact Hin.
    - intros Hin. exists s. split; assumption. }
  refine (conj _ (conj _ _)).
  - intros s tc c Hb Hc. unfold Get.
    rewrite foldl_remove_tunnels, foldl_remove_used, foldl_remove_conns.
    pose proof (Halias s tc Hb) as Hal.
    pose proof (elem_of_staleSubdomains m clock timeout s) as Hel. fold L in Hel.
    pose proof (is_stale_spec m clock timeout s tc c Hc) as Hst.
    split.
    + intros Hold.
      assert (Hin : s ∈ L).
      { apply Hel. exists tc. split; [exact Hb|]. apply Hst. exact Hold. }
      rewrite (decide_True (P := s ∈ L)) by exact Hin.
      rewrite (decide_True (P := s ∈ L /\ _)) by (split; [exact Hin|rewrite Hb; eauto]).
      rewrite (decide_True (P := Exists _ L)) by (apply Hal, Hin).
      rewrite Hc. cbn. rewrite Close_closed. repeat split.
    + intros Hyoung.
      assert (Hnin : s ∉ L).
      { intros Hin. apply Hel in Hin as (tc' & Hb' & Hs').
        assert (tc' = tc) as -> by congruence. apply Hst in Hs'. lia. }
      rewrite (decide_False (P := s ∈ L)) by exact Hnin.
      rewrite (decide_False (P := s ∈ L /\ _)) by (intros [? _]; contradiction).
      rewrite (decide_False (P := Exists _ L)) by (intros Hex; apply Hnin, Hal, Hex).
      repeat split; assumption.
  - intros s Hnone. unfold Get.
    rewrite foldl_remove_tunnels, foldl_remove_used, Hnone.
    split; [destruct (decide (s ∈ L)); reflexivity|].
    rewrite decide_False; [reflexivity|]. intros [_ Hs]. destruct (is_Some_None Hs).
  - unfold Count.
    pose proof (foldl_remove_size L m (NoDup_staleSubdomains m clock timeout)) as Hsz.
    rewrite <- Hsz; [lia|].
    intros s Hs. apply elem_of_staleSubdomains in Hs as (tc & Hb & _).
    rewrite Hb. eauto.
Qed.

(** A registry with a fresh and a stale connection, as in
    [TestManagerCleanupStale]. *)
Definition two_tunnels : Manager :=
  {| conns := <[0%nat := NewConnection "fresh" None (120 * Second)]>
                (<[1%nat := NewConnection "stale" None 0]> ∅);
     tunnels := <["fresh" := 0%nat]> (<["stale" := 1%nat]> ∅);
     used := <["fresh" := true]> (<["stale" := true]> ∅) |}.

Lemma two_tunnels_wf : wf two_tunnels.
Proof.
  intros s tc Hb. unfold two_tunnels in *. cbn [tunnels conns] in *.
  apply lookup_insert_Some in Hb as [[<- <-]|[_ Hb]].
  - eexists. split; [reflexivity|reflexivity].
  - apply lookup_insert_Some in Hb as [[<- <-]|[_ Hb]].
    + eexists. split; [reflexivity|reflexivity].
    + rewrite lookup_empty in Hb. discriminate.
Qed.

Lemma CleanupStale_evicts_witness :
  fst (CleanupStale two_tunnels (fun _ => 120 * Second) (90 * Second))
  = Count two_tunnels
    - Count (snd (CleanupStale two_tunnels (fun _ => 120 * Second) (90 * Second))).
Proof.
  exact (proj1 (proj2 (proj2
           (CleanupStale_evicts two_tunnels (fun _ => 120 * Second) (90 * Second)
              _ _ two_tunnels_wf
              (surjective_pairing
                 (CleanupStale two_tunnels (fun _ => 120 * Second) (90 * Second))))))).
Defined.

(** *** Automatic registration *)

(** A random source that delivers 0 at every draw. *)
Definition zeros : RandReader := {| outcomes := fun _ => Some 0; drawn := 0 |}.

(** Three automatic registrations in a row on a new registry. *)
Definition auto1 := Register NewManager None "" zeros 0.
Definition auto2 := Register (snd (fst auto1)) None "" (snd auto1) 0.
Definition auto3 := Register (snd (fst auto2)) None "" (snd auto2) 0.

(** C2, the code at a failing input.  With a random source that delivers 0
    at every draw, the first automatic registration is assigned [aaaaaa];
    the second finds it taken ten times and is assigned the fallback
    [aaaaaaaa]; the third is assigned [aaaaaaaa] again, although it is
    bound: the binding of the second is replaced, its connection left open
    in the store, and the registry holds two bindings after three
    registrations. *)
Theorem auto_registration_fallback_collides :
  fst (fst auto1) = inr "aaaaaa" /\
  fst (fst auto2) = inr "aaaaaaaa" /\
  fst (fst auto3) = inr "aaaaaaaa" /\
  map_bool (used (snd (fst auto2))) "aaaaaaaa" = true /\
  Get (snd (fst auto2)) "aaaaaaaa" = Some 1%nat /\
  Get (snd (fst auto3)) "aaaaaaaa" = Some 2%nat /\
  closed <$> conns (snd (fst auto3)) !! 1%nat = Some false /\
  Count (snd (fst auto3)) = 2.
Proof. repeat split; vm_compute; reflexivity. Qed.

End TunnelFacts.

(** ** Proxy: the response handler *)

Module ProxyFacts.
Import GoTime Proxy.

Local Open Scope string_scope.

(** C9.  A response for a request ID that has no entry in the map of
    pending channels (or whose entry is nil) is dropped: the call returns,
    the map, its size and every channel, buffers included, are what they
    were, and the one effect is a warning in the log. *)
Theorem SendResponse_unknown_id (h : ResponseHandler) (requestID : string)
    (resp : HTTPResponse) (room_in_time : bool) :
  channels h !! requestID = None \/ channels h !! requestID = Some None ->
  exists h',
    SendResponse h requestID resp room_in_time = Some h' /\
    channels h' = channels h /\
    chans h' = chans h /\
    GetPendingCount h' = GetPendingCount h /\
    logger h' = (logger h ++ [WarnNotFound requestID])%list.
Proof.
  intros Hnone. exists (add_log h (WarnNotFound requestID)).
  unfold SendResponse. destruct Hnone as [-> | ->]; repeat split.
Qed.

Lemma SendResponse_unknown_id_witness :
  exists h',
    SendResponse (snd (CreateResponseChan NewResponseHandler "req-1" 0)) "req-2"
      {| StatusCode := 200; Status := "200 OK"; Headers := []; Body := [] |} false
    = Some h' /\
    channels h' = channels (snd (CreateResponseChan NewResponseHandler "req-1" 0)) /\
    chans h' = chans (snd (CreateResponseChan NewResponseHandler "req-1" 0)).
Proof.
  destruct (SendResponse_unknown_id
              (snd (CreateResponseChan NewResponseHandler "req-1" 0)) "req-2"
              {| StatusCode := 200; Status := "200 OK"; Headers := []; Body := [] |}
              false) as (h' & Hrun & Hch & Hcs & _).
  - left. vm_compute. reflexivity.
  - exists h'. repeat split; assumption.
Defined.

End ProxyFacts.

(** ** The batching writer *)

Module BatchWriterFacts.
Import Bytes Pool Protocol ProtocolFacts BatchWriter.

(** The error [e0] of [WriteFrame] is the error [e] of the sink, with the
    call of [Write] that returned it. *)
Definition wraps (e : io_error) (e0 : error) : Prop :=
  e0 = ErrWriteLength e \/ e0 = ErrWriteType e \/ e0 = ErrWritePayload e.

(** The connection after a flush: every frame was handed to [WriteFrame]. *)
Lemma flushBatchLocked_conn {W : Type} `{Writer W} (w : FrameWriter W) :
  conn (flushBatchLocked w)
  = foldl (fun c frame => fst (WriteFrame c frame)) (conn w) (batch w).
Proof.
  unfold flushBatchLocked.
  assert (Hall : forall frames (w0 : FrameWriter W),
             conn (flush_frames w0 frames)
             = foldl (fun c frame => fst (WriteFrame c frame)) (conn w0) frames).
  { induction frames as [|frame rest IH]; intros w0; cbn [flush_frames foldl];
      [reflexivity|].
    destruct (WriteFrame (conn w0) frame) as [c [err|]]; rewrite IH;
      unfold errOnce_Do; try destruct (errOnce (set_conn w0 c));
      cbn [set_conn set_error set_bufpool conn fst]; reflexivity. }
  destruct (batch w) as [|f l]; [reflexivity|].
  cbn [set_batch conn]. apply Hall.
Qed.

Section writer.
Context {W : Type} `{Writer W}.

(** The writer has recorded the write error [e]. *)
Definition latched (e : error) (w : FrameWriter W) : Prop :=
  errOnce w = true /\ writeErr w = Some e /\ closed w = true.

Local Ltac fields :=
  unfold latched, set_conn, set_queue, set_batch, set_closed, set_heartbeat,
    set_error, set_onWriteError, set_adaptive, set_loop, set_bufpool;
  cbn [conn queue queue_cap queue_closed batch done closed maxBatch
       maxBatchWait heartbeatInterval heartbeatCallback heartbeatEnabled
       heartbeatControl writeErr errOnce onWriteError adaptiveFlush
       lowConcurrencyThreshold heartbeatTicker running spawned bufpool].

Lemma flush_frames_latched (e : error) (frames : list Frame) (w : FrameWriter W) :
  latched e w ->
  latched e (flush_frames w frames) /\
  spawned (flush_frames w frames) = spawned w.
Proof.
  revert w. induction frames as [|frame rest IH]; intros w Hl; cbn [flush_frames].
  - split; [exact Hl|reflexivity].
  - destruct (WriteFrame (conn w) frame) as [c err].
    set (w1 := match err with
               | Some err0 => errOnce_Do (set_conn w c) err0
               | None => set_conn w c
               end).
    assert (H1 : latched e w1 /\ spawned w1 = spawned w).
    { subst w1. destruct Hl as (Ho & He & Hc).
      destruct err; unfold errOnce_Do; fields; rewrite ?Ho; fields; auto. }
    destruct H1 as [Hl1 Hs1].
    destruct (IH (set_bufpool w1 (snd (Release frame (bufpool w1))))) as [Hl2 Hs2].
    { destruct Hl1 as (Ho & He & Hc). fields. auto. }
    split; [exact Hl2|]. rewrite Hs2. fields. exact Hs1.
Qed.

Lemma flushBatchLocked_latched (e : error) (w : FrameWriter W) :
  latched e w ->
  latched e (flushBatchLocked w) /\ spawned (flushBatchLocked w) = spawned w.
Proof.
  intros Hl. unfold flushBatchLocked. destruct (batch w) as [|f l] eqn:Hb.
  - split; [exact Hl|reflexivity].
  - destruct (flush_frames_latched e (f :: l) w Hl) as [(Ho & He & Hc) Hs].
    fields. auto.
Qed.

Lemma flushBatchLocked_latched_from (e : error) (w w' : FrameWriter W) :
  latched e w' -> spawned w' = spawned w ->
  latched e (flushBatchLocked w') /\ spawned (flushBatchLocked w') = spawned w.
Proof.
  intros Hl Hs. destruct (flushBatchLocked_latched e w' Hl) as [Hl' Hs'].
  split; [exact Hl'|congruence].
Qed.

Lemma step_latched (e : error) (w : FrameWriter W) (o : op) :
  latched e w ->
  latched e (step w o) /\ spawned (step w o) = spawned w.
Proof.
  intros Hl. pose proof Hl as (Ho & He & Hc).
  destruct o as [frame pick|c| | |handler|interval callback| |threshold|];
    cbn [step].
  - unfold FrameWriter_WriteFrame. rewrite Hc. split; [exact Hl|reflexivity].
  - unfold writeLoop_step. destruct (running w); cbn [negb]; [|auto].
    destruct c.
    + destruct (queue w) as [|frame rest].
      * destruct (queue_closed w); [|auto].
        destruct (flushBatchLocked_latched e w Hl) as [(Ho' & He' & Hc') Hs'].
        fields. auto.
      * match goal with
        | |- context [if ?b then flushBatchLocked ?w' else _] =>
            destruct b;
            [apply (flushBatchLocked_latched_from e w w'); fields; auto
            | fields; auto]
        end.
    + destruct (0 <? length (batch w))%nat; [|auto].
      apply flushBatchLocked_latched, Hl.
    + destruct (heartbeatTicker w); [|auto].
      destruct (heartbeatCallback w) as [[frame|]|]; auto.
      apply flushBatchLocked_latched_from; fields; auto.
    + destruct (heartbeatControl w); [|auto]. fields. auto.
    + destruct (done w); [|auto].
      destruct (flushBatchLocked_latched e w Hl) as [(Ho' & He' & Hc') Hs'].
      fields. auto.
  - unfold Close. rewrite Hc. cbn [default]. auto.
  - unfold Flush. rewrite Hc. cbn [default]. auto.
  - unfold SetWriteErrorHandler. fields. auto.
  - unfold EnableHeartbeat. fields. auto.
  - unfold DisableHeartbeat. fields. auto.
  - unfold EnableAdaptiveFlush. fields. auto.
  - unfold DisableAdaptiveFlush. fields. auto.
Qed.

Lemma run_latched (e : error) (ops : list op) (w : FrameWriter W) :
  latched e w ->
  latched e (run w ops) /\ spawned (run w ops) = spawned w.
Proof.
  revert w. induction ops as [|o ops IH]; intros w Hl.
  - split; [exact Hl|reflexivity].
  - unfold run. cbn [foldl]. destruct (step_latched e w o Hl) as [Hl1 Hs1].
    destruct (IH (step w o) Hl1) as [Hl2 Hs2]. unfold run in *.
    split; [exact Hl2|congruence].
Qed.

(** The flush that meets the first write error. *)
Lemma flush_frames_first_error (e0 : error) (frames : list Frame)
    (w : FrameWriter W) :
  errOnce w = false ->
  first_write_error (conn w) frames = Some e0 ->
  latched e0 (flush_frames w frames) /\
  spawned (flush_frames w frames)
  = spawned w ++ match onWriteError w with
                 | Some handler => [(handler, e0)]
                 | None => []
                 end.
Proof.
  revert w. induction frames as [|frame rest IH]; intros w Ho Hfirst;
    cbn [flush_frames first_write_error] in *; [discriminate|].
  destruct (WriteFrame (conn w) frame) as [c [err|]].
  - injection Hfirst as ->.
    match goal with
    | |- context [flush_frames ?w' rest] =>
        destruct (flush_frames_latched e0 rest w') as [Hl Hs]
    end.
    { unfold errOnce_Do. fields. rewrite Ho. fields. auto. }
    split; [exact Hl|]. rewrite Hs. unfold errOnce_Do. fields. rewrite Ho. fields.
    destruct (onWriteError w); [reflexivity|].
    rewrite app_nil_r. reflexivity.
  - match goal with
    | |- context [flush_frames ?w' rest] =>
        destruct (IH w') as [Hl Hs]
    end.
    + fields. exact Ho.
    + fields. exact Hfirst.
    + split; [exact Hl|]. rewrite Hs. fields. reflexivity.
Qed.

Lemma flushBatchLocked_first_error (e0 : error) (w : FrameWriter W) :
  errOnce w = false ->
  first_write_error (conn w) (batch w) = Some e0 ->
  latched e0 (flushBatchLocked w) /\
  spawned (flushBatchLocked w)
  = spawned w ++ match onWriteError w with
                 | Some handler => [(handler, e0)]
                 | None => []
                 end.
Proof.
  intros Ho Hfirst. unfold flushBatchLocked.
  destruct (batch w) as [|f l] eqn:Hb; [discriminate|].
  destruct (flush_frames_first_error e0 (f :: l) w Ho Hfirst)
    as [(Ho' & He' & Hc') Hs].
  fields. auto.
Qed.

(** What a flush never touches, whether the writes fail or not. *)
Lemma flush_frames_frame (frames : list Frame) (w : FrameWriter W) :
  queue (flush_frames w frames) = queue w /\
  queue_cap (flush_frames w frames) = queue_cap w /\
  queue_closed (flush_frames w frames) = queue_closed w /\
  done (flush_frames w frames) = done w /\
  maxBatch (flush_frames w frames) = maxBatch w /\
  running (flush_frames w frames) = running w /\
  bufpool (flush_frames w frames) = release_all frames (bufpool w).
Proof.
  revert w. induction frames as [|frame rest IH]; intros w;
    cbn [flush_frames release_all foldl].
  - repeat split.
  - destruct (WriteFrame (conn w) frame) as [c [err|]];
      match goal with
      | |- context [flush_frames ?w' rest] =>
          destruct (IH w') as (Hq & Hc & Hqc & Hd & Hm & Hr & Hp)
      end;
      rewrite Hq, Hc, Hqc, Hd, Hm, Hr, Hp; unfold errOnce_Do;
      try destruct (errOnce (set_conn w c));
      cbn [set_conn set_error set_bufpool queue queue_cap queue_closed done
           maxBatch running bufpool]; repeat split.
Qed.

Lemma flushBatchLocked_frame (w : FrameWriter W) :
  batch (flushBatchLocked w) = [] /\
  queue (flushBatchLocked w) = queue w /\
  queue_cap (flushBatchLocked w) = queue_cap w /\
  queue_closed (flushBatchLocked w) = queue_closed w /\
  done (flushBatchLocked w) = done w /\
  maxBatch (flushBatchLocked w) = maxBatch w /\
  running (flushBatchLocked w) = running w /\
  bufpool (flushBatchLocked w) = release_all (batch w) (bufpool w).
Proof.
  unfold flushBatchLocked. destruct (batch w) as [|f l] eqn:Hb.
  - rewrite Hb. repeat split.
  - destruct (flush_frames_frame (f :: l) w) as (Hq & Hc & Hqc & Hd & Hm & Hr & Hp).
    cbn [set_batch batch queue queue_cap queue_closed done maxBatch running
         bufpool].
    repeat split; assumption.
Qed.

(** An error of [WriteFrame] is an error of the sink with its call, or the
    refusal of a payload over the limit. *)
Lemma first_write_error_form (frames : list Frame) (c : W) (e0 : error) :
  first_write_error c frames = Some e0 ->
  (exists e, wraps e e0) \/
  (exists frame, In frame frames /\
     MaxFrameSize < Z.of_nat (length (Payload frame)) /\
     e0 = ErrPayloadTooLarge (Z.of_nat (length (Payload frame)))).
Proof.
  revert c. induction frames as [|frame rest IH]; intros c Hfirst;
    cbn [first_write_error] in Hfirst; [discriminate|].
  destruct (WriteFrame c frame) as [c' [err|]] eqn:Hrun.
  - injection Hfirst as ->. unfold WriteFrame in Hrun.
    destruct (Z.ltb_spec MaxFrameSize (Z.of_nat (length (Payload frame)))).
    + injection Hrun as _ <-. right. exists frame.
      split; [left; reflexivity|]. split; [assumption|reflexivity].
    + left. unfold wraps.
      destruct (Write c _) as [c1 [e1|]]; [injection Hrun as _ <-; eauto|].
      destruct (Write c1 _) as [c2 [e2|]]; [injection Hrun as _ <-; eauto|].
      destruct (0 <? _); [|discriminate].
      destruct (Write c2 _) as [c3 [e3|]]; [injection Hrun as _ <-; eauto|].
      discriminate.
  - destruct (IH c' Hfirst) as [Hw|(f & Hin & Hbig & He)]; [left; exact Hw|].
    right. exists f. split; [right; exact Hin|]. split; assumption.
Qed.

(** On a sink that records its errors, [WriteFrame] on a frame within the
    limit fails exactly when a call of [Write] fails, with that error. *)
Lemma WriteFrame_recording (c : W) (log : list io_error) (frame : Frame) :
  Z.of_nat (length (Payload frame)) <= MaxFrameSize ->
  match snd (WriteFrame (c, log) frame) with
  | None => snd (fst (WriteFrame (c, log) frame)) = log
  | Some e0 =>
      exists e, snd (fst (WriteFrame (c, log) frame)) = log ++ [e] /\ wraps e e0
  end.
Proof.
  intros Hfit.
  destruct (WriteFrame (c, log) frame) as [[c' log'] err] eqn:Hrun.
  cbn [fst snd]. unfold WriteFrame in Hrun.
  destruct (Z.ltb_spec MaxFrameSize (Z.of_nat (length (Payload frame)))); [lia|].
  unfold wraps. unfold Write, recording_Writer in Hrun. cbn [fst snd] in Hrun.
  destruct (Write c _) as [c1 [e1|]]; cbn [fst snd] in Hrun.
  { injection Hrun as <- <- <-. eauto. }
  rewrite app_nil_r in Hrun.
  destruct (Write c1 _) as [c2 [e2|]]; cbn [fst snd] in Hrun.
  { injection Hrun as <- <- <-. eauto. }
  rewrite app_nil_r in Hrun.
  destruct (0 <? _).
  - destruct (Write c2 _) as [c3 [e3|]]; cbn [fst snd] in Hrun;
      injection Hrun as <- <- <-; [eauto|apply app_nil_r].
  - injection Hrun as <- <- <-. reflexivity.
Qed.

Lemma WriteFrame_recording_grows (cl : W * list io_error) (frame : Frame) :
  exists l, snd (fst (WriteFrame cl frame)) = snd cl ++ l.
Proof.
  destruct cl as [c log].
  destruct (Z.ltb_spec MaxFrameSize (Z.of_nat (length (Payload frame))))
    as [Hbig|Hfit].
  - rewrite (WriteFrame_too_large (c, log) frame Hbig). exists [].
    cbn [fst snd]. rewrite app_nil_r. reflexivity.
  - pose proof (WriteFrame_recording c log frame Hfit) as Hrec.
    destruct (snd (WriteFrame (c, log) frame)) as [err|].
    + destruct Hrec as (e & -> & _). cbn [snd]. eauto.
    + rewrite Hrec. exists []. cbn [snd]. rewrite app_nil_r. reflexivity.
Qed.

Lemma write_each_recording_grows (frames : list Frame) (cl : W * list io_error) :
  exists l,
    snd (foldl (fun c frame => fst (WriteFrame c frame)) cl frames) = snd cl ++ l.
Proof.
  revert cl. induction frames as [|frame rest IH]; intros cl; cbn [foldl].
  - exists []. rewrite app_nil_r. reflexivity.
  - destruct (IH (fst (WriteFrame cl frame))) as [l2 ->].
    destruct (WriteFrame_recording_grows cl frame) as [l1 ->].
    exists (l1 ++ l2). rewrite app_assoc. reflexivity.
Qed.

(** The first error of [WriteFrame], no frame being over the limit, is the
    first error the sink returns when the frames are written in turn. *)
Lemma first_write_error_recorded (frames : list Frame) (cl : W * list io_error)
    (e0 : error) :
  Forall (fun f => Z.of_nat (length (Payload f)) <= MaxFrameSize) frames ->
  first_write_error cl frames = Some e0 ->
  exists e rest,
    snd (foldl (fun c frame => fst (WriteFrame c frame)) cl frames)
    = snd cl ++ e :: rest /\ wraps e e0.
Proof.
  revert cl. induction frames as [|frame frames IH]; intros cl Hfit Hfirst;
    cbn [first_write_error foldl] in *; [discriminate|].
  apply Forall_cons in Hfit as [Hf Hfit].
  destruct cl as [c log].
  pose proof (WriteFrame_recording c log frame Hf) as Hrec.
  destruct (WriteFrame (c, log) frame) as [cl' [err|]]; cbn [fst snd] in *.
  - injection Hfirst as ->. destruct Hrec as (e & Hlog & Hw).
    destruct (write_each_recording_grows frames cl') as [l ->].
    exists e, l. split; [|exact Hw]. rewrite Hlog, <- app_assoc. reflexivity.
  - destruct (IH cl' Hfit Hfirst) as (e & rest & -> & Hw).
    exists e, rest. split; [|exact Hw]. rewrite Hrec. reflexivity.
Qed.

(** C4, as amended.  Write-error latching.  When a flush on a writer that
    has recorded no error meets a write error, the first error [e0] that
    [WriteFrame] returns for a frame of the batch is recorded, the writer is
    closed, and the handler registered at that time, if there is one, is
    called once, with [e0].  This error is an error of the sink with the
    call of [Write] that returned it, or the refusal of a frame of the batch
    whose payload is over 10 MiB.  After any further operations on the
    writer (submissions, turns of the write loop with flushes that fail
    again, [Close], [Flush], settings), no other call of a handler has been
    made, and every submission returns [e0] and leaves the writer as it is.
    When no frame of the batch is over 10 MiB, [e0] is the first error the
    sink returned during the flush, as a sink that records its errors
    shows. *)
Theorem write_error_latched :
  (forall (w : FrameWriter W) (e0 : error),
     errOnce w = false ->
     first_write_error (conn w) (batch w) = Some e0 ->
     let calls := spawned w ++ match onWriteError w with
                               | Some handler => [(handler, e0)]
                               | None => []
                               end in
     writeErr (flushBatchLocked w) = Some e0 /\
     closed (flushBatchLocked w) = true /\
     spawned (flushBatchLocked w) = calls /\
     ((exists e, wraps e e0) \/
      (exists frame, In frame (batch w) /\
         MaxFrameSize < Z.of_nat (length (Payload frame)) /\
         e0 = ErrPayloadTooLarge (Z.of_nat (length (Payload frame))))) /\
     forall ops : list op,
       spawned (run (flushBatchLocked w) ops) = calls /\
       forall (frame : Frame) (pick_done : bool),
         FrameWriter_WriteFrame (run (flushBatchLocked w) ops) frame pick_done
         = (Returned (Some e0), run (flushBatchLocked w) ops)) /\
  (forall (w : FrameWriter (W * list io_error)) (e0 : error),
     first_write_error (conn w) (batch w) = Some e0 ->
     Forall (fun f => Z.of_nat (length (Payload f)) <= MaxFrameSize) (batch w) ->
     exists e rest,
       snd (conn (flushBatchLocked w)) = snd (conn w) ++ e :: rest /\
       wraps e e0).
Proof.
  split.
  - intros w e0 Ho Hfirst calls.
    destruct (flushBatchLocked_first_error e0 w Ho Hfirst) as [Hl Hs].
    pose proof Hl as (_ & He & Hc).
    refine (conj He (conj Hc (conj Hs (conj _ _)))).
    { exact (first_write_error_form (batch w) (conn w) e0 Hfirst). }
    intros ops.
    destruct (run_latched e0 ops _ Hl) as [(Ho2 & He2 & Hc2) Hs2].
    split; [subst calls; congruence|]. intros frame pick_done.
    unfold FrameWriter_WriteFrame, closed_error. rewrite Hc2, He2. reflexivity.
  - intros w e0 Hfirst Hfit.
    destruct (batch w) as [|f l] eqn:Hb; [discriminate|].
    pose proof (first_write_error_recorded (f :: l) (conn w) e0 Hfit Hfirst)
      as Hrec.
    rewrite flushBatchLocked_conn, Hb. exact Hrec.
Qed.

End writer.

(** A sink that takes [room] more bytes and then fails. *)
#[export] Instance limited_Writer : Writer (list byte * nat) :=
  fun w p =>
    if (length p <=? snd w)%nat
    then ((fst w ++ p, (snd w - length p)%nat), None)
    else (w, Some (ErrIO "broken pipe")).

(** A writer on a sink with room for one frame of two, a handler set. *)
Definition failing_writer : FrameWriter (list byte * nat) :=
  set_batch
    (SetWriteErrorHandler
       (NewFrameWriter (([], 7%nat) : list byte * nat) NewBufferPool) (Some 1%nat))
    [NewFrame FrameTypeData [x68; x69]; NewFrame FrameTypeData [x68; x69]].

Lemma write_error_latched_witness :
  closed (flushBatchLocked failing_writer) = true /\
  spawned (flushBatchLocked failing_writer)
  = [(1%nat, ErrWriteLength (ErrIO "broken pipe"))].
Proof.
  destruct (proj1 write_error_latched failing_writer
              (ErrWriteLength (ErrIO "broken pipe")))
    as (_ & Hc & Hs & _); try (vm_compute; reflexivity).
  split; [exact Hc | exact Hs].
Defined.

(** A frame whose payload is one byte over the limit. *)
Definition oversize : Frame :=
  NewFrame FrameTypeData (repeat x00 (Z.to_nat (MaxFrameSize + 1))).

(** A writer on a sink that fails at every call and records its errors,
    with no handler; the batch holds the frame over the limit and a small
    one. *)
Definition mixed_writer : FrameWriter ((list byte * nat) * list io_error) :=
  set_batch
    (NewFrameWriter ((([], 0%nat), []) : (list byte * nat) * list io_error)
       NewBufferPool)
    [oversize; NewFrame FrameTypeData [x68; x69]].

Lemma oversize_length :
  Z.of_nat (length (Payload oversize)) = MaxFrameSize + 1.
Proof.
  unfold oversize, NewFrame. cbn [Payload].
  rewrite repeat_length, Z2Nat.id; [reflexivity|]. unfold MaxFrameSize. lia.
Qed.

(** A frame over the limit at the head of the batch is refused, and the
    sink is not called for it. *)
Lemma first_write_error_oversize {W : Type} `{Writer W} (c : W) (big : Frame)
    (rest : list Frame) :
  MaxFrameSize < Z.of_nat (length (Payload big)) ->
  first_write_error c (big :: rest)
  = Some (ErrPayloadTooLarge (Z.of_nat (length (Payload big)))) /\
  foldl (fun c frame => fst (WriteFrame c frame)) c (big :: rest)
  = foldl (fun c frame => fst (WriteFrame c frame)) c rest.
Proof.
  intros Hbig. cbn [first_write_error foldl].
  rewrite (WriteFrame_too_large c big Hbig). split; reflexivity.
Qed.

(** C4 as stated fails: in the flush of a batch that holds a frame over the
    limit and then a small frame, on a sink that fails, the sink returns one
    error, that of the write of the small frame, and the error the writer
    records and closes on is not this one but the refusal of the first
    frame, which the sink never saw; the submissions that follow return the
    refusal. *)
Lemma write_error_latched_not_the_sink_error :
  snd (conn (flushBatchLocked mixed_writer)) = [ErrIO "broken pipe"] /\
  writeErr (flushBatchLocked mixed_writer)
  = Some (ErrPayloadTooLarge (MaxFrameSize + 1)) /\
  closed (flushBatchLocked mixed_writer) = true /\
  fst (FrameWriter_WriteFrame (flushBatchLocked mixed_writer)
         (NewFrame FrameTypeHeartbeat []) false)
  = Returned (Some (ErrPayloadTooLarge (MaxFrameSize + 1))).
Proof.
  assert (Hbig : MaxFrameSize < Z.of_nat (length (Payload oversize))).
  { rewrite oversize_length. lia. }
  assert (Hbatch : batch mixed_writer
                   = [oversize; NewFrame FrameTypeData [x68; x69]])
    by reflexivity.
  destruct (first_write_error_oversize (conn mixed_writer) oversize
              [NewFrame FrameTypeData [x68; x69]] Hbig) as [Hfirst Heach].
  rewrite oversize_length, <- Hbatch in Hfirst. rewrite <- Hbatch in Heach.
  destruct (flushBatchLocked_first_error _ mixed_writer eq_refl Hfirst)
    as [(_ & He & Hc) _].
  split; [|split; [exact He|split; [exact Hc|]]].
  - rewrite flushBatchLocked_conn, Heach. vm_compute. reflexivity.
  - unfold FrameWriter_WriteFrame, closed_error. rewrite Hc, He. reflexivity.
Qed.

End BatchWriterFacts.

(** ** Submission to a writer whose queue is full *)

Module BackpressureFacts.
Import Bytes Pool Protocol ProtocolFacts BatchWriterFacts.





(** [Close] on an open writer is [Close_queue], then the release of the
    frames left in the queue, then the close of [done]. *)
Lemma Close_after_Close_queue {W : Type} `{Writer W}
    (w : BatchWriter.FrameWriter W) :
  BatchWriter.closed w = false ->
  BatchWriter.queue_closed w = false ->
  BatchWriter.done w = false ->
  BatchWriter.Close w
  = Some (BatchWriter.set_closed
            (BatchWriter.set_bufpool
               (BatchWriter.set_queue (BatchWriter.Close_queue w) [] true)
               (BatchWriter.release_all
                  (BatchWriter.queue (BatchWriter.Close_queue w))
                  (BatchWriter.bufpool (BatchWriter.Close_queue w))))
            true true).
Proof.
  intros Hc Hq Hd. unfold BatchWriter.Close, BatchWriter.Close_queue.
  rewrite Hc, Hq, Hd. reflexivity.
Qed.






End BackpressureFacts.

(** ** Generated subdomains *)

Module SubdomainFacts.
Import Utils UtilsFacts RegexFacts GoTime Tunnel TunnelFacts.

Local Open Scope string_scope.

Lemma SubdomainChars_alnum (i : Z) :
  0 <= i < 36 -> is_alnum (char_at SubdomainChars i) = true.
Proof.
  intros Hi.
  assert (Hc : i = 0 \/ i = 1 \/ i = 2 \/ i = 3 \/ i = 4 \/ i = 5 \/ i = 6 \/
               i = 7 \/ i = 8 \/ i = 9 \/ i = 10 \/ i = 11 \/ i = 12 \/
               i = 13 \/ i = 14 \/ i = 15 \/ i = 16 \/ i = 17 \/ i = 18 \/
               i = 19 \/ i = 20 \/ i = 21 \/ i = 22 \/ i = 23 \/ i = 24 \/
               i = 25 \/ i = 26 \/ i = 27 \/ i = 28 \/ i = 29 \/ i = 30 \/
               i = 31 \/ i = 32 \/ i = 33 \/ i = 34 \/ i = 35) by lia.
  repeat (destruct Hc as [-> | Hc]; [reflexivity|]).
  subst i. reflexivity.
Qed.

Lemma generate_from_spec (n i : nat) (rng : RandReader) :
  String.length (fst (generate_from i n rng)) = n /\
  all_chars is_alnum (fst (generate_from i n rng)) = true /\
  drawn (snd (generate_from i n rng)) = (drawn rng + n)%nat /\
  outcomes (snd (generate_from i n rng)) = outcomes rng.
Proof.
  revert i rng. induction n as [|n IH]; intros i rng; cbn [generate_from].
  - cbn. repeat split. lia.
  - change (Z.of_nat (String.length SubdomainChars)) with 36.
    unfold rand_Int.
    set (rng1 := {| outcomes := outcomes rng; drawn := S (drawn rng) |}).
    destruct (IH (S i) rng1) as (Hlen & Hall & Hd & Ho).
    destruct (generate_from (S i) n rng1) as [rest rng2].
    cbn [fst snd] in *. cbn [String.length all_chars].
    rewrite Hlen, Hall, Hd, Ho. subst rng1. cbn [drawn outcomes].
    repeat split; try lia.
    rewrite andb_true_r.
    destruct (outcomes rng (drawn rng)) as [v|]; cbn [option_map];
      apply SubdomainChars_alnum; apply Z.mod_pos_bound; lia.
Qed.

Lemma all_chars_forallb (P : ascii -> bool) (s : string) :
  all_chars P s = forallb P (list_ascii_of_string s).
Proof.
  induction s as [|c s IH]; [reflexivity|].
  cbn [all_chars list_ascii_of_string forallb]. rewrite IH. reflexivity.
Qed.

Lemma first_and_last {A} (l : list A) :
  (2 <= length l)%nat -> exists a mid b, l = a :: mid ++ [b].
Proof.
  intros Hl. destruct l as [|a l]; [cbn in Hl; lia|].
  destruct (exists_last (l := l)) as (mid & b & ->).
  - intros ->. cbn in Hl. lia.
  - exists a, mid, b. reflexivity.
Qed.

(** A string of 3 to 63 lower-case letters and digits is a valid subdomain. *)
Lemma alnum_valid (s : string) :
  (3 <= String.length s <= 63)%nat -> all_chars is_alnum s = true ->
  ValidateSubdomain s = true.
Proof.
  intros Hlen Hall. unfold ValidateSubdomain.
  destruct (Nat.ltb_spec (String.length s) 3); [lia|].
  destruct (Nat.ltb_spec 63 (String.length s)); [lia|]. cbn [orb].
  apply MatchString_subdomainRegex.
  rewrite all_chars_forallb in Hall.
  pose proof (list_ascii_of_string_length s) as Hls.
  destruct (first_and_last (list_ascii_of_string s)) as (a & mid & b & Hs); [lia|].
  exists a, mid, b. rewrite Hs in Hall. cbn [forallb] in Hall.
  rewrite forallb_app in Hall. cbn [forallb] in Hall.
  apply andb_true_iff in Hall as [Ha Hall].
  apply andb_true_iff in Hall as [Hmid Hb].
  rewrite andb_true_r in Hb. rewrite Hs in Hls. cbn [length] in Hls.
  rewrite length_app in Hls. cbn [length] in Hls.
  repeat split; try assumption; try lia.
  apply forallb_forall. intros c Hc.
  unfold is_alnum_dash. rewrite (proj1 (forallb_forall _ _) Hmid c Hc). reflexivity.
Qed.

Lemma GenerateSubdomain_facts (len : Z) (rng : RandReader) :
  String.length (fst (GenerateSubdomain len rng))
  = Z.to_nat (if (len <=? 0)%Z then 6%Z else len) /\
  all_chars is_alnum (fst (GenerateSubdomain len rng)) = true /\
  ((3 <= (if (len <=? 0)%Z then 6 else len) <= 63)%Z ->
   ValidateSubdomain (fst (GenerateSubdomain len rng)) = true).
Proof.
  unfold GenerateSubdomain, DefaultSubdomainLength.
  set (n := if (len <=? 0)%Z then 6%Z else len).
  destruct (generate_from_spec (Z.to_nat n) 0 rng) as (Hlen & Hall & _).
  split; [exact Hlen|]. split; [exact Hall|].
  intros Hn. apply alnum_valid; [rewrite Hlen; lia | exact Hall].
Qed.

(** X.  [GenerateSubdomain] returns a string of the length asked for (6 when
    the length is not positive), made of lower-case letters and digits only,
    whatever the random source delivers, errors included; for a length of 3
    to 63 the string passes [ValidateSubdomain]. *)
Theorem GenerateSubdomain_label (len : Z) (rng : RandReader) :
  String.length (fst (GenerateSubdomain len rng))
  = Z.to_nat (if (len <=? 0)%Z then 6%Z else len) /\
  all_chars is_alnum (fst (GenerateSubdomain len rng)) = true /\
  ((3 <= (if (len <=? 0)%Z then 6 else len) <= 63)%Z ->
   ValidateSubdomain (fst (GenerateSubdomain len rng)) = true).
Proof. apply GenerateSubdomain_facts. Qed.

Lemma reserved_length (s : string) :
  IsReserved s = true -> (String.length s <= 7)%nat.
Proof.
  intros Hr. apply IsReserved_elem in Hr.
  repeat (apply elem_of_cons in Hr as [->|Hr]; [cbn; lia|]).
  apply elem_of_nil in Hr. contradiction.
Qed.

(** X.  The reserved labels are these thirteen and no other. *)
Theorem IsReserved_iff (s : string) :
  IsReserved s = true <->
  s ∈ ["www"; "api"; "admin"; "app"; "mail"; "ftp"; "blog"; "shop"; "status";
       "health"; "test"; "dev"; "staging"].
Proof.
  split; [apply IsReserved_elem|]. intros Hin.
  repeat (apply elem_of_cons in Hin as [->|Hin]; [vm_compute; reflexivity|]).
  apply elem_of_nil in Hin. contradiction.
Qed.

Lemma generate_attempts_Some (n : nat) (m : Manager) (rng rng' : RandReader)
    (s : string) :
  generate_attempts n m rng = (Some s, rng') ->
  map_bool (used m) s = false /\ IsReserved s = false /\
  String.length s = 6%nat /\ ValidateSubdomain s = true.
Proof.
  revert rng. induction n as [|n IH]; intros rng Hrun; cbn [generate_attempts] in Hrun.
  - discriminate.
  - pose proof (GenerateSubdomain_facts 6 rng) as (Hlen & _ & Hvalid).
    destruct (GenerateSubdomain 6 rng) as [subdomain rng1]. cbn [fst] in *.
    destruct (negb (map_bool (used m) subdomain) && negb (IsReserved subdomain))
      eqn:Hok.
    + injection Hrun as <- <-.
      apply andb_true_iff in Hok as [Hu Hr].
      apply negb_true_iff in Hu, Hr.
      repeat split; try assumption. apply Hvalid. cbn. lia.
    + apply (IH rng1 Hrun).
Qed.

(** X.  An automatic registration never fails, and the subdomain it assigns
    passes the syntax check and is not reserved; it has 6 characters and was
    not in use, or it is the fallback of 8 characters. *)
Theorem Register_auto (m : Manager) (conn : option nat) (rng : RandReader)
    (now : Z) :
  exists s m' rng',
    Register m conn "" rng now = (inr s, m', rng') /\
    ValidateSubdomain s = true /\ IsReserved s = false /\
    ((String.length s = 6%nat /\ map_bool (used m) s = false) \/
     String.length s = 8%nat) /\
    map_bool (used m') s = true /\
    exists tc, Get m' s = Some tc /\
               conns m' !! tc = Some (NewConnection s conn now).
Proof.
  unfold Register. cbn [String.eqb negb]. unfold generateUniqueSubdomain.
  destruct (generate_attempts maxAttempts m rng) as [[s|] rng1] eqn:Hgen.
  - destruct (generate_attempts_Some _ _ _ _ _ Hgen) as (Hu & Hr & Hl & Hv).
    exists s, (bind m s conn now), rng1.
    split; [reflexivity|]. split; [exact Hv|]. split; [exact Hr|].
    split; [left; auto|]. unfold bind, Get, map_bool. cbn [used tunnels conns].
    rewrite lookup_insert_eq. split; [reflexivity|].
    eexists. rewrite !lookup_insert_eq. split; reflexivity.
  - pose proof (GenerateSubdomain_facts 8 rng1) as (Hlen & _ & Hvalid).
    destruct (GenerateSubdomain 8 rng1) as [s rng2]. cbn [fst] in *.
    exists s, (bind m s conn now), rng2.
    split; [reflexivity|]. split; [apply Hvalid; cbn; lia|].
    split.
    { destruct (IsReserved s) eqn:Hr; [|reflexivity].
      apply reserved_length in Hr. rewrite Hlen in Hr. cbn in Hr. lia. }
    split; [right; exact Hlen|]. unfold bind, Get, map_bool. cbn [used tunnels conns].
    rewrite lookup_insert_eq. split; [reflexivity|].
    eexists. rewrite !lookup_insert_eq. split; reflexivity.
Qed.

End SubdomainFacts.

(** ** Request identifiers *)

Module IDFacts.
Import Bytes BytesFacts Utils UtilsFacts.

Local Open Scope string_scope.

(** X.  When the random source delivers, [GenerateID] is 32 lower-case
    hexadecimal characters, whatever the 16 bytes and the clock are. *)
Theorem GenerateID_random (src : CryptoRand) (timeNowString : string) :
  rand_fails src = false ->
  String.length (GenerateID src timeNowString) = 32%nat /\
  all_chars isHexChar (GenerateID src timeNowString) = true /\
  GenerateID src timeNowString = EncodeToString (map (rand_bytes src) (seq 0 16)).
Proof.
  intros Hok. unfold GenerateID, rand_Read. rewrite Hok.
  split; [|split; [apply EncodeToString_hex|reflexivity]].
  rewrite EncodeToString_length, length_map, length_seq. reflexivity.
Qed.

Lemma GenerateID_random_witness :
  String.length
    (GenerateID {| rand_fails := false;
                   rand_bytes := fun n => byte_of_Z (Z.of_nat n * 17) |} "")
  = 32%nat.
Proof.
  refine (proj1 (GenerateID_random _ "" _)). reflexivity.
Defined.

Lemma substring_length (n : nat) (s : string) :
  (n <= String.length s)%nat -> String.length (substring 0 n s) = n.
Proof.
  revert s. induction n as [|n IH]; intros s Hn.
  - destruct s; reflexivity.
  - destruct s as [|c s]; [cbn in Hn; lia|].
    cbn [substring String.length] in *. rewrite IH by lia. reflexivity.
Qed.

Lemma substring_all_chars (P : ascii -> bool) (n : nat) (s : string) :
  all_chars P s = true -> all_chars P (substring 0 n s) = true.
Proof.
  revert s. induction n as [|n IH]; intros s Hall.
  - destruct s; reflexivity.
  - destruct s as [|c s]; [reflexivity|].
    cbn [substring all_chars] in *. apply andb_true_iff in Hall as [Hc Hall].
    rewrite Hc, IH by exact Hall. reflexivity.
Qed.

(** X.  [GenerateShortID] is 8 lower-case hexadecimal characters: the
    encoding of 4 random bytes, or, when the random source fails, the first
    8 characters of the fallback ID, which the time string (of at least 4
    bytes) provides. *)
Theorem GenerateShortID_format (src : CryptoRand) (timeNowString : string) :
  (4 <= String.length timeNowString)%nat ->
  String.length (GenerateShortID src timeNowString) = 8%nat /\
  all_chars isHexChar (GenerateShortID src timeNowString) = true.
Proof.
  intros Htime. unfold GenerateShortID, rand_Read.
  destruct (rand_fails src).
  - unfold generateFallbackID. split.
    + apply substring_length.
      rewrite EncodeToString_length, list_byte_of_string_length. lia.
    + apply substring_all_chars, EncodeToString_hex.
  - split; [|apply EncodeToString_hex].
    rewrite EncodeToString_length, length_map, length_seq. reflexivity.
Qed.

Lemma GenerateShortID_format_witness :
  String.length
    (GenerateShortID {| rand_fails := true; rand_bytes := fun _ => x00 |}
       "2009-11-10 23:00:00 +0000 UTC m=+0.000000001") = 8%nat.
Proof.
  refine (proj1 (GenerateShortID_format _ _ _)). cbn. lia.
Defined.

End IDFacts.

(** ** The registry as its operations build it *)

Module RegistryFacts.
Import Utils UtilsFacts RegexFacts GoTime Tunnel TunnelFacts.

Local Open Scope string_scope.

(** The operations on a registry, each with what it reads from outside. *)
Inductive manager_op :=
  | OpRegister (conn : option nat) (customSubdomain : string)
      (rng : RandReader) (now : Z)
  | OpUnregister (subdomain : string)
  | OpCleanupStale (clock : string -> Z) (timeout : Z)
  | OpShutdown.

Definition apply_op (m : Manager) (o : manager_op) : Manager :=
  match o with
  | OpRegister conn customSubdomain rng now =>
      snd (fst (Register m conn customSubdomain rng now))
  | OpUnregister subdomain => Unregister m subdomain
  | OpCleanupStale clock timeout => snd (CleanupStale m clock timeout)
  | OpShutdown => Shutdown m
  end.

(** The used-set holds exactly the bound subdomains. *)
Definition used_iff_bound (m : Manager) : Prop :=
  forall s, map_bool (used m) s = true <-> is_Some (tunnels m !! s).

Definition inv (m : Manager) : Prop := wf m /\ used_iff_bound m.

Lemma Close_Subdomain (c : Connection) : Subdomain (Close c) = Subdomain c.
Proof. unfold Close. destruct (closed c); reflexivity. Qed.

Lemma inv_bind (m : Manager) (s : string) (conn : option nat) (now : Z) :
  inv m -> inv (bind m s conn now).
Proof.
  intros [Hwf Hused]. split.
  - intros s' tc Hb. unfold bind in *. cbn [tunnels conns] in *.
    apply lookup_insert_Some in Hb as [[<- <-]|[Hne Hb]].
    + exists (NewConnection s conn now). rewrite lookup_insert_eq. auto.
    + destruct (Hwf s' tc Hb) as (c & Hc & Hs). exists c. split; [|exact Hs].
      rewrite lookup_insert_ne; [exact Hc|]. intros <-.
      apply (is_fresh (dom (conns m))). apply elem_of_dom. eauto.
  - intros s'. unfold bind, map_bool. cbn [tunnels used].
    destruct (decide (s = s')) as [->|Hne].
    + rewrite !lookup_insert_eq. cbn. split; eauto.
    + rewrite !lookup_insert_ne by exact Hne. apply Hused.
Qed.

Lemma inv_remove (m : Manager) (s : string) : inv m -> inv (remove m s).
Proof.
  intros [Hwf Hused]. split.
  - intros s' tc Hb. rewrite remove_tunnels in Hb.
    destruct (decide (s = s')); [discriminate|].
    destruct (Hwf s' tc Hb) as (c & Hc & Hs). rewrite remove_conns.
    destruct (decide (tunnels m !! s = Some tc)).
    + exists (Close c). rewrite Hc. split; [reflexivity|].
      rewrite Close_Subdomain. exact Hs.
    + exists c. auto.
  - intros s'. unfold map_bool. rewrite remove_tunnels, remove_used.
    destruct (decide (s = s')) as [->|Hne].
    + destruct (tunnels m !! s') as [tc|] eqn:Hb.
      * rewrite decide_True by eauto. cbn. split; [discriminate|].
        intros Hs. destruct (is_Some_None Hs).
      * rewrite decide_False by (intros [_ Hs]; destruct (is_Some_None Hs)).
        pose proof (Hused s') as Hu. unfold map_bool in Hu. rewrite Hb in Hu.
        exact Hu.
    + rewrite decide_False by (intros [? _]; contradiction). apply Hused.
Qed.

Lemma inv_foldl_remove (L : list string) (m : Manager) :
  inv m -> inv (foldl remove m L).
Proof.
  revert m. induction L as [|x L IH]; intros m Hm; cbn [foldl]; [exact Hm|].
  apply IH, inv_remove, Hm.
Qed.

Lemma inv_apply_op (m : Manager) (o : manager_op) : inv m -> inv (apply_op m o).
Proof.
  intros Hm. destruct o as [conn cs rng now|s|clock timeout|]; cbn [apply_op].
  - unfold Register.
    destruct (negb (cs =? "")).
    + destruct (negb (ValidateSubdomain cs)); [exact Hm|].
      destruct (IsReserved cs); [exact Hm|].
      destruct (map_bool (used m) cs); [exact Hm|]. apply inv_bind, Hm.
    + destruct (generateUniqueSubdomain m rng). apply inv_bind, Hm.
  - apply inv_remove, Hm.
  - apply inv_foldl_remove, Hm.
  - split.
    + intros s tc Hb. cbn in Hb. rewrite lookup_empty in Hb. discriminate.
    + intros s. unfold map_bool. cbn [Shutdown used tunnels].
      rewrite !lookup_empty. cbn. split; [discriminate|].
      intros Hs. destruct (is_Some_None Hs).
Qed.

(** X.  In every registry that [Register], [Unregister], [CleanupStale] and
    [Shutdown] build from a new one, whatever their arguments, random
    sources and clocks: every binding points to a connection of the store
    that was made for that subdomain (so no connection is bound under two
    subdomains), and the used-set holds exactly the bound subdomains. *)
Lemma inv_NewManager : inv NewManager.
Proof.
  split.
  - intros s tc Hb. cbn in Hb. rewrite lookup_empty in Hb. discriminate.
  - intros s. unfold map_bool. cbn. rewrite !lookup_empty. cbn.
    split; [discriminate|]. intros Hs. destruct (is_Some_None Hs).
Qed.

Lemma inv_reachable (ops : list manager_op) : inv (foldl apply_op NewManager ops).
Proof.
  assert (Hinv : forall ops m0, inv m0 -> inv (foldl apply_op m0 ops)).
  { clear ops. intros ops. induction ops as [|o ops IH]; intros m0 H0; [exact H0|].
    cbn [foldl]. apply IH, inv_apply_op, H0. }
  apply Hinv, inv_NewManager.
Qed.

Theorem registry_invariant (ops : list manager_op) :
  let m := foldl apply_op NewManager ops in
  (forall s tc, Get m s = Some tc ->
     exists c, conns m !! tc = Some c /\ Subdomain c = s) /\
  (forall s1 s2 tc, Get m s1 = Some tc -> Get m s2 = Some tc -> s1 = s2) /\
  (forall s, map_bool (used m) s = true <-> is_Some (Get m s)).
Proof.
  intros m. destruct (inv_reachable ops) as [Hwf Hused]. fold m in Hwf, Hused.
  split; [exact Hwf|]. split; [|exact Hused].
  intros s1 s2 tc H1 H2.
  destruct (Hwf s1 tc H1) as (c1 & Hc1 & <-).
  destruct (Hwf s2 tc H2) as (c2 & Hc2 & <-). congruence.
Qed.

(** X.  A successful [Register] leaves every other subdomain and every
    connection of the store as they were, and adds one binding when the
    subdomain was not bound. *)
Theorem Register_frame (m : Manager) (conn : option nat) (cs : string)
    (rng : RandReader) (now : Z) (s : string) (m' : Manager) (rng' : RandReader) :
  Register m conn cs rng now = (inr s, m', rng') ->
  (forall s', s' <> s ->
     Get m' s' = Get m s' /\ used m' !! s' = used m !! s') /\
  (forall tc c, conns m !! tc = Some c -> conns m' !! tc = Some c) /\
  (Get m s = None -> Count m' = Count m + 1).
Proof.
  intros Hrun.
  assert (Hm' : m' = bind m s conn now).
  { unfold Register in Hrun. destruct (negb (cs =? "")).
    - destruct (negb (ValidateSubdomain cs)); [discriminate|].
      destruct (IsReserved cs); [discriminate|].
      destruct (map_bool (used m) cs); [discriminate|]. congruence.
    - destruct (generateUniqueSubdomain m rng). congruence. }
  subst m'. unfold bind, Get, Count. cbn [tunnels used conns].
  refine (conj _ (conj _ _)).
  - intros s' Hne. rewrite !lookup_insert_ne by congruence. auto.
  - intros tc c Hc. rewrite lookup_insert_ne; [exact Hc|]. intros <-.
    apply (is_fresh (dom (conns m))). apply elem_of_dom. eauto.
  - intros Hnone. rewrite map_size_insert_None by exact Hnone. lia.
Qed.

Lemma Register_frame_witness :
  Count (snd (fst (Register NewManager None "myapp" zeros 7))) = Count NewManager + 1.
Proof.
  refine (proj2 (proj2 (Register_frame NewManager None "myapp" zeros 7 "myapp"
                          _ zeros _)) _); vm_compute; reflexivity.
Defined.

(** X.  [Unregister] removes the binding and the used-entry of a bound
    subdomain and closes its connection, which stays in the store; it
    leaves every other subdomain as it was; on a subdomain that is not
    bound it changes nothing, so a second call is a no-op. *)
Theorem Unregister_spec (m : Manager) (s : string) :
  Get (Unregister m s) s = None /\
  (forall tc, Get m s = Some tc ->
     used (Unregister m s) !! s = None /\
     conns (Unregister m s) !! tc = Close <$> conns m !! tc) /\
  (forall s', s' <> s ->
     Get (Unregister m s) s' = Get m s' /\
     used (Unregister m s) !! s' = used m !! s') /\
  (Get m s = None -> Unregister m s = m) /\
  Unregister (Unregister m s) s = Unregister m s.
Proof.
  unfold Unregister, Get. refine (conj _ (conj _ (conj _ (conj _ _)))).
  - rewrite remove_tunnels, decide_True; reflexivity.
  - intros tc Hb. rewrite remove_used, remove_conns.
    rewrite decide_True by (rewrite Hb; eauto).
    rewrite decide_True by exact Hb. auto.
  - intros s' Hne. rewrite remove_tunnels, remove_used.
    rewrite decide_False by congruence.
    rewrite decide_False by (intros [? _]; congruence). auto.
  - intros Hnone. unfold remove. rewrite Hnone. reflexivity.
  - unfold remove at 1. rewrite remove_tunnels, decide_True; reflexivity.
Qed.

(** X.  A subdomain is free again once it is unregistered: in a registry
    built by the operations, [Register] of a valid, unreserved subdomain
    succeeds right after [Unregister] of it. *)
Theorem Register_after_Unregister (ops : list manager_op) (s : string)
    (conn : option nat) (rng : RandReader) (now : Z) :
  ValidateSubdomain s = true -> IsReserved s = false ->
  exists m',
    Register (Unregister (foldl apply_op NewManager ops) s) conn s rng now
    = (inr s, m', rng).
Proof.
  intros Hv Hr. set (m := foldl apply_op NewManager ops).
  assert (Hne : (s =? "") = false).
  { apply String.eqb_neq. intros ->. vm_compute in Hv. discriminate. }
  assert (Hfree : map_bool (used (Unregister m s)) s = false).
  { destruct (inv_remove m s (inv_reachable ops)) as [_ Hused].
    destruct (map_bool (used (Unregister m s)) s) eqn:Hu; [|reflexivity].
    apply Hused in Hu. rewrite remove_tunnels, decide_True in Hu by reflexivity.
    destruct (is_Some_None Hu). }
  unfold Register. rewrite Hne, Hv, Hr, Hfree. cbn [negb]. eauto.
Qed.

Lemma Register_after_Unregister_witness :
  exists m',
    Register
      (Unregister
         (foldl apply_op NewManager [OpRegister None "myapp" zeros 0]) "myapp")
      None "myapp" zeros 5
    = (inr "myapp", m', zeros).
Proof.
  apply (Register_after_Unregister [OpRegister None "myapp" zeros 0] "myapp");
    vm_compute; reflexivity.
Defined.

Lemma foldl_Close_conns (L : list (string * nat)) (cs : gmap nat Connection)
    (l : nat) :
  foldl (fun cs kv => alter Close (snd kv) cs) cs L !! l =
  if decide (Exists (fun kv => snd kv = l) L) then Close <$> cs !! l else cs !! l.
Proof.
  revert cs. induction L as [|[s tc] L IH]; intros cs; cbn [foldl snd].
  - rewrite decide_False; [reflexivity|]. intros Hex. apply Exists_nil in Hex.
    contradiction.
  - rewrite IH, lookup_alter.
    assert (Hcc : forall o : option Connection, Close <$> (Close <$> o) = Close <$> o).
    { intros [c|]; cbn; [rewrite Close_idempotent|]; reflexivity. }
    destruct (decide (tc = l)) as [->|Hne].
    + rewrite (decide_True (P := Exists _ (_ :: L)))
        by (apply Exists_cons; left; reflexivity).
      destruct (decide (Exists _ L)); [apply Hcc|reflexivity].
    + destruct (decide (Exists (fun kv => kv.2 = l) L)) as [H1|H1].
      * rewrite decide_True by (apply Exists_cons; right; exact H1). reflexivity.
      * rewrite decide_False; [reflexivity|].
        intros Hex. apply Exists_cons in Hex as [Hex|Hex]; [|contradiction].
        cbn in Hex. contradiction.
Qed.

(** X.  [Shutdown] closes every connection that is bound, leaves the other
    connections of the store alone, and empties the registry. *)
Theorem Shutdown_spec (m : Manager) :
  Count (Shutdown m) = 0 /\
  (forall s, Get (Shutdown m) s = None /\ map_bool (used (Shutdown m)) s = false) /\
  (forall s tc, Get m s = Some tc ->
     conns (Shutdown m) !! tc = Close <$> conns m !! tc) /\
  (forall tc, (forall s, Get m s <> Some tc) ->
     conns (Shutdown m) !! tc = conns m !! tc).
Proof.
  unfold Shutdown, Count, Get, map_bool. cbn [tunnels used conns].
  refine (conj _ (conj _ (conj _ _))).
  - rewrite map_size_empty. reflexivity.
  - intros s. rewrite !lookup_empty. split; reflexivity.
  - intros s tc Hb. rewrite foldl_Close_conns, decide_True; [reflexivity|].
    apply Exists_exists. exists (s, tc). split; [|reflexivity].
    apply elem_of_map_to_list. exact Hb.
  - intros tc Hnone. rewrite foldl_Close_conns, decide_False; [reflexivity|].
    intros Hex. apply Exists_exists in Hex as ([s tc'] & Hin & Heq).
    cbn in Heq. subst tc'. apply elem_of_map_to_list in Hin.
    exact (Hnone s Hin).
Qed.

End RegistryFacts.

(** ** The buffer pool and the buffers of decoded frames *)

Module BufferFacts.
Import Bytes BytesFacts Pool Protocol ProtocolFacts.

(** Every buffer waiting in a free list has the capacity of its class. *)
Definition pool_ok (p : BufferPool) : Prop :=
  Forall (fun b => buf_cap b = SizeSmall) (small p) /\
  Forall (fun b => buf_cap b = SizeMedium) (medium p) /\
  Forall (fun b => buf_cap b = SizeLarge) (large p).

(** The number of buffers waiting in the pool. *)
Definition free_count (p : BufferPool) : nat :=
  (length (small p) + length (medium p) + length (large p))%nat.

Lemma pool_Get_spec (free : list buffer) (size : Z) (next : nat) :
  Forall (fun b => buf_cap b = size) free ->
  buf_cap (fst (fst (pool_Get free size next))) = size /\
  Forall (fun b => buf_cap b = size) (snd (fst (pool_Get free size next))) /\
  (length free <= S (length (snd (fst (pool_Get free size next)))))%nat.
Proof.
  intros Hall. destruct free as [|b rest]; cbn.
  - repeat split; [constructor|lia].
  - apply Forall_cons in Hall as [Hb Hrest]. repeat split; [exact Hb|exact Hrest|lia].
Qed.

Lemma Get_capacity (p : BufferPool) (size : Z) :
  pool_ok p ->
  pool_ok (snd (Get p size)) /\
  (forall buf, pool_ok (Put p buf) /\ (free_count p <= free_count (Put p buf))%nat) /\
  buf_cap (fst (Get p size))
  = (if size <=? SizeSmall then SizeSmall
     else if size <=? SizeMedium then SizeMedium else SizeLarge) /\
  (size <= SizeLarge -> size <= buf_cap (fst (Get p size))) /\
  (SizeLarge < size -> buf_cap (fst (Get p size)) < size).
Proof.
  intros (Hs & Hm & Hl).
  assert (Hget : pool_ok (snd (Get p size)) /\
                 buf_cap (fst (Get p size))
                 = (if size <=? SizeSmall then SizeSmall
                    else if size <=? SizeMedium then SizeMedium else SizeLarge)).
  { unfold Get.
    destruct (size <=? SizeSmall); [|destruct (size <=? SizeMedium)].
    - destruct (pool_Get_spec (small p) SizeSmall (fresh p) Hs) as (Hc & Hr & _).
      destruct (pool_Get (small p) SizeSmall (fresh p)) as [[b rest] n].
      cbn [fst snd] in *. split; [|exact Hc]. repeat split; assumption.
    - destruct (pool_Get_spec (medium p) SizeMedium (fresh p) Hm) as (Hc & Hr & _).
      destruct (pool_Get (medium p) SizeMedium (fresh p)) as [[b rest] n].
      cbn [fst snd] in *. split; [|exact Hc]. repeat split; assumption.
    - destruct (pool_Get_spec (large p) SizeLarge (fresh p) Hl) as (Hc & Hr & _).
      destruct (pool_Get (large p) SizeLarge (fresh p)) as [[b rest] n].
      cbn [fst snd] in *. split; [|exact Hc]. repeat split; assumption. }
  destruct Hget as [Hok Hcap]. split; [exact Hok|]. split.
  { intros [b|]; [|cbn [Put]; split; [repeat split; assumption|lia]].
    unfold Put, free_count.
    destruct (Z.eqb_spec (buf_cap b) SizeSmall);
      [|destruct (Z.eqb_spec (buf_cap b) SizeMedium);
        [|destruct (Z.eqb_spec (buf_cap b) SizeLarge)]];
      cbn [small medium large length]; (split; [|lia]);
      repeat split; try assumption; constructor; assumption. }
  split; [exact Hcap|]. rewrite Hcap. unfold SizeSmall, SizeMedium, SizeLarge.
  split; intros Hsize.
  - destruct (Z.leb_spec size (4 * 1024)); [lia|].
    destruct (Z.leb_spec size (32 * 1024)); lia.
  - destruct (Z.leb_spec size (4 * 1024)); [lia|].
    destruct (Z.leb_spec size (32 * 1024)); lia.
Qed.

(** X.  A pool whose free buffers have the capacity of their class stays so
    under [Get] and [Put], [Put] never taking a buffer away; and [Get] then
    returns a buffer of the smallest class that holds [size] bytes, or, for
    a size beyond the largest class, a buffer of the largest class, which is
    smaller than [size]. *)
Theorem Get_class (p : BufferPool) (size : Z) :
  pool_ok p ->
  pool_ok (snd (Get p size)) /\
  (forall buf, pool_ok (Put p buf) /\ (free_count p <= free_count (Put p buf))%nat) /\
  buf_cap (fst (Get p size))
  = (if size <=? SizeSmall then SizeSmall
     else if size <=? SizeMedium then SizeMedium else SizeLarge) /\
  (size <= SizeLarge -> size <= buf_cap (fst (Get p size))) /\
  (SizeLarge < size -> buf_cap (fst (Get p size)) < size).
Proof. apply Get_capacity. Qed.

Lemma Get_class_witness :
  5000 <= buf_cap (fst (Get NewBufferPool 5000)).
Proof.
  refine (proj1 (proj2 (proj2 (proj2 (Get_class NewBufferPool 5000 _)))) _).
  - repeat split; constructor.
  - vm_compute. discriminate.
Defined.

(** X.  The buffer of a decoded frame.  From a pool whose free buffers have
    the capacity of their class, [ReadFrame] gives a frame a pool handle
    exactly when its payload has 1 byte to 256 KiB, the buffer is then at
    least as long as the payload, and the pool stays well formed.  A frame
    with an empty payload or a payload over 256 KiB has no handle. *)
Theorem ReadFrame_buffer (r : Reader) (m : Mem) (f : Frame) (r' : Reader)
    (m' : Mem) :
  pool_ok (pool m) ->
  ReadFrame r m = (inr f, r', m') ->
  pool_ok (pool m') /\
  (is_Some (poolBuffer f) <->
   0 < Z.of_nat (length (Payload f)) <= SizeLarge) /\
  (forall b, poolBuffer f = Some b -> Z.of_nat (length (Payload f)) <= buf_cap b).
Proof.
  intros Hok Hrun.
  unfold ReadFrame in Hrun.
  destruct (ReadFull r FrameHeaderSize) as [[e|header] r1] eqn:Hh; [discriminate|].
  assert (Hn : Uint32 (nth 0 header x00) (nth 1 header x00) (nth 2 header x00)
                 (nth 3 header x00) = Z.of_nat (length (Payload f))).
  { destruct (MaxFrameSize <? _); [discriminate|].
    destruct (0 <? _) eqn:Hpos.
    - destruct (SizeLarge <? _) eqn:Hbig.
      + destruct (ReadFull r1 _) as [[e|payload] r2] eqn:Hp; [discriminate|].
        injection Hrun as <- <- <-. cbn [Payload].
        unfold ReadFull in Hp. destruct (_ <=? _) eqn:Hle; [|discriminate].
        injection Hp as <- <-. rewrite length_take. apply Z.leb_le in Hle.
        apply Z.ltb_lt in Hpos. lia.
      + destruct (GetBuffer _ _) as [poolBuf q].
        destruct (ReadFull r1 _) as [[e|payload] r2] eqn:Hp; [discriminate|].
        injection Hrun as <- <- <-. cbn [Payload].
        unfold ReadFull in Hp. destruct (_ <=? _) eqn:Hle; [|discriminate].
        injection Hp as <- <-. rewrite length_take. apply Z.leb_le in Hle.
        apply Z.ltb_lt in Hpos. lia.
    - injection Hrun as <- <- <-. cbn [Payload length].
      apply Z.ltb_ge in Hpos.
      pose proof (Uint32_nonneg (nth 0 header x00) (nth 1 header x00)
                    (nth 2 header x00) (nth 3 header x00)). lia. }
  rewrite Hn in Hrun.
  set (k := Z.of_nat (length (Payload f))) in *.
  destruct (Z.ltb_spec MaxFrameSize k); [discriminate|].
  destruct (Z.ltb_spec 0 k) as [Hpos|Hzero].
  - destruct (Z.ltb_spec SizeLarge k) as [Hbig|Hsmall].
    + destruct (ReadFull r1 k) as [[e|payload] r2]; [discriminate|].
      injection Hrun as Hf <- <-. rewrite <- Hf. cbn [poolBuffer pool make].
      split; [exact Hok|]. split.
      * split; [intros Hs; destruct (is_Some_None Hs)|intros; lia].
      * intros b Hb. discriminate.
    + cbn [pool make] in Hrun.
      destruct (Get_capacity (pool m) k Hok) as (Hok' & _ & _ & Hcap & _).
      unfold GetBuffer in Hrun.
      destruct (Get (pool m) k) as [poolBuf q]. cbn [fst snd] in *.
      destruct (ReadFull r1 k) as [[e|payload] r2]; [discriminate|].
      injection Hrun as Hf <- <-. rewrite <- Hf. cbn [poolBuffer pool].
      split; [exact Hok'|]. split.
      * split; [intros _; lia|eauto].
      * intros b [= <-]. apply Hcap. exact Hsmall.
  - injection Hrun as Hf <- <-. rewrite <- Hf. cbn [poolBuffer pool make].
    split; [exact Hok|]. split.
    + split; [intros Hs; destruct (is_Some_None Hs)|intros; lia].
    + intros b Hb. discriminate.
Qed.

Lemma ReadFrame_buffer_witness :
  Z.of_nat (length [x68; x69]) <= buf_cap (Buffer 0 SizeSmall).
Proof.
  refine (proj2 (proj2
            (ReadFrame_buffer
               {| rd_data := [x00; x00; x00; x02; x05; x68; x69]; rd_end := EOF |}
               {| pool := NewBufferPool; made := [] |}
               {| Type_ := x05; Payload := [x68; x69];
                  poolBuffer := Some (Buffer 0 SizeSmall) |}
               {| rd_data := []; rd_end := EOF |}
               {| pool := {| small := []; medium := []; large := [];
                             fresh := 1 |};
                  made := [FrameHeaderSize] |} _ _)) _ eq_refl).
  - repeat split; constructor.
  - vm_compute. reflexivity.
Defined.

(** The payload length that the header of the next frame gives. *)
Definition announced (r : Reader) : option Z :=
  match ReadFull r FrameHeaderSize with
  | (inr header, _) =>
      Some (Uint32 (nth 0 header x00) (nth 1 header x00) (nth 2 header x00)
              (nth 3 header x00))
  | (inl _, _) => None
  end.

(** X.  No buffer is kept.  [ReadFrame] takes a buffer from the pool only
    for a header that gives a payload of 1 byte to 256 KiB, and then one
    buffer, for that length.  When the read
    of the payload fails, that buffer is handed to [PutBuffer] before the
    error is returned.  When it succeeds, the frame carries that buffer, and
    [Release] hands it to [PutBuffer] and clears the handle and the payload.
    On every other path the pool is not touched and a frame that is
    returned has no handle. *)
Theorem ReadFrame_returns_buffers (r : Reader) (m : Mem) (res : error + Frame)
    (r' : Reader) (m' : Mem) :
  ReadFrame r m = (res, r', m') ->
  (pool m' = pool m /\
   match res with
   | inl _ => True
   | inr f => poolBuffer f = None
   end) \/
  (exists n, announced r = Some n /\ 0 < n <= SizeLarge /\
     match res with
     | inl _ =>
         pool m'
         = PutBuffer (snd (GetBuffer (pool m) n))
             (Some (fst (GetBuffer (pool m) n)))
     | inr f =>
         Z.of_nat (length (Payload f)) = n /\
         poolBuffer f = Some (fst (GetBuffer (pool m) n)) /\
         pool m' = snd (GetBuffer (pool m) n) /\
         Release f (pool m')
         = ({| Type_ := Type_ f; Payload := []; poolBuffer := None |},
            PutBuffer (pool m') (Some (fst (GetBuffer (pool m) n))))
     end).
Proof.
  intros Hrun. unfold ReadFrame in Hrun. unfold announced.
  destruct (ReadFull r FrameHeaderSize) as [[e|header] r1].
  { injection Hrun as <- <- <-. left. split; [reflexivity|exact I]. }
  match type of Hrun with context [MaxFrameSize <? ?n] => set (k := n) in * end.
  destruct (MaxFrameSize <? k).
  { injection Hrun as <- <- <-. left. split; [reflexivity|exact I]. }
  destruct (Z.ltb_spec 0 k) as [Hpos|Hzero].
  - destruct (Z.ltb_spec SizeLarge k) as [Hbig|Hsmall].
    + destruct (ReadFull r1 k) as [[e|payload] r2];
        injection Hrun as <- <- <-; left; split; reflexivity || exact I.
    + right. exists k. split; [reflexivity|]. split; [lia|].
      cbn [pool make] in Hrun.
      destruct (GetBuffer (pool m) k) as [poolBuf q]. cbn [fst snd].
      destruct (ReadFull r1 k) as [[e|payload] r2] eqn:Hp.
      * injection Hrun as <- <- <-. reflexivity.
      * injection Hrun as <- <- <-. cbn [pool poolBuffer Payload Type_].
        unfold ReadFull in Hp. destruct (Z.leb_spec k (Z.of_nat (length (rd_data r1))));
          [|discriminate].
        injection Hp as <- <-. rewrite length_take.
        split; [lia|]. split; [reflexivity|]. split; reflexivity.
  - injection Hrun as <- <- <-. left. split; reflexivity.
Qed.

Lemma ReadFrame_returns_buffers_witness :
  pool (snd (ReadFrame {| rd_data := [x00; x00; x00; x02; x05; x68];
                          rd_end := EOF |}
                       {| pool := NewBufferPool; made := [] |}))
  = PutBuffer (snd (GetBuffer NewBufferPool 2))
      (Some (fst (GetBuffer NewBufferPool 2))).
Proof.
  destruct (ReadFrame_returns_buffers
              {| rd_data := [x00; x00; x00; x02; x05; x68]; rd_end := EOF |}
              {| pool := NewBufferPool; made := [] |} (inl _) _ _ eq_refl)
    as [[Hsame _]|(n & Hhead & _ & Hput)].
  - vm_compute in Hsame. discriminate.
  - vm_compute in Hhead. injection Hhead as <-. exact Hput.
Defined.

End BufferFacts.

(** ** A stream of frames *)

Module StreamFacts.
Import Bytes BytesFacts Pool Protocol ProtocolFacts.

(** [WriteFrame] on each frame in turn, up to the first error. *)
Fixpoint write_all {W} `{Writer W} (w : W) (frames : list Frame) : W * option error :=
  match frames with
  | [] => (w, None)
  | frame :: rest =>
      match WriteFrame w frame with
      | (w, None) => write_all w rest
      | (w, Some err) => (w, Some err)
      end
  end.

(** [ReadFrame] called [n] times in a row, up to the first error. *)
Fixpoint read_n (n : nat) (r : Reader) (m : Mem)
  : (error + list Frame) * Reader * Mem :=
  match n with
  | O => (inr [], r, m)
  | S n =>
      match ReadFrame r m with
      | (inl err, r, m) => (inl err, r, m)
      | (inr f, r, m) =>
          match read_n n r m with
          | (inl err, r, m) => (inl err, r, m)
          | (inr fs, r, m) => (inr (f :: fs), r, m)
          end
      end
  end.

Definition wire (frames : list Frame) : list byte :=
  concat (map (fun f => encode (Type_ f) (Payload f)) frames).

Definition content (f : Frame) : FrameType * list byte := (Type_ f, Payload f).

Lemma write_all_buffer (frames : list Frame) (sink : list byte) :
  Forall (fun f => Z.of_nat (length (Payload f)) <= MaxFrameSize) frames ->
  write_all sink frames = (sink ++ wire frames, None).
Proof.
  revert sink. induction frames as [|f frames IH]; intros sink Hall;
    cbn [write_all wire map concat].
  - rewrite app_nil_r. reflexivity.
  - apply Forall_cons in Hall as [Hf Hall].
    rewrite (WriteFrame_buffer sink f Hf), (IH _ Hall).
    unfold wire. rewrite app_assoc. reflexivity.
Qed.

Lemma read_n_wire (frames : list Frame) (rest : list byte) (e : io_error)
    (m : Mem) :
  Forall (fun f => Z.of_nat (length (Payload f)) <= MaxFrameSize) frames ->
  exists fs m',
    read_n (length frames) {| rd_data := wire frames ++ rest; rd_end := e |} m
    = (inr fs, {| rd_data := rest; rd_end := e |}, m') /\
    map content fs = map content frames.
Proof.
  revert m. induction frames as [|f frames IH]; intros m Hall;
    cbn [read_n length wire map concat].
  - exists [], m. split; reflexivity.
  - apply Forall_cons in Hall as [Hf Hall].
    rewrite <- app_assoc.
    rewrite (ReadFrame_encode (Type_ f) (Payload f) _ e m Hf).
    destruct (IH (mem_after_read (Z.of_nat (length (Payload f))) m) Hall)
      as (fs & m' & Hread & Hfs).
    fold (wire frames). rewrite Hread.
    eexists (_ :: fs), m'. split; [reflexivity|].
    cbn [map]. rewrite Hfs. reflexivity.
Qed.

(** X.  A stream of frames survives the wire.  Frames of at most 10 MiB
    written one after the other to a sink that keeps its bytes are read back
    by as many calls of [ReadFrame], with the same types and payloads in the
    same order, and what follows them in the stream is left unread: the read
    of one frame does not reach into the next. *)
Theorem stream_round_trip (frames : list Frame) :
  Forall (fun f => Z.of_nat (length (Payload f)) <= MaxFrameSize) frames ->
  exists bytes : list byte,
    write_all [] frames = (bytes, None) /\
    forall (rest : list byte) (e : io_error) (m : Mem),
    exists fs m',
      read_n (length frames) {| rd_data := bytes ++ rest; rd_end := e |} m
      = (inr fs, {| rd_data := rest; rd_end := e |}, m') /\
      map content fs = map content frames.
Proof.
  intros Hall. exists (wire frames). split.
  - apply (write_all_buffer frames [] Hall).
  - intros rest e m. apply read_n_wire, Hall.
Qed.

Lemma stream_round_trip_witness :
  exists bytes : list byte,
    write_all [] [NewFrame FrameTypeRegister [x7b; x7d]; NewFrame FrameTypeHeartbeat []]
    = (bytes, None) /\
    exists fs m',
      read_n 2 {| rd_data := bytes ++ [x00]; rd_end := EOF |}
        {| pool := NewBufferPool; made := [] |}
      = (inr fs, {| rd_data := [x00]; rd_end := EOF |}, m') /\
      map content fs = [(FrameTypeRegister, [x7b; x7d]); (FrameTypeHeartbeat, [])].
Proof.
  destruct (stream_round_trip
              [NewFrame FrameTypeRegister [x7b; x7d]; NewFrame FrameTypeHeartbeat []])
    as (bytes & Hw & Hr).
  - repeat constructor; vm_compute; discriminate.
  - exists bytes. split; [exact Hw|].
    exact (Hr [x00] EOF {| pool := NewBufferPool; made := [] |}).
Defined.

End StreamFacts.

(** ** The batching writer: shutdown, order, bounds *)

Module BatchWriterMore.
Import Bytes Pool Protocol ProtocolFacts StreamFacts BatchWriter BatchWriterFacts.

Local Ltac fields :=
  cbn [set_conn set_queue set_batch set_closed set_heartbeat
       set_error set_onWriteError set_adaptive set_loop set_bufpool
       conn queue queue_cap queue_closed batch done closed maxBatch
       maxBatchWait heartbeatInterval heartbeatCallback heartbeatEnabled
       heartbeatControl writeErr errOnce onWriteError adaptiveFlush
       lowConcurrencyThreshold heartbeatTicker running spawned bufpool].

Section any_sink.
Context {W : Type} `{Writer W}.

(** X.  A flush gives back the buffers of all the frames of the batch,
    whether their writes succeed or fail, and leaves the batch empty. *)
Theorem flush_releases_batch (w : FrameWriter W) :
  batch (flushBatchLocked w) = [] /\
  bufpool (flushBatchLocked w) = release_all (batch w) (bufpool w).
Proof.
  destruct (flushBatchLocked_frame w) as (Hb & _ & _ & _ & _ & _ & _ & Hp).
  split; assumption.
Qed.

(** The queue holds no more than its capacity, and the batch is empty or
    shorter than [maxBatch]. *)
Definition bounded (w : FrameWriter W) : Prop :=
  (length (queue w) <= queue_cap w)%nat /\
  (batch w = [] \/ Z.of_nat (length (batch w)) < maxBatch w).

Lemma step_bounded (w : FrameWriter W) (o : op) :
  bounded w ->
  bounded (step w o) /\ queue_cap (step w o) = queue_cap w /\
  maxBatch (step w o) = maxBatch w.
Proof.
  intros [Hq Hb].
  assert (Hflush : forall w' : FrameWriter W,
             (length (queue w') <= queue_cap w')%nat ->
             queue_cap w' = queue_cap w -> maxBatch w' = maxBatch w ->
             bounded (flushBatchLocked w') /\
             queue_cap (flushBatchLocked w') = queue_cap w /\
             maxBatch (flushBatchLocked w') = maxBatch w).
  { intros w' Hq' Hc' Hm'.
    destruct (flushBatchLocked_frame w') as (Hb1 & Hq1 & Hc1 & _ & _ & Hm1 & _).
    unfold bounded. rewrite Hb1, Hq1, Hc1, Hm1. auto. }
  destruct o as [frame pick|c| | |handler|interval callback| |threshold|];
    cbn [step].
  - unfold FrameWriter_WriteFrame. destruct (closed w); [unfold bounded; auto|].
    destruct (queue_closed w) eqn:Hqc; cbn [orb].
    + destruct (negb (done w && pick)); cbn [andb snd]; [unfold bounded; auto|].
      destruct (done w); unfold bounded; auto.
    + destruct (Nat.ltb_spec (length (queue w)) (queue_cap w)) as [Hroom|Hfull];
        cbn [andb].
      * destruct (negb (done w && pick)); cbn [snd].
        -- unfold bounded. fields. rewrite length_app. cbn [length].
           repeat split; [lia|exact Hb].
        -- destruct (done w); unfold bounded; auto.
      * destruct (done w); unfold bounded; auto.
  - unfold writeLoop_step. destruct (running w); cbn [negb]; [|unfold bounded; auto].
    destruct c.
    + destruct (queue w) as [|frame rest] eqn:Hqueue.
      * destruct (queue_closed w); [|unfold bounded; rewrite Hqueue; auto].
        destruct (Hflush w) as (Hb' & Hc' & Hm');
          [rewrite Hqueue; cbn; lia|reflexivity|reflexivity|].
        unfold bounded in *. fields. auto.
      * cbn [length] in Hq.
        match goal with
        | |- context [if ?b then flushBatchLocked ?w' else _] =>
            destruct b eqn:Hnow; [apply (Hflush w'); fields; try reflexivity; lia|]
        end.
        unfold bounded. fields. apply orb_false_iff in Hnow as [Hlt _].
        apply Z.leb_gt in Hlt. repeat split; [lia|right; exact Hlt].
    + destruct (0 <? length (batch w))%nat; [|unfold bounded; auto].
      apply Hflush; [exact Hq|reflexivity|reflexivity].
    + destruct (heartbeatTicker w); [|unfold bounded; auto].
      destruct (heartbeatCallback w) as [[frame|]|]; try (unfold bounded; auto).
      apply Hflush; fields; [exact Hq|reflexivity|reflexivity].
    + destruct (heartbeatControl w); unfold bounded; fields; auto.
    + destruct (done w); [|unfold bounded; auto].
      destruct (Hflush w) as (Hb' & Hc' & Hm'); [lia|reflexivity|reflexivity|].
      unfold bounded in *. fields. auto.
  - unfold Close. destruct (closed w); cbn [default from_option id]; [unfold bounded; auto|].
    destruct (queue_closed w || done w); cbn [default from_option id]; [unfold bounded; auto|].
    unfold bounded. fields. repeat split; [cbn [length]; lia|exact Hb].
  - unfold Flush. destruct (closed w); cbn [default from_option id]; [unfold bounded; auto|].
    destruct (queue_closed w); cbn [default from_option id]; [unfold bounded; auto|].
    apply Hflush; fields; [cbn [length]; lia|reflexivity|reflexivity].
  - unfold bounded, SetWriteErrorHandler. fields. auto.
  - unfold bounded, EnableHeartbeat. fields. auto.
  - unfold bounded, DisableHeartbeat. fields. auto.
  - unfold bounded, EnableAdaptiveFlush. fields. auto.
  - unfold bounded, DisableAdaptiveFlush. fields. auto.
Qed.

Lemma run_bounded (ops : list op) (w : FrameWriter W) :
  bounded w ->
  bounded (run w ops) /\ queue_cap (run w ops) = queue_cap w /\
  maxBatch (run w ops) = maxBatch w.
Proof.
  revert w. induction ops as [|o ops IH]; intros w Hb; [auto|].
  unfold run in *. cbn [foldl].
  destruct (step_bounded w o Hb) as (Hb1 & Hc1 & Hm1).
  destruct (IH (step w o) Hb1) as (Hb2 & Hc2 & Hm2).
  repeat split; try apply Hb2; congruence.
Qed.

(** X.  Bounded memory.  Whatever is done with a writer made by
    [NewFrameWriterWithConfig] (submissions, turns of the write loop,
    [Flush], [Close], settings), its queue never holds more than [queueSize]
    frames, and between two operations its batch is empty or holds fewer
    than [maxBatch] frames. *)
Theorem writer_bounded (c : W) (maxBatch_ maxBatchWait_ : Z) (queueSize : nat)
    (p : BufferPool) (ops : list op) :
  let w := run (NewFrameWriterWithConfig c maxBatch_ maxBatchWait_ queueSize p) ops in
  (length (queue w) <= queueSize)%nat /\
  (batch w = [] \/ Z.of_nat (length (batch w)) < maxBatch_).
Proof.
  intros w.
  destruct (run_bounded ops (NewFrameWriterWithConfig c maxBatch_ maxBatchWait_
                               queueSize p)) as ([Hq Hb] & Hc & Hm).
  { split; cbn; [lia|auto]. }
  fold w in Hq, Hb, Hc, Hm. cbn in Hc, Hm. rewrite Hc in Hq. rewrite Hm in Hb.
  split; assumption.
Qed.


End any_sink.


End BatchWriterMore.

(** ** The batching writer on a connection that keeps its bytes *)

Module BatchWriterOrder.
Import Bytes Pool Protocol ProtocolFacts StreamFacts BatchWriter BatchWriterMore.

Local Ltac fields :=
  cbn [set_conn set_queue set_batch set_closed set_heartbeat
       set_error set_onWriteError set_adaptive set_loop set_bufpool
       conn queue queue_cap queue_closed batch done closed maxBatch
       maxBatchWait heartbeatInterval heartbeatCallback heartbeatEnabled
       heartbeatControl writeErr errOnce onWriteError adaptiveFlush
       lowConcurrencyThreshold heartbeatTicker running spawned bufpool].

Definition fits (frames : list Frame) : Prop :=
  Forall (fun f => Z.of_nat (length (Payload f)) <= MaxFrameSize) frames.

(** On a connection that never fails, a flush is the bytes of the frames
    appended and their buffers released, and nothing else. *)
Lemma flush_frames_buffer (frames : list Frame) (w : FrameWriter (list byte)) :
  fits frames ->
  flush_frames w frames
  = set_bufpool (set_conn w (conn w ++ wire frames))
      (release_all frames (bufpool w)).
Proof.
  revert w. induction frames as [|f frames IH]; intros w Hfit;
    cbn [flush_frames wire map concat release_all foldl].
  - destruct w. fields. rewrite app_nil_r. reflexivity.
  - apply Forall_cons in Hfit as [Hf Hfit].
    rewrite (WriteFrame_buffer (conn w) f Hf). rewrite IH by exact Hfit.
    fields. unfold release_all, wire. rewrite app_assoc. reflexivity.
Qed.

Lemma flushBatchLocked_buffer (w : FrameWriter (list byte)) :
  fits (batch w) ->
  flushBatchLocked w
  = set_batch (set_bufpool (set_conn w (conn w ++ wire (batch w)))
                 (release_all (batch w) (bufpool w))) [].
Proof.
  intros Hfit. unfold flushBatchLocked. destruct (batch w) as [|f l] eqn:Hb.
  - destruct w. cbn in Hb. subst. fields. cbn. rewrite app_nil_r. reflexivity.
  - rewrite flush_frames_buffer by exact Hfit. reflexivity.
Qed.




(** X.  Adaptive flush.  When the write loop takes a frame from the queue
    and adaptive flush is on with no more than [lowConcurrencyThreshold]
    frames left in the queue, the batch is written at once, the new frame
    last.  With adaptive flush off and the batch still under [maxBatch], the
    frame only joins the batch and nothing is written. *)
Theorem adaptive_flush (w : FrameWriter (list byte)) (frame : Frame)
    (rest : list Frame) :
  running w = true -> queue w = frame :: rest ->
  fits (batch w ++ [frame]) ->
  (adaptiveFlush w = true ->
   Z.of_nat (length rest) <= lowConcurrencyThreshold w ->
   conn (writeLoop_step w RecvQueue) = conn w ++ wire (batch w ++ [frame]) /\
   batch (writeLoop_step w RecvQueue) = [] /\
   queue (writeLoop_step w RecvQueue) = rest) /\
  (adaptiveFlush w = false ->
   Z.of_nat (length (batch w)) + 1 < maxBatch w ->
   conn (writeLoop_step w RecvQueue) = conn w /\
   batch (writeLoop_step w RecvQueue) = batch w ++ [frame] /\
   queue (writeLoop_step w RecvQueue) = rest).
Proof.
  intros Hrun Hqueue Hfit. unfold writeLoop_step. rewrite Hrun, Hqueue.
  cbn [negb]. fields. split.
  - intros Ha Hlow. rewrite Ha. cbn [andb].
    destruct (Z.leb_spec (Z.of_nat (length rest)) (lowConcurrencyThreshold w)); [|lia].
    rewrite orb_true_r.
    rewrite flushBatchLocked_buffer by (fields; exact Hfit).
    fields. repeat split.
  - intros Ha Hsmall. rewrite Ha. cbn [andb]. rewrite orb_false_r.
    destruct (Z.leb_spec (maxBatch w) (Z.of_nat (length (batch w ++ [frame]))))
      as [Hfull|_].
    + rewrite length_app in Hfull. cbn [length] in Hfull. lia.
    + fields. repeat split.
Qed.

Lemma adaptive_flush_witness :
  conn (writeLoop_step
          (set_queue (NewFrameWriter ([] : list byte) NewBufferPool)
             [NewFrame FrameTypeData [x01]] false) RecvQueue)
  = [] ++ wire ([] ++ [NewFrame FrameTypeData [x01]]).
Proof.
  refine (proj1 (proj1 (adaptive_flush
                          (set_queue (NewFrameWriter ([] : list byte) NewBufferPool)
                             [NewFrame FrameTypeData [x01]] false)
                          (NewFrame FrameTypeData [x01]) [] _ _ _) _ _));
    try reflexivity.
  - repeat constructor; vm_compute; discriminate.
  - vm_compute. discriminate.
Defined.

(** X.  Heartbeats.  [EnableHeartbeat] takes effect at the next turn of the
    write loop through its control case, which sets the ticker exactly when
    the interval is positive; [DisableHeartbeat] followed by that turn stops
    it.  At a tick, the frame the callback returns is written after the
    frames of the batch, in the same flush; without a callback, or when the
    callback returns nil, a tick changes nothing. *)
Theorem heartbeat_path (w : FrameWriter (list byte)) (interval : Z)
    (callback : option (option Frame)) :
  running w = true ->
  heartbeatTicker
    (writeLoop_step (EnableHeartbeat w interval callback) HeartbeatControl)
  = (0 <? interval) /\
  heartbeatTicker (writeLoop_step (DisableHeartbeat w) HeartbeatControl) = false /\
  (forall hb, heartbeatTicker w = true -> heartbeatCallback w = Some (Some hb) ->
     fits (batch w ++ [hb]) ->
     conn (writeLoop_step w HeartbeatTick) = conn w ++ wire (batch w ++ [hb]) /\
     batch (writeLoop_step w HeartbeatTick) = []) /\
  (heartbeatCallback w = None \/ heartbeatCallback w = Some None ->
   writeLoop_step w HeartbeatTick = w).
Proof.
  intros Hrun. unfold writeLoop_step, EnableHeartbeat, DisableHeartbeat.
  fields. rewrite Hrun. cbn [negb andb]. refine (conj _ (conj _ (conj _ _))).
  - reflexivity.
  - reflexivity.
  - intros hb Ht Hcb Hfit. rewrite Ht, Hcb.
    rewrite flushBatchLocked_buffer by (fields; exact Hfit).
    fields. split; reflexivity.
  - intros [Hcb|Hcb]; rewrite Hcb; destruct (heartbeatTicker w); reflexivity.
Qed.

Lemma heartbeat_path_witness :
  heartbeatTicker
    (writeLoop_step
       (EnableHeartbeat (NewFrameWriter ([] : list byte) NewBufferPool)
          (30 * 1000000000) (Some (Some (NewFrame FrameTypeHeartbeat []))))
       HeartbeatControl)
  = (0 <? 30 * 1000000000).
Proof.
  refine (proj1 (heartbeat_path _ _ _ _)). reflexivity.
Defined.

End BatchWriterOrder.

(** ** The response handler: waiting for a reply *)

Module ResponseFacts.
Import GoTime Proxy.

Local Open Scope string_scope.

(** X.  A reply reaches its waiter.  [CreateResponseChan] makes a new, open,
    empty channel of capacity 1 and binds the request ID to it, other IDs
    keeping their entries; [SendResponse] then puts the response into that
    channel; and a second response for the same ID, while the first is
    unread and no receiver comes within the 5 seconds, is dropped with a
    warning, the channel keeping the first. *)
Theorem response_delivery (h : ResponseHandler) (requestID : string) (now : Z)
    (resp resp2 : HTTPResponse) (room_in_time : bool) :
  let c := fst (CreateResponseChan h requestID now) in
  let h1 := snd (CreateResponseChan h requestID now) in
  chans h !! c = None /\
  GetResponseChan h1 requestID = Some c /\
  (forall other, other <> requestID ->
     GetResponseChan h1 other = GetResponseChan h other) /\
  exists h2,
    SendResponse h1 requestID resp room_in_time = Some h2 /\
    chans h2 !! c = Some {| buf := [resp]; cap := 1; ch_closed := false |} /\
    channels h2 = channels h1 /\
    exists h3,
      SendResponse h2 requestID resp2 false = Some h3 /\
      chans h3 = chans h2 /\ channels h3 = channels h2 /\
      logger h3 = (logger h2 ++ [WarnTimeout requestID])%list.
Proof.
  intros c h1. subst c h1. unfold CreateResponseChan. cbn [fst snd].
  set (c := fresh (dom (chans h))).
  split; [apply not_elem_of_dom, is_fresh|].
  split; [unfold GetResponseChan; cbn [channels]; rewrite lookup_insert_eq; reflexivity|].
  split.
  { intros other Hne. unfold GetResponseChan. cbn [channels].
    rewrite lookup_insert_ne by congruence. reflexivity. }
  unfold SendResponse at 1. cbn [channels chans ch].
  rewrite !lookup_insert_eq. cbn [ch_closed buf cap length Nat.ltb Nat.leb app].
  eexists. split; [reflexivity|].
  unfold add_log, set_chan. cbn [chans channels logger].
  split; [rewrite lookup_insert_eq; reflexivity|]. split; [reflexivity|].
  unfold SendResponse. cbn [channels chans ch].
  rewrite !lookup_insert_eq. cbn [ch_closed buf cap length Nat.ltb Nat.leb app].
  eexists. split; [reflexivity|]. repeat split.
Qed.

(** X.  Giving up a request.  [CleanupResponseChan] on an ID whose channel is
    open removes the entry and closes the channel, the other entries staying;
    the number of pending requests goes down by one; a response that arrives
    for the ID afterwards is dropped with a warning and reaches no channel;
    and a second [CleanupResponseChan] changes nothing. *)
Theorem cleanup_then_late_response (h : ResponseHandler) (requestID : string)
    (entry : responseChanEntry) (c : channel) (resp : HTTPResponse)
    (room_in_time : bool) :
  channels h !! requestID = Some (Some entry) ->
  chans h !! ch entry = Some c ->
  ch_closed c = false ->
  exists h',
    CleanupResponseChan h requestID = Some h' /\
    GetResponseChan h' requestID = None /\
    (forall other, other <> requestID -> channels h' !! other = channels h !! other) /\
    chans h' !! ch entry = Some {| buf := buf c; cap := cap c; ch_closed := true |} /\
    GetPendingCount h' = GetPendingCount h - 1 /\
    SendResponse h' requestID resp room_in_time
    = Some (add_log h' (WarnNotFound requestID)) /\
    CleanupResponseChan h' requestID = Some h'.
Proof.
  intros He Hc Hopen. unfold CleanupResponseChan at 1, close_chan.
  rewrite He, Hc, Hopen. eexists. split; [reflexivity|].
  unfold GetResponseChan, GetPendingCount, SendResponse, CleanupResponseChan.
  cbn [channels chans]. rewrite !lookup_delete_eq, lookup_insert_eq.
  repeat split.
  - intros other Hne. rewrite lookup_delete_ne by congruence. reflexivity.
  - rewrite map_size_delete, He.
    assert (size (channels h) <> 0%nat)
      by (apply map_size_ne_0_lookup_2 with requestID; eauto).
    lia.
Qed.

Lemma cleanup_then_late_response_witness :
  exists h',
    CleanupResponseChan (snd (CreateResponseChan NewResponseHandler "req-1" 0)) "req-1"
    = Some h' /\
    GetResponseChan h' "req-1" = None.
Proof.
  destruct (cleanup_then_late_response
              (snd (CreateResponseChan NewResponseHandler "req-1" 0)) "req-1"
              {| ch := 0; createdAt := 0 |}
              {| buf := []; cap := 1; ch_closed := false |}
              {| StatusCode := 200; Status := "200 OK"; Headers := []; Body := [] |}
              false) as (h' & Hrun & Hget & _); try (vm_compute; reflexivity).
  exists h'. split; assumption.
Defined.

End ResponseFacts.

(** ** The response handler: the sweeper *)

Module SweeperFacts.
Import GoTime Proxy.

(** Every entry of the map is a pointer to an entry with an open channel of
    the store, and no channel belongs to two request IDs. *)
Definition handler_ok (h : ResponseHandler) : Prop :=
  (forall id e, channels h !! id = Some e ->
     exists entry c, e = Some entry /\ chans h !! ch entry = Some c /\
                     ch_closed c = false) /\
  (forall id1 id2 e1 e2,
     channels h !! id1 = Some (Some e1) -> channels h !! id2 = Some (Some e2) ->
     ch e1 = ch e2 -> id1 = id2).

Definition expired (now : Z) (e : option responseChanEntry) : bool :=
  match e with
  | Some entry => timeout <? Sub now (createdAt entry)
  | None => false
  end.

Definition close1 (c : channel) : channel :=
  {| buf := buf c; cap := cap c; ch_closed := true |}.

Definition entries_ok (L : list (string * option responseChanEntry))
    (cs : gmap nat channel) : Prop :=
  NoDup (L.*1) /\
  (forall id e, (id, e) ∈ L ->
     exists entry c, e = Some entry /\ cs !! ch entry = Some c /\
                     ch_closed c = false) /\
  (forall id1 id2 e1 e2, (id1, Some e1) ∈ L -> (id2, Some e2) ∈ L ->
     ch e1 = ch e2 -> id1 = id2).

Lemma entries_ok_tail (id : string) (e : option responseChanEntry)
    (L : list (string * option responseChanEntry)) (cs : gmap nat channel) :
  entries_ok ((id, e) :: L) cs -> entries_ok L cs.
Proof.
  intros (Hnd & Hopen & Hinj). cbn [fmap list_fmap fst] in Hnd.
  apply NoDup_cons in Hnd as [_ Hnd]. split; [exact Hnd|]. split.
  - intros id' e' Hin. apply (Hopen id' e'). set_solver.
  - intros id1 id2 e1 e2 H1 H2. apply (Hinj id1 id2 e1 e2); set_solver.
Qed.

Lemma head_channel_fresh (id : string) (entry : responseChanEntry)
    (L : list (string * option responseChanEntry)) (cs : gmap nat channel) :
  entries_ok ((id, Some entry) :: L) cs ->
  forall id' entry', (id', Some entry') ∈ L -> ch entry' <> ch entry.
Proof.
  intros (Hnd & _ & Hinj) id' entry' Hin Heq.
  cbn [fmap list_fmap fst] in Hnd. apply NoDup_cons in Hnd as [Hnotin _].
  assert (id' = id) as -> by (apply (Hinj id' id entry' entry); set_solver).
  apply Hnotin. apply list_elem_of_fmap. exists (id, Some entry'). auto.
Qed.

Lemma expire_fold (now : Z) (L : list (string * option responseChanEntry))
    (h0 : ResponseHandler) (k : Z) :
  entries_ok L (chans h0) ->
  exists h' k',
    foldl (expire_one now) (Some (h0, k)) L = Some (h', k') /\
    (forall id,
       channels h' !! id =
       if decide (Exists (fun kv => fst kv = id /\ expired now (snd kv) = true) L)
       then None else channels h0 !! id) /\
    (forall l,
       chans h' !! l =
       if decide (Exists (fun kv => expired now (snd kv) = true /\
                                    ch <$> snd kv = Some l) L)
       then close1 <$> chans h0 !! l else chans h0 !! l) /\
    logger h' = logger h0.
Proof.
  revert h0 k. induction L as [|[id e] L IH]; intros h0 k Hok.
  - exists h0, k. split; [reflexivity|]. split; [|split; [|reflexivity]].
    + intros x. rewrite decide_False; [reflexivity|]. intros Hex.
      apply Exists_nil in Hex. contradiction.
    + intros l. rewrite decide_False; [reflexivity|]. intros Hex.
      apply Exists_nil in Hex. contradiction.
  - pose proof Hok as (Hnd & Hopen & Hinj).
    destruct (Hopen id e) as (entry & c & -> & Hc & Hcl); [set_solver|].
    pose proof (head_channel_fresh id entry L (chans h0) Hok) as Hfresh.
    pose proof (entries_ok_tail _ _ _ _ Hok) as Htail.
    cbn [foldl expire_one snd fst].
    destruct (timeout <? Sub now (createdAt entry)) eqn:Hexp.
    + unfold close_chan. rewrite Hc, Hcl.
      set (h1 := {| channels := delete id (channels h0);
                    chans := <[ch entry := close1 c]> (chans h0);
                    logger := logger h0; stopCh := stopCh h0 |}).
      assert (Hok1 : entries_ok L (chans h1)).
      { destruct Htail as (Hnd' & Hopen' & Hinj'). split; [exact Hnd'|].
        split; [|exact Hinj']. intros id' e' Hin.
        destruct (Hopen' id' e' Hin) as (entry' & c' & -> & Hc' & Hcl').
        exists entry', c'. split; [reflexivity|]. split; [|exact Hcl'].
        subst h1. cbn [chans]. rewrite lookup_insert_ne; [exact Hc'|].
        intros Heq. exact (Hfresh id' entry' Hin (eq_sym Heq)). }
      destruct (IH h1 (k + 1) Hok1) as (h' & k' & Hrun & Hch & Hcs & Hlog).
      exists h', k'. split; [exact Hrun|]. split; [|split; [|exact Hlog]].
      * intros x. rewrite Hch. subst h1. cbn [channels].
        destruct (decide (id = x)) as [->|Hne].
        -- rewrite (decide_True (P := Exists _ (_ :: L)))
             by (apply Exists_cons; left; cbn; rewrite Hexp; auto).
           rewrite lookup_delete_eq. destruct (decide _); reflexivity.
        -- rewrite lookup_delete_ne by exact Hne.
           destruct (decide (Exists _ L)) as [H1|H1].
           ++ rewrite decide_True by (apply Exists_cons; right; exact H1).
              reflexivity.
           ++ rewrite decide_False; [reflexivity|]. intros Hex.
              apply Exists_cons in Hex as [[Hx _]|Hex]; [cbn in Hx|]; contradiction.
      * intros l. rewrite Hcs. subst h1. cbn [chans].
        destruct (decide (ch entry = l)) as [<-|Hne].
        -- rewrite (decide_True (P := Exists _ (_ :: L)))
             by (apply Exists_cons; left; cbn; rewrite Hexp; auto).
           rewrite lookup_insert_eq, Hc.
           rewrite decide_False; [reflexivity|]. intros Hex.
           apply Exists_exists in Hex as ([id' e'] & Hin & _ & He').
           cbn in He'. destruct e' as [entry'|]; [|discriminate].
           injection He' as He'. exact (Hfresh id' entry' Hin He').
        -- rewrite lookup_insert_ne by exact Hne.
           destruct (decide (Exists _ L)) as [H1|H1].
           ++ rewrite decide_True by (apply Exists_cons; right; exact H1).
              reflexivity.
           ++ rewrite decide_False; [reflexivity|]. intros Hex.
              apply Exists_cons in Hex as [[_ Hx]|Hex]; [|contradiction].
              cbn in Hx. congruence.
    + destruct (IH h0 k Htail) as (h' & k' & Hrun & Hch & Hcs & Hlog).
      exists h', k'. split; [exact Hrun|]. split; [|split; [|exact Hlog]].
      * intros x. rewrite Hch.
        destruct (decide (Exists _ L)) as [H1|H1].
        -- rewrite decide_True by (apply Exists_cons; right; exact H1). reflexivity.
        -- rewrite decide_False; [reflexivity|]. intros Hex.
           apply Exists_cons in Hex as [[_ Hx]|Hex]; [|contradiction].
           cbn in Hx. congruence.
      * intros l. rewrite Hcs.
        destruct (decide (Exists _ L)) as [H1|H1].
        -- rewrite decide_True by (apply Exists_cons; right; exact H1). reflexivity.
        -- rewrite decide_False; [reflexivity|]. intros Hex.
           apply Exists_cons in Hex as [[Hx _]|Hex]; [|contradiction].
           cbn in Hx. congruence.
Qed.

(** X.  The sweeper.  On a handler whose entries have open channels of their
    own, [cleanupExpiredChannels] does not panic; it removes exactly the
    entries created more than 30 seconds before [now] and closes their
    channels, and it leaves every other entry, and the channel of every
    other entry, as they were. *)
Theorem cleanupExpiredChannels_spec (h : ResponseHandler) (now : Z) :
  handler_ok h ->
  exists h',
    cleanupExpiredChannels h now = Some h' /\
    (forall id entry c,
       channels h !! id = Some (Some entry) -> chans h !! ch entry = Some c ->
       (30 * Second < Sub now (createdAt entry) ->
          channels h' !! id = None /\
          chans h' !! ch entry
          = Some {| buf := buf c; cap := cap c; ch_closed := true |}) /\
       (Sub now (createdAt entry) <= 30 * Second ->
          channels h' !! id = Some (Some entry) /\
          chans h' !! ch entry = Some c)) /\
    (forall id, channels h !! id = None -> channels h' !! id = None).
Proof.
  intros [Hopen Hinj].
  assert (Hok : entries_ok (map_to_list (channels h)) (chans h)).
  { split; [apply NoDup_fst_map_to_list|]. split.
    - intros id e Hin. apply elem_of_map_to_list in Hin. exact (Hopen id e Hin).
    - intros id1 id2 e1 e2 H1 H2. apply elem_of_map_to_list in H1, H2.
      exact (Hinj id1 id2 e1 e2 H1 H2). }
  destruct (expire_fold now _ h 0 Hok) as (h1 & k & Hrun & Hch & Hcs & _).
  set (h' := if 0 <? k
             then add_log h1 (DebugCleaned k (Z.of_nat (size (channels h1))))
             else h1).
  assert (Hsame : channels h' = channels h1 /\ chans h' = chans h1).
  { subst h'. destruct (0 <? k); split; reflexivity. }
  destruct Hsame as [Hsc Hss].
  exists h'. split.
  { unfold cleanupExpiredChannels. rewrite Hrun. subst h'.
    destruct (0 <? k); reflexivity. }
  rewrite Hsc, Hss. split.
  - intros id entry c He Hc. rewrite Hch, Hcs. fold timeout. split.
    + intros Hold.
      assert (Hexp : (timeout <? Sub now (createdAt entry)) = true)
        by (apply Z.ltb_lt; exact Hold).
      rewrite decide_True.
      2:{ apply Exists_exists. exists (id, Some entry).
          split; [apply elem_of_map_to_list; exact He|]. cbn. auto. }
      rewrite decide_True.
      2:{ apply Exists_exists. exists (id, Some entry).
          split; [apply elem_of_map_to_list; exact He|]. cbn. auto. }
      rewrite Hc. split; reflexivity.
    + intros Hyoung.
      assert (Hexp : (timeout <? Sub now (createdAt entry)) = false)
        by (apply Z.ltb_ge; exact Hyoung).
      rewrite decide_False.
      2:{ intros Hex. apply Exists_exists in Hex as ([id' e'] & Hin & Hid & Hx).
          cbn in Hid, Hx. subst id'. apply elem_of_map_to_list in Hin.
          rewrite He in Hin. injection Hin as <-. cbn in Hx. congruence. }
      rewrite decide_False.
      2:{ intros Hex. apply Exists_exists in Hex as ([id' e'] & Hin & Hx & Hl).
          cbn in Hx, Hl. destruct e' as [entry'|]; [|discriminate].
          injection Hl as Hl. apply elem_of_map_to_list in Hin.
          assert (id' = id) as -> by (apply (Hinj id' id entry' entry); auto).
          rewrite He in Hin. injection Hin as <-. cbn in Hx. congruence. }
      split; [exact He|exact Hc].
  - intros id Hnone. rewrite Hch, Hnone. destruct (decide _); reflexivity.
Qed.

Lemma cleanupExpiredChannels_spec_witness :
  exists h',
    cleanupExpiredChannels (snd (CreateResponseChan NewResponseHandler "req-1"%string 0))
      (31 * Second) = Some h' /\
    channels h' !! "req-1"%string = None.
Proof.
  destruct (cleanupExpiredChannels_spec
              (snd (CreateResponseChan NewResponseHandler "req-1"%string 0)) (31 * Second))
    as (h' & Hrun & Hentries & _).
  - split.
    + intros id e He. unfold CreateResponseChan, NewResponseHandler in He.
      cbn [snd channels chans] in He.
      apply lookup_insert_Some in He as [[<- <-]|[_ He]].
      * eexists _, _. split; [reflexivity|]. split; [reflexivity|reflexivity].
      * rewrite lookup_empty in He. discriminate.
    + intros id1 id2 e1 e2 H1 H2 _.
      unfold CreateResponseChan, NewResponseHandler in H1, H2.
      cbn [snd channels chans] in H1, H2.
      apply lookup_insert_Some in H1 as [[<- _]|[_ H1]];
        [|rewrite lookup_empty in H1; discriminate].
      apply lookup_insert_Some in H2 as [[<- _]|[_ H2]];
        [|rewrite lookup_empty in H2; discriminate].
      reflexivity.
  - exists h'. split; [exact Hrun|].
    refine (proj1 (proj1 (Hentries "req-1"%string {| ch := 0; createdAt := 0 |}
                            {| buf := []; cap := 1; ch_closed := false |} _ _) _));
      vm_compute; reflexivity.
Defined.

End SweeperFacts.

(** ** The calls [WriteFrame] makes *)

Module WriteCalls.
Import Bytes Pool Protocol ProtocolFacts.

(** The calls of [Write] a frame asks for: the length, the type, and the
    payload unless it is empty. *)
Definition calls_of (frame : Frame) : list (list byte) :=
  [PutUint32 (uint32 (Z.of_nat (length (Payload frame)))); [Type_ frame]]
  ++ match Payload frame with
     | [] => []
     | _ => [Payload frame]
     end.

(** X.  [WriteFrame] on a frame of at most 10 MiB, on any sink, calls [Write]
    with the 4 bytes of the length, then the type byte, then the payload
    (no call for an empty payload), and stops at the first call that fails:
    its error tells which call that was, and on success all the calls were
    made. *)
Theorem WriteFrame_calls {W : Type} `{Writer W} (w : W) (log : list (list byte))
    (frame : Frame) :
  Z.of_nat (length (Payload frame)) <= MaxFrameSize ->
  exists k,
    snd (fst (WriteFrame (w, log) frame)) = log ++ take k (calls_of frame) /\
    match snd (WriteFrame (w, log) frame) with
    | None => k = length (calls_of frame)
    | Some (ErrWriteLength _) => k = 1%nat
    | Some (ErrWriteType _) => k = 2%nat
    | Some (ErrWritePayload _) => k = 3%nat
    | Some _ => False
    end.
Proof.
  intros Hfit.
  destruct (WriteFrame (w, log) frame) as [[w' log'] err] eqn:Hrun.
  cbn [fst snd]. unfold WriteFrame in Hrun.
  destruct (Z.ltb_spec MaxFrameSize (Z.of_nat (length (Payload frame)))); [lia|].
  unfold calls_of.
  set (lengthBuf := PutUint32 (uint32 (Z.of_nat (length (Payload frame))))) in *.
  unfold Write, logging_Writer in Hrun. cbn [fst snd] in Hrun.
  destruct (Write w lengthBuf) as [w1 [e1|]]; cbn [fst snd] in Hrun.
  { injection Hrun as <- <- <-. exists 1%nat. split; reflexivity. }
  destruct (Write w1 [Type_ frame]) as [w2 [e2|]]; cbn [fst snd] in Hrun.
  { injection Hrun as <- <- <-. exists 2%nat. split; [|reflexivity].
    rewrite <- app_assoc. reflexivity. }
  destruct (Payload frame) as [|b payload] eqn:Hp.
  { cbn [length Z.of_nat Z.ltb Z.compare] in Hrun. injection Hrun as <- <- <-.
    exists 2%nat. split; [|reflexivity]. rewrite <- app_assoc. reflexivity. }
  destruct (Z.ltb_spec 0 (Z.of_nat (length (b :: payload)))) as [_|Hz];
    [|cbn [length] in Hz; lia].
  destruct (Write w2 (b :: payload)) as [w3 [e3|]]; cbn [fst snd] in Hrun;
    injection Hrun as <- <- <-;
    exists 3%nat; (split; [|reflexivity]); rewrite <- !app_assoc; reflexivity.
Qed.

Lemma WriteFrame_calls_witness :
  exists k,
    snd (fst (WriteFrame (([] : list byte), ([] : list (list byte)))
                (NewFrame FrameTypeData [x68; x69])))
    = [] ++ take k (calls_of (NewFrame FrameTypeData [x68; x69])).
Proof.
  destruct (WriteFrame_calls ([] : list byte) [] (NewFrame FrameTypeData [x68; x69]))
    as (k & Hlog & _).
  - vm_compute. discriminate.
  - exists k. exact Hlog.
Defined.

End WriteCalls.

(** ** Connections and the snapshot of the registry *)

Module ConnectionFacts.
Import Utils GoTime Tunnel TunnelFacts.

(** X.  [IsAlive], for a timeout that a [time.Duration] holds and that is
    not the smallest one: a connection is alive exactly when the time from
    [LastActive] to the clock reading is less than the timeout, a
    connection exactly at the timeout being stale; the saturation of
    [time.Since] does not change the answer.  Right after [UpdateActivity]
    a connection is alive for every positive timeout. *)
Theorem IsAlive_spec (c : Connection) (now timeout : Z) :
  minDuration < timeout <= maxDuration ->
  ((IsAlive c now timeout = true) <-> (now - LastActive c < timeout)) /\
  (0 < timeout -> IsAlive (UpdateActivity now c) now timeout = true).
Proof.
  intros Ht.
  assert (Hgen : forall last,
             (Since now last <? timeout) = true <-> now - last < timeout).
  { intros last. unfold Since, Sub. rewrite Z.ltb_lt.
    unfold maxDuration, minDuration in *.
    destruct (Z.ltb_spec (2 ^ 63 - 1) (now - last)); [lia|].
    destruct (Z.ltb_spec (now - last) (- 2 ^ 63)); lia. }
  unfold IsAlive. split; [apply Hgen|].
  intros Hpos. apply Hgen. unfold UpdateActivity. cbn [LastActive]. lia.
Qed.

Lemma IsAlive_spec_witness :
  (IsAlive (NewConnection "test" None 0) (90 * Second) (90 * Second) = true)
  <-> (90 * Second - LastActive (NewConnection "test" None 0) < 90 * Second).
Proof.
  refine (proj1 (IsAlive_spec (NewConnection "test" None 0) (90 * Second)
                   (90 * Second) _)).
  vm_compute. split; [reflexivity|discriminate].
Defined.

(** X.  The snapshot [List] returns holds one pointer for each binding:
    its length is [Count], and a pointer is in it exactly when [Get] returns
    it for some subdomain. *)
Theorem List_Count (m : Manager) :
  Z.of_nat (length (List m)) = Count m /\
  forall tc, tc ∈ List m <-> exists s, Get m s = Some tc.
Proof.
  unfold List, Count, Get. split.
  - rewrite length_fmap, length_map_to_list. reflexivity.
  - intros tc. rewrite list_elem_of_fmap. split.
    + intros ([s tc'] & -> & Hin). exists s. apply elem_of_map_to_list. exact Hin.
    + intros (s & Hb). exists (s, tc). split; [reflexivity|].
      apply elem_of_map_to_list. exact Hb.
Qed.

End ConnectionFacts.

(** ** The writer with the direct write *)

Module DirectWriterFacts.
Import Bytes Pool Protocol ProtocolFacts DirectWriter.

Section any_sink.
Context {W : Type} `{Writer W}.

(** X.  The writer with the direct write keeps no trace of a write error: a
    flush empties the batch and leaves the writer open whatever the writes
    return.  [Close] on an open writer closes it and its channels without
    touching the connection, the batch or the frames still in the queue;
    after it every submission returns "writer closed" and [Close] changes
    nothing. *)
Theorem direct_writer_errors_and_Close (w : FrameWriter W) :
  (batch (flushBatchLocked w) = [] /\
   closed (flushBatchLocked w) = closed w /\
   queue (flushBatchLocked w) = queue w) /\
  (closed w = false -> queue_closed w = false -> done w = false ->
   exists w',
     Close w = Some w' /\ closed w' = true /\ done w' = true /\
     conn w' = conn w /\ batch w' = batch w /\ queue w' = queue w /\
     Close w' = Some w' /\
     forall frame pick_done,
       FrameWriter_WriteFrame w' frame pick_done
       = (Returned (Some ErrWriterClosed), w')).
Proof.
  split.
  - unfold flushBatchLocked. destruct (batch w) eqn:Hb; [rewrite Hb|]; repeat split.
  - intros Hc Hq Hd. unfold Close. rewrite Hc, Hq, Hd. cbn [orb].
    eexists. split; [reflexivity|]. repeat split.
Qed.

End any_sink.

End DirectWriterFacts.

(** ** The response handler never panics *)

Module HandlerFacts.
Import GoTime Proxy SweeperFacts.

Inductive handler_op :=
  | OpCreate (requestID : string) (now : Z)
  | OpSend (requestID : string) (resp : HTTPResponse) (room_in_time : bool)
  | OpCleanup (requestID : string)
  | OpSweep (now : Z).

Definition apply_op (h : ResponseHandler) (o : handler_op) : option ResponseHandler :=
  match o with
  | OpCreate requestID now => Some (snd (CreateResponseChan h requestID now))
  | OpSend requestID resp room_in_time => SendResponse h requestID resp room_in_time
  | OpCleanup requestID => CleanupResponseChan h requestID
  | OpSweep now => cleanupExpiredChannels h now
  end.

(** The operations in turn, up to the first panic. *)
Fixpoint run (h : ResponseHandler) (ops : list handler_op) : option ResponseHandler :=
  match ops with
  | [] => Some h
  | o :: ops =>
      match apply_op h o with
      | Some h' => run h' ops
      | None => None
      end
  end.

Lemma handler_ok_Create (h : ResponseHandler) (requestID : string) (now : Z) :
  handler_ok h -> handler_ok (snd (CreateResponseChan h requestID now)).
Proof.
  intros [Hopen Hinj]. unfold CreateResponseChan. cbn [snd].
  set (c := fresh (dom (chans h))).
  assert (Hfresh : chans h !! c = None) by apply not_elem_of_dom, is_fresh.
  split; cbn [channels chans].
  - intros id e He. apply lookup_insert_Some in He as [[<- <-]|[Hne He]].
    + eexists _, _. split; [reflexivity|]. cbn [ch].
      rewrite lookup_insert_eq. split; reflexivity.
    + destruct (Hopen id e He) as (entry & c' & -> & Hc' & Hcl).
      exists entry, c'. split; [reflexivity|]. split; [|exact Hcl].
      rewrite lookup_insert_ne; [exact Hc'|]. intros Heq.
      rewrite Heq in Hfresh. congruence.
  - intros id1 id2 e1 e2 H1 H2 Heq.
    apply lookup_insert_Some in H1 as [[<- [= <-]]|[Hne1 H1]];
      apply lookup_insert_Some in H2 as [[<- [= <-]]|[Hne2 H2]].
    + reflexivity.
    + destruct (Hopen id2 _ H2) as (entry & c' & [= <-] & Hc' & _).
      cbn [ch] in Heq. congruence.
    + destruct (Hopen id1 _ H1) as (entry & c' & [= <-] & Hc' & _).
      cbn [ch] in Heq. congruence.
    + exact (Hinj id1 id2 e1 e2 H1 H2 Heq).
Qed.

Lemma handler_ok_Send (h : ResponseHandler) (requestID : string)
    (resp : HTTPResponse) (room_in_time : bool) :
  handler_ok h ->
  exists h', SendResponse h requestID resp room_in_time = Some h' /\ handler_ok h'.
Proof.
  intros [Hopen Hinj].
  assert (Hset : forall entry v,
             channels h !! requestID = Some (Some entry) ->
             ch_closed v = false ->
             forall r, handler_ok (add_log (set_chan h (ch entry) v) r)).
  { intros entry v He Hv r. split; cbn [add_log set_chan channels chans].
    - intros id e Hid. destruct (Hopen id e Hid) as (entry' & c' & -> & Hc' & Hcl).
      destruct (decide (ch entry = ch entry')) as [Heq|Hne].
      + exists entry', v. rewrite Heq, lookup_insert_eq. auto.
      + exists entry', c'. rewrite lookup_insert_ne by exact Hne. auto.
    - exact Hinj. }
  unfold SendResponse. destruct (channels h !! requestID) as [[entry|]|] eqn:He.
  - destruct (Hopen _ _ He) as (entry' & c & [= <-] & Hc & Hcl).
    rewrite Hc, Hcl.
    destruct (length (buf c) <? cap c)%nat;
      [eexists; split; [reflexivity|apply (Hset entry); auto]|].
    destruct room_in_time;
      [eexists; split; [reflexivity|apply (Hset entry); auto]|].
    eexists. split; [reflexivity|]. split; [exact Hopen|exact Hinj].
  - eexists. split; [reflexivity|]. split; [exact Hopen|exact Hinj].
  - eexists. split; [reflexivity|]. split; [exact Hopen|exact Hinj].
Qed.

Lemma handler_ok_Cleanup (h : ResponseHandler) (requestID : string) :
  handler_ok h ->
  exists h', CleanupResponseChan h requestID = Some h' /\ handler_ok h'.
Proof.
  intros [Hopen Hinj]. unfold CleanupResponseChan.
  destruct (channels h !! requestID) as [e|] eqn:He.
  - destruct (Hopen _ _ He) as (entry & c & -> & Hc & Hcl).
    unfold close_chan. rewrite Hc, Hcl. eexists. split; [reflexivity|].
    split; cbn [channels chans].
    + intros id e Hid. apply lookup_delete_Some in Hid as [Hne Hid].
      destruct (Hopen id e Hid) as (entry' & c' & -> & Hc' & Hcl').
      exists entry', c'. split; [reflexivity|]. split; [|exact Hcl'].
      rewrite lookup_insert_ne; [exact Hc'|]. intros Heq.
      apply Hne. exact (Hinj _ _ _ _ He Hid Heq).
    + intros id1 id2 e1 e2 H1 H2.
      apply lookup_delete_Some in H1 as [_ H1].
      apply lookup_delete_Some in H2 as [_ H2]. exact (Hinj _ _ _ _ H1 H2).
  - eexists. split; [reflexivity|]. split; [exact Hopen|exact Hinj].
Qed.

Lemma handler_ok_Sweep (h : ResponseHandler) (now : Z) :
  handler_ok h ->
  exists h', cleanupExpiredChannels h now = Some h' /\ handler_ok h'.
Proof.
  intros [Hopen Hinj].
  assert (Hok : entries_ok (map_to_list (channels h)) (chans h)).
  { split; [apply NoDup_fst_map_to_list|]. split.
    - intros id e Hin. apply elem_of_map_to_list in Hin. exact (Hopen id e Hin).
    - intros id1 id2 e1 e2 H1 H2. apply elem_of_map_to_list in H1, H2.
      exact (Hinj id1 id2 e1 e2 H1 H2). }
  destruct (expire_fold now _ h 0 Hok) as (h1 & k & Hrun & Hch & Hcs & _).
  assert (Hkept : forall id e, channels h1 !! id = Some e ->
                    channels h !! id = Some e /\ expired now e = false).
  { intros id e Hid. rewrite Hch in Hid.
    destruct (decide (Exists _ _)) as [|Hnot]; [discriminate|].
    split; [exact Hid|]. destruct (expired now e) eqn:Hx; [|reflexivity].
    exfalso. apply Hnot. apply Exists_exists. exists (id, e).
    split; [apply elem_of_map_to_list; exact Hid|]. auto. }
  assert (Hok1 : handler_ok h1).
  { split.
    - intros id e Hid. destruct (Hkept id e Hid) as [Hid0 Hx].
      destruct (Hopen id e Hid0) as (entry & c & -> & Hc & Hcl).
      exists entry, c. split; [reflexivity|]. split; [|exact Hcl].
      rewrite Hcs, decide_False; [exact Hc|]. intros Hex.
      apply Exists_exists in Hex as ([id' e'] & Hin & Hx' & Hl).
      cbn in Hx', Hl. destruct e' as [entry'|]; [|discriminate].
      injection Hl as Hl. apply elem_of_map_to_list in Hin.
      assert (id' = id) as -> by exact (Hinj _ _ _ _ Hin Hid0 Hl).
      rewrite Hid0 in Hin. injection Hin as <-. congruence.
    - intros id1 id2 e1 e2 H1 H2.
      destruct (Hkept _ _ H1) as [H1' _]. destruct (Hkept _ _ H2) as [H2' _].
      exact (Hinj _ _ _ _ H1' H2'). }
  unfold cleanupExpiredChannels. rewrite Hrun.
  destruct (0 <? k); eexists; (split; [reflexivity|]); [|exact Hok1].
  destruct Hok1 as [Ho Hi]. split; [exact Ho|exact Hi].
Qed.

Lemma handler_ok_run (ops : list handler_op) (h : ResponseHandler) :
  handler_ok h -> exists h', run h ops = Some h' /\ handler_ok h'.
Proof.
  revert h. induction ops as [|o ops IH]; intros h Hok; cbn [run]; [eauto|].
  assert (Hstep : exists h1, apply_op h o = Some h1 /\ handler_ok h1).
  { destruct o as [id now|id resp room|id|now]; cbn [apply_op].
    - eexists. split; [reflexivity|]. apply handler_ok_Create, Hok.
    - apply handler_ok_Send, Hok.
    - apply handler_ok_Cleanup, Hok.
    - apply handler_ok_Sweep, Hok. }
  destruct Hstep as (h1 & -> & Hok1). apply IH, Hok1.
Qed.

(** X.  Whatever sequence of [CreateResponseChan], [SendResponse],
    [CleanupResponseChan] and sweeps is run on a new response handler, one
    after the other, none of them panics (no send on a closed channel, no
    channel closed twice, no nil entry), and in the handler they leave every
    entry has an open channel of its own. *)
Theorem handler_never_panics (ops : list handler_op) :
  exists h,
    run NewResponseHandler ops = Some h /\
    (forall id e, channels h !! id = Some e ->
       exists entry c, e = Some entry /\ chans h !! ch entry = Some c /\
                       ch_closed c = false) /\
    (forall id1 id2 e1 e2,
       channels h !! id1 = Some (Some e1) -> channels h !! id2 = Some (Some e2) ->
       ch e1 = ch e2 -> id1 = id2).
Proof.
  destruct (handler_ok_run ops NewResponseHandler) as (h & Hrun & Hopen & Hinj).
  - split.
    + intros id e He. cbn in He. rewrite lookup_empty in He. discriminate.
    + intros id1 id2 e1 e2 H1. cbn in H1. rewrite lookup_empty in H1. discriminate.
  - exists h. split; [exact Hrun|]. split; assumption.
Qed.

End HandlerFacts.

(** ** The worker pool *)

Module WorkersFacts.
Import Workers.

#[export] Instance job_eq_dec : EqDecision job.
Proof. solve_decision. Defined.

(** How many times job [id] is set to run by a call of [SubmitWait]: in the
    queue or in a goroutine of its own (wrapped), and by the caller. *)
Definition runs_of (id : nat) (before : WorkerPool) (s : submitted) : nat :=
  let wrapped l := length (filter (fun j => j = Wrapped id) l) in
  (wrapped (jobQueue (pool_after s)) - wrapped (jobQueue before)
   + (wrapped (started (pool_after s)) - wrapped (started before))
   + length (filter (fun i => i = id) (ran_inline s)))%nat.

Lemma count_snoc (id : nat) (l : list job) :
  length (filter (fun j => j = Wrapped id) (l ++ [Wrapped id]))
  = S (length (filter (fun j => j = Wrapped id) l)).
Proof.
  rewrite filter_app, length_app. cbn. rewrite decide_True by reflexivity.
  cbn. lia.
Qed.

Lemma count_inline (id : nat) :
  length (filter (fun i => i = id) [id]) = 1%nat.
Proof. rewrite filter_cons, decide_True by reflexivity. reflexivity. Qed.

(** X.  [Submit] never blocks and never loses a job on an open pool: a job
    is put in the queue ([true]) or, the queue being full, started in a
    goroutine of its own ([false]); on a closed pool and for a nil job it
    does nothing and returns [false].  [SubmitWait] therefore runs a job
    once when the queue has room (a worker runs it, the caller waits) and
    once on a closed pool (the caller runs it), but twice when the queue of
    an open pool is full: the wrapped job is started in a goroutine and the
    caller runs the job again. *)
Theorem SubmitWait_runs (p : WorkerPool) (id : nat) :
  jobQueue_closed p = closed p ->
  exists s,
    SubmitWait p (Some id) = Some s /\
    (closed p = true ->
       pool_after s = p /\ waits s = false /\ runs_of id p s = 1%nat) /\
    (closed p = false -> Z.of_nat (length (jobQueue p)) < jobQueue_cap p ->
       jobQueue (pool_after s) = jobQueue p ++ [Wrapped id] /\
       waits s = true /\ runs_of id p s = 1%nat) /\
    (closed p = false -> jobQueue_cap p <= Z.of_nat (length (jobQueue p)) ->
       jobQueue (pool_after s) = jobQueue p /\
       started (pool_after s) = started p ++ [Wrapped id] /\
       ran_inline s = [id] /\ waits s = false /\ runs_of id p s = 2%nat).
Proof.
  intros Hq. unfold SubmitWait, Submit. rewrite Hq.
  destruct (closed p) eqn:Hc.
  - eexists. split; [reflexivity|]. cbn [pool_after waits ran_inline].
    split; [|split; intros; discriminate].
    intros _. unfold runs_of. cbv zeta beta. cbn [pool_after ran_inline].
    rewrite count_inline, !Nat.sub_diag. repeat split.
  - destruct (Z.ltb_spec (Z.of_nat (length (jobQueue p))) (jobQueue_cap p))
      as [Hroom|Hfull].
    + eexists. split; [reflexivity|]. cbn [pool_after waits ran_inline].
      split; [intros; discriminate|]. split; [|intros; lia].
      intros _ _. unfold runs_of. cbv zeta beta. cbn [pool_after ran_inline jobQueue started].
      rewrite count_snoc, Nat.sub_diag, filter_nil. cbn [length].
      split; [reflexivity|]. split; [reflexivity|].
      generalize (length (filter (fun j => j = Wrapped id) (jobQueue p))).
      intros n. lia.
    + eexists. split; [reflexivity|]. cbn [pool_after waits ran_inline].
      split; [intros; discriminate|]. split; [intros; lia|].
      intros _ _. unfold runs_of. cbv zeta beta. cbn [pool_after ran_inline jobQueue started].
      rewrite count_snoc, count_inline, Nat.sub_diag.
      split; [reflexivity|]. split; [reflexivity|]. split; [reflexivity|].
      split; [reflexivity|].
      generalize (length (filter (fun j => j = Wrapped id) (started p))).
      intros n. lia.
Qed.

Lemma SubmitWait_runs_witness :
  exists s,
    SubmitWait
      {| workers := 1; jobQueue := [Job 0]; jobQueue_cap := 1;
         jobQueue_closed := false; once := false; closed := false;
         started := []; executed := [] |} (Some 7%nat) = Some s /\
    ran_inline s = [7%nat] /\ started (pool_after s) = [Wrapped 7].
Proof.
  destruct (SubmitWait_runs
              {| workers := 1; jobQueue := [Job 0]; jobQueue_cap := 1;
                 jobQueue_closed := false; once := false; closed := false;
                 started := []; executed := [] |} 7 eq_refl)
    as (s & Hrun & _ & _ & Hfull).
  destruct (Hfull eq_refl) as (_ & Hs & Hi & _); [cbn; lia|].
  exists s. repeat split; assumption.
Defined.

End WorkersFacts.
